(** * openglobus: quad-tree LOD core, shallow embedding

    The development follows the TypeScript sources:

    - [RgbTerrain]   terrain/RgbTerrain.ts (height decoding, tile offsets,
                     elevation extraction with ancestor fallback);
    - [EntityNode]   quadTree/earth/EarthEntityCollectionNodeLonLat.ts
                     (the lon/lat quad split);
    - [Camera]       camera/Camera.ts (projected-size LOD metric);
    - [Planet]       scene/Planet.ts (equal-zoom pass, memory clear,
                     pixel picking);
    - [Fading]       the transition-opacity state machine;
    - [EmptyTerrain] terrain/EmptyTerrain.ts (constructor defaults, the
                     [maxNodeZoom] setter);
    - [EntityRendering] the hemisphere flag and the visibility of the
                     entity-collection nodes;
    - [CameraMotion] camera/Camera.ts ([checkMoveEnd]);
    - [RendererEvents] renderer/RendererEvents.ts (mouse buttons, touches);
    - [PlanetLayers] scene/Planet.ts (visible layers, tile-layer slices,
                     completion events, view extent).

    Number model.  A JavaScript [number] that the code only adds, multiplies,
    divides, floors and compares is a rational ([Q]); integers used as tile
    coordinates, array indices and bit masks are [Z], [nat] or [N], with the
    32-bit wrap-around of the shift operator written out; quantities that go
    through [Math.atan] or a Euclidean distance are real numbers ([R]).
    The rounding of double arithmetic and NaN are outside the model; the
    narrowing of a number stored into a [Float32Array] is modelled
    ([RgbTerrain.fround]). *)

From Stdlib Require Import ZArith QArith Qround Qpower Qabs Reals Psatz Sorted.
From stdpp Require Import base option list gmap.

(** ** terrain/RgbTerrain.ts *)

Module RgbTerrain.

Local Open Scope Z_scope.

(** *** JavaScript 32-bit shift *)

(** [ToInt32]: reduction modulo 2^32 into [-2^31, 2^31). *)
Definition toInt32 (z : Z) : Z :=
  let m := z mod 2 ^ 32 in
  if m <? 2 ^ 31 then m else m - 2 ^ 32.

(** [a << n]: both operands go through the 32-bit conversions, the shift
    count is taken modulo 32 and the result is again a signed 32-bit
    integer. *)
Definition js_shl (a n : Z) : Z :=
  toInt32 (Z.shiftl (toInt32 a) (Z.land n 31)).

(** *** The provider's decoding parameters *)

Record t : Type := mk {
  _minHeight : Q;
  _resolution : Q;
  _heightFactor : Q;
  noDataValues : list Q;
  _imageSize : nat
}.

(** [rgb2Height(r, g, b)] *)
Definition rgb2Height (this : t) (r g b : Z) : Q :=
  if r =? 255 then _minHeight this
  else (_minHeight this + _resolution this * inject_Z (r * 256 * 256 + g * 256 + b))%Q.

(** [getTileOffset]; the third component is [1.0 / dz2].  For [dz2 = 0]
    JavaScript yields [Infinity], which [Q] does not have. *)
Definition getTileOffset
  (currentTileX currentTileY currentTileZoom
   parentTileX parentTileY parentTileZoom : Z) : Z * Z * Q :=
  let dz2 := js_shl 2 (currentTileZoom - parentTileZoom - 1) in
  (currentTileX - dz2 * parentTileX,
   currentTileY - dz2 * parentTileY,
   (1 / inject_Z dz2)%Q).

(** [getChildTileIndex] *)
Definition getChildTileIndex
  (currentParentTileX currentParentTileY currentParentTileZoom
   childOffsetX childOffsetY : Z) : Z * Z * Z :=
  (currentParentTileX * 2 + childOffsetX,
   currentParentTileY * 2 + childOffsetY,
   currentParentTileZoom + 1).

(** *** Arrays indexed by JavaScript numbers *)

(** [a[i]] for an integral index.  Outside the array JavaScript reads
    [undefined] (NaN once it enters arithmetic); the model reads the default
    [d] there, and statements about values read assume the index in range. *)
Definition aget {A} (d : A) (a : list A) (i : Z) : A :=
  if i <? 0 then d else default d (a !! Z.to_nat i).

(** [a[i] = v] on a typed array: a write outside the array is dropped. *)
Definition aset {A} (a : list A) (i : Z) (v : A) : list A :=
  if i <? 0 then a else <[Z.to_nat i := v]> a.

(** [a < b] on numbers. *)
Definition Qlt_bool (a b : Q) : bool := negb (Qle_bool b a).

(** *** No-data detection *)

(** Modelled from the spec: [binarySearchFast] of utils/shared is not among
    the sources.  The spec describes it as a binary search in a sorted array;
    [checkNoDataValue] compares its result with [-1], so it returns the index
    found or [-1].  The loop halves the range [start..end] around the middle
    index; [fuel] bounds the number of iterations. *)
Fixpoint binarySearchFast_loop (fuel : nat) (arr : list Q) (x : Q) (start end_ : Z) : Z :=
  match fuel with
  | O => -1
  | S fuel' =>
      if start <=? end_ then
        let k := (start + end_) / 2 in
        let ak := aget 0%Q arr k in
        if Qeq_bool ak x then k
        else if Qlt_bool ak x then binarySearchFast_loop fuel' arr x (k + 1) end_
        else binarySearchFast_loop fuel' arr x start (k - 1)
      else -1
  end.

(** Modelled from the spec: the search over the whole array; the range
    shrinks in every iteration, so [length + 1] iterations suffice. *)
Definition binarySearchFast (arr : list Q) (x : Q) : Z :=
  binarySearchFast_loop (S (length arr)) arr x 0 (Z.of_nat (length arr) - 1).

(** [RgbTerrain.checkNoDataValue(noDataValues, value)] *)
Definition checkNoDataValue (noDataValues : list Q) (value : Q) : bool :=
  if Qlt_bool 50000 value then true
  else negb (binarySearchFast noDataValues value =? -1).

(** *** Ancestor fallback *)

(** [getParentHeight]; [Math.sqrt(heights.length)] is [Z.sqrt], exact for
    the square grids the providers store. *)
Definition getParentHeight (oneByDz2 : Q) (offsetX offsetY : Z) (heights : list Q)
  (i j : Z) (skipPositiveHeights : bool) : Q :=
  let parentGridSize := Z.sqrt (Z.of_nat (length heights)) in
  let pi := Qfloor (inject_Z offsetY * oneByDz2 * inject_Z parentGridSize
                    + inject_Z i * oneByDz2)%Q in
  let pj := Qfloor (inject_Z offsetX * oneByDz2 * inject_Z parentGridSize
                    + inject_Z j * oneByDz2)%Q in
  let h := aget 0%Q heights (pi * parentGridSize + pj) in
  if skipPositiveHeights then (if Qlt_bool 0 h then 0%Q else h) else h.

(** The block that every extraction loop repeats for one source pixel:
    decode the height at [fromInd4], test it, and replace it by the ancestor's
    height when it is no-data or zero and ancestor data is at hand. *)
Definition pixelHeight (this : t) (rgbaData : list Z) (noDataValues : list Q)
  (availableParentData : option (list Q))
  (availableParentOffsetX availableParentOffsetY : Z) (availableZoomDiff : Q)
  (skipPositiveHeights : bool) (heightFactor : Q) (fromInd4 i j : Z) : Q :=
  let height := Qmult heightFactor
                  (rgb2Height this (aget 0 rgbaData fromInd4)
                     (aget 0 rgbaData (fromInd4 + 1)) (aget 0 rgbaData (fromInd4 + 2))) in
  let isNoData := checkNoDataValue noDataValues height in
  match availableParentData with
  | Some heights =>
      if isNoData || Qeq_bool height 0
      then getParentHeight availableZoomDiff availableParentOffsetX
             availableParentOffsetY heights i j skipPositiveHeights
      else height
  | None => height
  end.

(** *** Stores into typed arrays *)

(** The integer nearest to [q], the even one of the two at a tie. *)
Definition roundHalfEven (q : Q) : Z :=
  let f := Qfloor q in
  match Qcompare (q - inject_Z f) (1 # 2) with
  | Lt => f
  | Gt => f + 1
  | Eq => if Z.even f then f else f + 1
  end.

(** The exponent [e] with [2^e <= a < 2^(e+1)], for a positive [a]. *)
Definition floorLog2 (a : Q) : Z :=
  let e0 := Z.log2 (Qnum a) - Z.log2 (Z.pos (Qden a)) in
  if Qlt_bool a (Qpower 2 e0) then e0 - 1 else e0.

(** [Math.fround], the conversion that a store into a [Float32Array]
    applies to a number: the nearest binary32 value, ties to the even
    significand; 24 significant bits, subnormals below [2^-126].  The
    overflow of binary32 to [Infinity] is not modelled: the exponent has no
    upper bound here. *)
Definition fround (q : Q) : Q :=
  if Qeq_bool q 0 then 0%Q
  else
    let a := Qabs q in
    let e := Z.max (floorLog2 a) (-126) in
    let ulp := Qpower 2 (e - 23) in
    let v := Qred (Qmult (inject_Z (roundHalfEven (Qdiv a ulp))) ulp) in
    if Qlt_bool q 0 then Qopp v else v.

(** [extractElevationSimple]: the image has the size of the grid; the grid
    has one more row and column, filled from the last image column and row.
    [outCurrenElevations] is a [number[]] or a typed array; [store] is the
    conversion that array applies to a number stored in it. *)
Definition extractElevationSimpleInto (store : Q -> Q)
  (this : t) (rgbaData : list Z) (noDataValues : list Q)
  (availableParentData : option (list Q))
  (availableParentOffsetX availableParentOffsetY : Z) (availableZoomDiff : Q)
  (skipPositiveHeights : bool) (outCurrenElevations : list Q)
  (heightFactor : Q) (imageSize : Z) : list Q :=
  let px := fun fromInd4 i j =>
              store (pixelHeight this rgbaData noDataValues availableParentData
                       availableParentOffsetX availableParentOffsetY availableZoomDiff
                       skipPositiveHeights heightFactor fromInd4 i j) in
  let out1 :=
    foldl (fun out k =>
             let j := Z.rem k imageSize in
             let i := k / imageSize in
             aset out (i * (imageSize + 1) + j) (px (k * 4) i j))
          outCurrenElevations (seqZ 0 (imageSize * imageSize)) in
  let out2 :=
    foldl (fun out i =>
             let j := imageSize - 1 in
             aset out (i * (imageSize + 1) + imageSize) (px ((i * imageSize + j) * 4) i j))
          out1 (seqZ 0 imageSize) in
  let out3 :=
    foldl (fun out j =>
             let i := imageSize - 1 in
             aset out (imageSize * (imageSize + 1) + j) (px ((i * imageSize + j) * 4) i j))
          out2 (seqZ 0 imageSize) in
  aset out3 (Z.of_nat (length out3) - 1)
    (px (Z.of_nat (length rgbaData) - 4) (imageSize - 1) (imageSize - 1)).

(** [extractElevationSimple] on a [number[]], which stores a number as it
    is. *)
Definition extractElevationSimple : t -> list Z -> list Q -> option (list Q) ->
  Z -> Z -> Q -> bool -> list Q -> Q -> Z -> list Q :=
  extractElevationSimpleInto (fun v => v).

(** The part of [_createHeights] that picks the ancestor: above the native
    zoom the nearest ancestor with terrain is used, and ancestors at zoom 8
    or coarser stand for sea level ([skipPositiveHeights]). *)
Definition skipPositiveHeightsOf (availableParentTileZoom : Z) : bool :=
  availableParentTileZoom <=? 8.




(** Position of the sample of row [i], column [j] in a grid of [size + 1]
    samples per row. *)
Definition gridIndex (size i j : Z) : Z := i * (size + 1) + j.

(** What [_createHeights] reads of a node's segment. *)
Record SegmentInfo : Type := mkSegmentInfo {
  tileX : Z;
  tileY : Z;
  tileZoom : Z;
  terrainExists : bool;
  elevationData : option (list Q)
}.

(** The search [while (pn && !pn.segment.terrainExists) pn = pn.parentNode]
    along the chain that starts at the segment's own node. *)
Fixpoint nearestWithTerrain (chain : list SegmentInfo) : option SegmentInfo :=
  match chain with
  | [] => None
  | pn :: up => if terrainExists pn then Some pn else nearestWithTerrain up
  end.

(** [_createHeights] for a segment whose image has the size of the grid
    ([_imageSize === plainGridSize], image size a power of two).  [chain] is
    the segment's node followed by its ancestors; the result is the fresh
    [Float32Array] of [(plainGridSize + 1)^2] samples after extraction, every
    store into which narrows the height with [fround]. *)
Definition _createHeights_gridSized (this : t) (maxNativeZoom : Z)
  (rgbaData : list Z) (chain : list SegmentInfo) : list Q :=
  let size := Z.of_nat (_imageSize this) in
  let outCurrenElevations := replicate (Z.to_nat ((size + 1) * (size + 1))) 0%Q in
  match chain with
  | [] =>
      extractElevationSimpleInto fround this rgbaData (noDataValues this) None 0 0 0%Q false
        outCurrenElevations (_heightFactor this) size
  | segment :: _ =>
      let found :=
        if maxNativeZoom <? tileZoom segment then nearestWithTerrain chain else None in
      let '(availableParentTileX, availableParentTileY, availableParentTileZoom,
            availableParentData, skipPositiveHeights) :=
        match found with
        | Some pn =>
            (tileX pn, tileY pn, tileZoom pn, elevationData pn,
             skipPositiveHeightsOf (tileZoom pn))
        | None => (0, 0, 0, None, false)
        end in
      let '(availableParentOffsetX, availableParentOffsetY, availableZoomDiff) :=
        getTileOffset (tileX segment) (tileY segment) (tileZoom segment)
          availableParentTileX availableParentTileY availableParentTileZoom in
      extractElevationSimpleInto fround this rgbaData (noDataValues this) availableParentData
        availableParentOffsetX availableParentOffsetY availableZoomDiff
        skipPositiveHeights outCurrenElevations (_heightFactor this) size
  end.

(** A provider with the constructor's defaults ([minHeight = -10000],
    [resolution = 0.1], the single no-data value [minHeight]) over 2 x 2
    images; an image whose four pixels all decode to [minHeight]; and a
    segment at zoom 9 without terrain under an ancestor at zoom 8 whose
    3 x 3 grid is 100 m everywhere. *)
Definition tinyProvider : t := mk (-10000) 0.1 1 [(-10000)%Q] 2.

Definition noDataImage : list Z :=
  [255; 0; 0; 255;  255; 0; 0; 255;  255; 0; 0; 255;  255; 0; 0; 255].

Definition plateau : list Q := replicate 9 100%Q.


(** The same one zoom level further down: the ancestor is at zoom 9. *)
Definition detailChain : list SegmentInfo :=
  [ mkSegmentInfo 0 0 10 false None;
    mkSegmentInfo 0 0 9 true (Some plateau) ].







(** [extractElevationTilesRgbNonPowerOfTwo]: one decoded height per cell of
    the output array, nothing else. *)
Definition extractElevationTilesRgbNonPowerOfTwo (this : t) (rgbaData : list Z)
  (outCurrenElevations : list Q) (heightFactor : Q) : list Q :=
  foldl (fun out i =>
           let i4 := i * 4 in
           aset out i (Qmult heightFactor
                         (rgb2Height this (aget 0 rgbaData i4) (aget 0 rgbaData (i4 + 1))
                            (aget 0 rgbaData (i4 + 2)))))
        outCurrenElevations (seqZ 0 (Z.of_nat (length outCurrenElevations))).


(** The variables of the loop of [extractElevationTilesRgbNoChildren] that
    live across its iterations. *)
Record NoChildrenState : Type := mkNoChildrenState {
  nc_out : list Q;
  nc_currIndex : Z;
  nc_rightHeight : Q;
  nc_bottomHeight : Q;
  nc_sourceSize4 : Z
}.



(** [isBlur(segment)] *)
Definition isBlur (segmentTileZoom : Z) : bool := 16 <=? segmentTileZoom.

(** The integer a pixel encodes, as [rgb2Height] reads it. *)
Definition encoded (r g b : Z) : Z := r * 256 * 256 + g * 256 + b.

(** A colour channel of an image: a byte. *)
Definition channel (c : Z) : Prop := 0 <= c <= 255.

(** The tile reached from [tile] by taking the child at each offset of
    [path] in turn, with [getChildTileIndex]. *)
Fixpoint descend (tile : Z * Z * Z) (path : list (Z * Z)) : Z * Z * Z :=
  match path with
  | [] => tile
  | (ox, oy) :: rest =>
      let '(x, y, z) := tile in descend (getChildTileIndex x y z ox oy) rest
  end.

(** The binary number spelt by the offsets of one axis along a path. *)
Definition pathOffset (bits : list Z) : Z := foldl (fun acc o => 2 * acc + o) 0 bits.

(** *** The constructor's own fields *)

(** The options the constructor of RgbTerrain reads for its own fields; an
    absent option is [None]. *)
Record IRgbTerrainParams : Type := mkParams {
  opt_imageSize : option nat;
  opt_minHeight : option Q;
  opt_resolution : option Q
}.

(** [o || d] on an optional number: [undefined] and zero are falsy. *)
Definition orNumber (o : option Q) (d : Q) : Q :=
  match o with
  | Some v => if Qeq_bool v 0 then d else v
  | None => d
  end.

(** The fields the constructor of RgbTerrain sets itself; the height factor
    and the no-data values are set by the base-class constructor and are
    taken as given. *)
Definition constructor (options : IRgbTerrainParams)
  (heightFactor : Q) (noData : list Q) : t :=
  mk (orNumber (opt_minHeight options) (-10000)%Q)
     (orNumber (opt_resolution options) 0.1%Q)
     heightFactor noData
     (match opt_imageSize options with
      | Some (S n) => S n
      | _ => 256%nat
      end).

(** *** Height queries *)

(** What a call of [getHeightAsync] does before it returns: it calls the
    callback with a height and returns [true], or it calls the callback with
    [NaN] (the pixel index is outside the cached image) and returns [true],
    or it leaves the answer to the fetch of a tile and returns [false]. *)
Inductive HeightAnswer (K : Type) : Type :=
| Called (h : Q)
| CalledNaN
| Pending (tileIndex : K).

Arguments Called {K} h.
Arguments CalledNaN {K}.
Arguments Pending {K} tileIndex.

(** The three colour bytes at [index]; [None] when one of them is outside
    the array, where JavaScript reads [undefined]. *)
Definition pixelAt (data : list Z) (index : Z) : option (Z * Z * Z) :=
  if index <? 0 then None
  else
    r ← data !! Z.to_nat index;
    g ← data !! Z.to_nat (index + 1);
    b ← data !! Z.to_nat (index + 2);
    Some (r, g, b).

Section HeightQuery.

(** The tile arithmetic of the quad-tree strategy and the cache key of
    Layer are not part of this file: they are parameters. *)
Context {LonLat K : Type} `{Countable K}.
Variable getTileXY : LonLat -> Z -> Z * Z * Z * Z.
Variable getLonLatTileOffset : LonLat -> Z -> Z -> Z -> Z -> Z * Z.
Variable getTileIndex : Z -> Z -> Z -> Z -> K.

(** [getHeightAsync] for a zoom that is given.  The recursion is on the
    zoom, which every recursive call lowers by one. *)
Fixpoint getHeightAsync_at (this : t) (_imageDataCache : gmap K (list Z))
  (lonLat : LonLat) (zoom : nat) : HeightAnswer K :=
  match zoom with
  | O => Called 0%Q
  | S zoom' =>
      let '(x, y, z, tileGroup) := getTileXY lonLat (Z.of_nat zoom) in
      let '(i, j) := getLonLatTileOffset lonLat x y z (Z.of_nat (_imageSize this)) in
      let index := (i * Z.of_nat (_imageSize this) + j) * 4 in
      let tileIndex := getTileIndex x y z tileGroup in
      match _imageDataCache !! tileIndex with
      | Some data =>
          match pixelAt data index with
          | Some (r, g, b) =>
              let height := Qmult (_heightFactor this) (rgb2Height this r g b) in
              let isNoData := checkNoDataValue (noDataValues this) height in
              if isNoData
              then getHeightAsync_at this _imageDataCache lonLat zoom'
              else Called (Qmult (_heightFactor this) (rgb2Height this r g b))
          | None => CalledNaN
          end
      | None => Pending tileIndex
      end
  end.

(** [getHeightAsync(lonLat, callback, zoom)]: an absent zoom is the
    provider's [maxZoom]. *)
Definition getHeightAsync (this : t) (maxZoom : nat)
  (_imageDataCache : gmap K (list Z)) (lonLat : LonLat) (zoom : option nat)
  : HeightAnswer K :=
  getHeightAsync_at this _imageDataCache lonLat (default maxZoom zoom).

(** The cache key of the tile that covers [lonLat] at [zoom]. *)
Definition tileIndexAt (lonLat : LonLat) (zoom : nat) : K :=
  let '(x, y, z, tileGroup) := getTileXY lonLat (Z.of_nat zoom) in
  getTileIndex x y z tileGroup.

End HeightQuery.

End RgbTerrain.

(** ** quadTree/earth/EarthEntityCollectionNodeLonLat.ts *)

Module EntityNode.

Local Open Scope Q_scope.

(** [new LonLat(lon, lat)]; the split never gives or reads a height. *)
Record LonLat : Type := mkLonLat { lon : Q; lat : Q }.

Record Extent : Type := mkExtent { southWest : LonLat; northEast : LonLat }.

(** Modelled from the spec: the class Extent is not among the sources; the
    spec derives width and height from the two corners. *)
Definition getWidth (e : Extent) : Q := lon (northEast e) - lon (southWest e).

(** Modelled from the spec: see [getWidth]. *)
Definition getHeight (e : Extent) : Q := lat (northEast e) - lat (southWest e).

(** The quadrant constants of quadTree/quadTree.ts, used as indices of
    [childNodes]. *)
Inductive Quadrant : Type := NW | NE | SW | SE.

Record Node : Type := mkNode {
  partId : option Quadrant;   (* [None] for a root *)
  extent : Extent;
  zoom : Z
}.

(** [createChildNodes]: the array [childNodes], as a function of the
    quadrant. *)
Definition createChildNodes (this : Node) : Quadrant -> Node :=
  let ext := extent this in
  let size_x := getWidth ext * 0.5 in
  let size_y := getHeight ext * 0.5 in
  let ne := northEast ext in
  let sw := southWest ext in
  let c := mkLonLat (lon sw + size_x) (lat sw + size_y) in
  let z := (zoom this + 1)%Z in
  fun q =>
    match q with
    | NW => mkNode (Some NW)
              (mkExtent (mkLonLat (lon sw) (lat sw + size_y))
                        (mkLonLat (lon sw + size_x) (lat ne))) z
    | NE => mkNode (Some NE) (mkExtent c (mkLonLat (lon ne) (lat ne))) z
    | SW => mkNode (Some SW) (mkExtent (mkLonLat (lon sw) (lat sw)) c) z
    | SE => mkNode (Some SE)
              (mkExtent (mkLonLat (lon sw + size_x) (lat sw))
                        (mkLonLat (lon ne) (lat sw + size_y))) z
    end.

(** The closed rectangle an extent denotes, and its open interior. *)
Definition covers (e : Extent) (p : LonLat) : Prop :=
  lon (southWest e) <= lon p /\ lon p <= lon (northEast e) /\
  lat (southWest e) <= lat p /\ lat p <= lat (northEast e).

Definition interior (e : Extent) (p : LonLat) : Prop :=
  lon (southWest e) < lon p /\ lon p < lon (northEast e) /\
  lat (southWest e) < lat p /\ lat p < lat (northEast e).

(** The midpoint [c] of the split. *)
Definition centre (e : Extent) : LonLat :=
  mkLonLat (lon (southWest e) + getWidth e * 0.5) (lat (southWest e) + getHeight e * 0.5).

(** The corner of a child that lies inside the parent: the south-east
    corner of NW, the south-west of NE, the north-east of SW, the north-west
    of SE. *)
Definition innerCorner (q : Quadrant) (e : Extent) : LonLat :=
  match q with
  | NW => mkLonLat (lon (northEast e)) (lat (southWest e))
  | NE => southWest e
  | SW => northEast e
  | SE => mkLonLat (lon (southWest e)) (lat (northEast e))
  end.

End EntityNode.

(** ** math/Vec3.ts *)

Module Vec3.

Local Open Scope R_scope.

Record t : Type := mk { x : R; y : R; z : R }.

(** Modelled from the spec: the class Vec3 is not among the sources;
    [distance] is the Euclidean distance between two points. *)
Definition distance (a b : t) : R :=
  sqrt ((x a - x b) * (x a - x b) + (y a - y b) * (y a - y b) + (z a - z b) * (z a - z b)).

(** Modelled from the spec: the dot product of two vectors. *)
Definition dot (a b : t) : R := x a * x b + y a * y b + z a * z b.

(** Modelled from the spec: [scaleTo] is the vector scaled by a number. *)
Definition scaleTo (a : t) (s : R) : t := mk (x a * s) (y a * s) (z a * s).

(** Modelled from the spec: [addA] adds a vector. *)
Definition addA (a b : t) : t := mk (x a + x b) (y a + y b) (z a + z b).

End Vec3.

(** ** camera/Camera.ts *)

Module Camera.

Local Open Scope R_scope.

(** Modelled from the spec: the constants of math.ts are not among the
    sources; the spec gives the degree-to-radian factor as pi / 180. *)
Definition RADIANS : R := PI / 180.

(** Modelled from the spec: half of [RADIANS], as its name says. *)
Definition RADIANS_HALF : R := 0.5 * RADIANS.

(** The fields of Camera that the viewport parameters and the LOD metric
    read or write.  The frustums with their matrices, the orientation vectors
    other than the backward one and the event handler are left out. *)
Record t : Type := mk {
  eye : Vec3.t;
  _b : Vec3.t;
  _width : R;
  _height : R;
  _viewAngle : R;
  _tanViewAngle_hrad : R;
  _tanViewAngle_hradOneByHeight : R;
  _projSizeConst : R
}.

Definition getBackward (this : t) : Vec3.t := _b this.

(** [_updateViewportParameters] *)
Definition _updateViewportParameters (this : t) : t :=
  let tanViewAngle_hrad := tan (_viewAngle this * RADIANS_HALF) in
  mk (eye this) (_b this) (_width this) (_height this) (_viewAngle this)
     tanViewAngle_hrad
     (tanViewAngle_hrad * (1 / _height this))
     (Rmin (if Rlt_dec (_width this) 512 then 512 else _width this)
           (if Rlt_dec (_height this) 512 then 512 else _height this)
      / (_viewAngle this * RADIANS)).

Definition getAspectRatio (this : t) : R := _width this / _height this.

(** [_setProj(angle, aspect)]; the projection matrices of the frustums and
    the horizontal view angle, which it also refreshes, are not modelled. *)
Definition _setProj (this : t) (angle aspect : R) : t :=
  _updateViewportParameters
    (mk (eye this) (_b this) (_width this) (_height this) angle
        (_tanViewAngle_hrad this) (_tanViewAngle_hradOneByHeight this)
        (_projSizeConst this)).

(** [refresh]; [update] rebuilds the view matrices only. *)
Definition refresh (this : t) : t :=
  _setProj this (_viewAngle this) (getAspectRatio this).

(** [setViewportSize(width, height)] *)
Definition setViewportSize (this : t) (width height : R) : t :=
  refresh (mk (eye this) (_b this) width height (_viewAngle this)
              (_tanViewAngle_hrad this) (_tanViewAngle_hradOneByHeight this)
              (_projSizeConst this)).

(** [setViewAngle(angle)] *)
Definition setViewAngle (this : t) (angle : R) : t :=
  refresh (mk (eye this) (_b this) (_width this) (_height this) angle
              (_tanViewAngle_hrad this) (_tanViewAngle_hradOneByHeight this)
              (_projSizeConst this)).

(** [copy(cam)] *)
Definition copy (this cam : t) : t :=
  setViewAngle
    (mk (eye cam) (_b cam) (_width cam) (_height cam) (_viewAngle this)
        (_tanViewAngle_hrad this) (_tanViewAngle_hradOneByHeight this)
        (_projSizeConst this))
    (_viewAngle cam).

(** [Math.atan(r / d)] for a distance [d].  At [d = 0] the IEEE quotient is
    the infinity with the sign of [r], whose arc tangent is [PI / 2] or
    [- PI / 2]; [0 / 0] is NaN, which the model does not have (it reads 0). *)
Definition atanOfRatio (r d : R) : R :=
  if Req_dec_T d 0 then
    if Rlt_dec 0 r then PI / 2 else if Rlt_dec r 0 then - PI / 2 else 0
  else atan (r / d).

(** [projectedSize(p, r)] *)
Definition projectedSize (this : t) (p : Vec3.t) (r : R) : R :=
  atanOfRatio r (Vec3.distance (eye this) p) * _projSizeConst this.

(** The updates of the viewport or of the view angle that the class offers. *)
Inductive viewport_update (c : t) : t -> Prop :=
| upd_setViewportSize w h : viewport_update c (setViewportSize c w h)
| upd_setViewAngle a : viewport_update c (setViewAngle c a)
| upd_refresh : viewport_update c (refresh c)
| upd_copy cam : viewport_update c (copy c cam).


(** What [_updateViewportParameters] is to leave in [_projSizeConst]. *)
Definition projSizeConst_ok (c : t) : Prop :=
  _projSizeConst c
  = Rmin (Rmax (_width c) 512) (Rmax (_height c) 512) / (_viewAngle c * (PI / 180)).

(** A camera as the constructor leaves it for a 1024 x 768 viewport: eye at
    the origin, looking down the negative z axis, view angle 47 degrees, the
    viewport parameters not yet computed. *)
Definition fresh1024x768 : t :=
  mk (Vec3.mk 0 0 0) (Vec3.mk 0 0 1) 1024 768 47 0 0 0.
End Camera.

(** ** scene/Planet.ts *)

Module Planet.

Local Open Scope R_scope.

Definition MAX_NODES : Z := 200.

Definition HORIZON_TANGENT : R := 0.81.

(** [a < b] on numbers. *)
Definition Rlt_bool (a b : R) : bool := if Rlt_dec a b then true else false.

(** *** Constructor defaults of the equal-zoom band *)

(** [options.f || d] for an optional number: [undefined] and [0] give [d]. *)
Definition orDefault (o : option R) (d : R) : R :=
  match o with
  | Some v => if Req_dec_T v 0 then d else v
  | None => d
  end.

Record EqualZoomBand : Type := mkBand {
  maxEqualZoomAltitude : R;
  minEqualZoomAltitude : R;
  minEqualZoomCameraSlope : R
}.

Definition bandOfOptions (maxAlt minAlt minSlope : option R) : EqualZoomBand :=
  mkBand (orDefault maxAlt 15000000) (orDefault minAlt 10000) (orDefault minSlope 0.8).

(** *** The equal-zoom correction pass *)

(** What the pass reads of a rendered node and of its segment. *)
Record Node : Type := mkNode {
  __id : Z;
  tileZoom : Z;              (* [segment.tileZoom] *)
  centerNormal : Vec3.t;     (* [segment.centerNormal] *)
  inFrustum : N              (* bit mask over the camera's frustums *)
}.

(** PlanetCamera: a camera with its slope and its geodetic height
    ([_lonLat.height]). *)
Record PlanetCamera : Type := mkCam {
  base : Camera.t;
  slope : R;
  _lonLat_height : R
}.

(** The fields of Planet the pass works on. *)
Record RenderState : Type := mkRender {
  _renderedNodes : list Node;
  _renderedNodesInFrustum : list (list Node);
  minCurrZoom : Z;
  maxCurrZoom : Z
}.

(** [rf[k].push(ri)]; a missing [rf[k]] is a TypeError ([None]). *)
Definition pushInFrustum (rf : list (list Node)) (k : nat) (ri : Node)
  : option (list (list Node)) :=
  match rf !! k with
  | Some l => Some (<[k := l ++ [ri]]> rf)
  | None => None
  end.

(** The loop [while (inFrustum) { if (inFrustum & 1) rf[k].push(ri); k++;
    inFrustum >>= 1; }], by recursion on the binary digits of the mask. *)
Fixpoint distribute_pos (p : positive) (k : nat) (ri : Node) (rf : list (list Node))
  : option (list (list Node)) :=
  match p with
  | xH => pushInFrustum rf k ri
  | xO p' => distribute_pos p' (S k) ri rf
  | xI p' =>
      match pushInFrustum rf k ri with
      | Some rf' => distribute_pos p' (S k) ri rf'
      | None => None
      end
  end.

Definition distribute (mask : N) (ri : Node) (rf : list (list Node))
  : option (list (list Node)) :=
  match mask with
  | N0 => Some rf
  | Npos p => distribute_pos p 0 ri rf
  end.

(** [ht]: the centre normal of the segment dotted with the backward vector. *)
Definition horizonValue (cam : PlanetCamera) (ri : Node) : R :=
  Vec3.dot (centerNormal ri) (Camera.getBackward (base cam)).

(** The test of the first loop: the node stays as it is. *)
Definition keepsNode (cam : PlanetCamera) (maxZoom : Z) (ri : Node) : bool :=
  (tileZoom ri =? maxZoom)%Z || Rlt_bool (horizonValue cam ri) HORIZON_TANGENT.

(** The first loop over [temp]: [(_renderedNodes, rf, temp2)]. *)
Fixpoint splitRendered (cam : PlanetCamera) (maxZoom : Z) (temp : list Node)
  (rendered : list Node) (rf : list (list Node)) (temp2 : list Node)
  : option (list Node * list (list Node) * list Node) :=
  match temp with
  | [] => Some (rendered, rf, temp2)
  | ri :: rest =>
      if keepsNode cam maxZoom ri then
        match distribute (inFrustum ri) ri rf with
        | Some rf' => splitRendered cam maxZoom rest (rendered ++ [ri]) rf' temp2
        | None => None
        end
      else splitRendered cam maxZoom rest rendered rf (temp2 ++ [ri])
  end.

(** A camera looking straight down the z axis from 20 km, and a node at zoom 3
    whose unit centre normal makes the horizon value exactly
    [HORIZON_TANGENT]. *)
Definition zenithCamera : PlanetCamera :=
  mkCam (Camera.mk (Vec3.mk 0 0 6400000) (Vec3.mk 0 0 1) 1024 768 47 0 0 0) 1 20000.

Definition tieNode : Node := mkNode 7 3 (Vec3.mk (sqrt 0.3439) 0 0.81) 1.

Definition inBand (band : EqualZoomBand) (cam : PlanetCamera) : bool :=
  Rlt_bool (minEqualZoomCameraSlope band) (slope cam) &&
  Rlt_bool (_lonLat_height cam) (maxEqualZoomAltitude band) &&
  Rlt_bool (minEqualZoomAltitude band) (_lonLat_height cam).

Section EqualZoom.

(** [Node.renderTree(cam, maxZoom, null, false, node)] is not among the
    sources: it walks the subtree of the node and adds what it selects to the
    render lists. *)
Variable renderTree : Node -> PlanetCamera -> Z -> RenderState -> RenderState.

(** [_collectRenderedNodesMaxZoom(cam)]; [None] is the TypeError of a mask
    that names a frustum the camera does not have. *)
Definition _collectRenderedNodesMaxZoom (band : EqualZoomBand) (cam : PlanetCamera)
  (this : RenderState) : option RenderState :=
  if inBand band cam then
    let temp := _renderedNodes this in
    let rf := map (fun _ => []) (_renderedNodesInFrustum this) in
    match splitRendered cam (maxCurrZoom this) temp [] rf [] with
    | Some (rendered, rf', temp2) =>
        Some (foldl (fun st n => renderTree n cam (maxCurrZoom st) st)
                (mkRender rendered rf' (maxCurrZoom this) (maxCurrZoom this))
                temp2)
    | None => None
    end
  else Some this.

End EqualZoom.

(** *** Memory clearing *)

(** Calls into collaborators, in the order they are made. *)
Inductive Effect : Type :=
| CamCheckFly
| TerrainClearCache
| LayerLock | TerrainLock | NormalMapCreatorLock
| NormalMapCreatorClear | TerrainAbortLoading | TileLoaderAbortAll
| QuadTreeStrategyClear
| LayerFree | TerrainFree | NormalMapCreatorFree
| DeleteIndexBuffers.

(** The fields of Planet that the pre-draw step and [memClear] touch. *)
Record MemState : Type := mkMem {
  _distBeforeMemClear : R;
  _prevCamEye : Vec3.t;
  _createdNodesCount : Z;
  _minDistanceBeforeMemClear : R;
  _indexesCacheToRemoveCounter : Z;
  camera_insideSegment : option Z;
  effects : list Effect
}.

(** The calls [memClear] makes between resetting the distance and resetting
    the node count. *)
Definition memClearCalls : list Effect :=
  [LayerLock; TerrainLock; NormalMapCreatorLock;
   NormalMapCreatorClear; TerrainAbortLoading; TileLoaderAbortAll;
   QuadTreeStrategyClear;
   LayerFree; TerrainFree; NormalMapCreatorFree].

(** [memClear] *)
Definition memClear (this : MemState) : MemState :=
  mkMem 0 (_prevCamEye this) 0%Z (_minDistanceBeforeMemClear this)
    (_indexesCacheToRemoveCounter this) None
    (effects this ++ memClearCalls).

(** [_clearIndexesCache] *)
Definition _clearIndexesCache (this : MemState) : MemState :=
  mkMem (_distBeforeMemClear this) (_prevCamEye this) (_createdNodesCount this)
    (_minDistanceBeforeMemClear this) 0%Z (camera_insideSegment this)
    (effects this ++ [DeleteIndexBuffers]).

Definition emit (e : Effect) (this : MemState) : MemState :=
  mkMem (_distBeforeMemClear this) (_prevCamEye this) (_createdNodesCount this)
    (_minDistanceBeforeMemClear this) (_indexesCacheToRemoveCounter this)
    (camera_insideSegment this) (effects this ++ [e]).

(** The condition of the "free memory" branch, on the state after the
    distance has been accumulated. *)
Definition needsMemClear (this : MemState) : bool :=
  (MAX_NODES <? _createdNodesCount this)%Z &&
  Rlt_bool (_minDistanceBeforeMemClear this) (_distBeforeMemClear this).

(** [_globalPreDraw], for the camera eye of this frame. *)
Definition _globalPreDraw (this : MemState) (camEye : Vec3.t) : MemState :=
  let s1 := mkMem (_distBeforeMemClear this + Vec3.distance (_prevCamEye this) camEye)
              camEye (_createdNodesCount this) (_minDistanceBeforeMemClear this)
              (_indexesCacheToRemoveCounter this) (camera_insideSegment this)
              (effects this) in
  let s2 := emit CamCheckFly s1 in
  let s3 := if needsMemClear s2 then memClear (emit TerrainClearCache s2) else s2 in
  if (600 <? _indexesCacheToRemoveCounter s3)%Z then _clearIndexesCache s3 else s3.

(** The quad-tree traversal of a frame creates [n] nodes, each of which
    counts itself in [_createdNodesCount]. *)
Definition addCreatedNodes (this : MemState) (n : Z) : MemState :=
  mkMem (_distBeforeMemClear this) (_prevCamEye this) (_createdNodesCount this + n)%Z
    (_minDistanceBeforeMemClear this) (_indexesCacheToRemoveCounter this)
    (camera_insideSegment this) (effects this).

(** Frames in turn: the nodes created in the frame, then [_globalPreDraw]
    with the camera eye of the frame. *)
Fixpoint preDrawFrames (this : MemState) (frames : list (Z * Vec3.t)) : MemState :=
  match frames with
  | [] => this
  | (created, camEye) :: rest =>
      preDrawFrames (_globalPreDraw (addCreatedNodes this created) camEye) rest
  end.

(** *** Picking *)

(** A call either throws (a property read on [null]) or returns. *)
Inductive Outcome (A : Type) : Type :=
| Throws
| Returns (v : A).
Arguments Throws {A}.
Arguments Returns {A} v.

Definition bindO {A B} (o : Outcome A) (k : A -> Outcome B) : Outcome B :=
  match o with
  | Throws => Throws
  | Returns v => k v
  end.

(** [e!]: the value of a nullable reference that is then dereferenced. *)
Definition deref {A} (o : option A) : Outcome A :=
  match o with
  | Some v => Returns v
  | None => Throws
  end.

(** [Vec2 | IBaseInputState]: screen coordinates, and for an input state the
    direction stored with it. *)
Record Pixel : Type := mkPixel {
  px_x : R;
  px_y : R;
  direction : option Vec3.t
}.

Record Renderer : Type := mkRenderer { activeCamera : option Camera.t }.

Record PickState : Type := mkPick { renderer : option Renderer }.

(** [a || b] on [number | undefined]: [undefined] and [0] are falsy. *)
Definition truthy (o : option R) : bool :=
  match o with
  | Some d => if Req_dec_T d 0 then false else true
  | None => false
  end.

(** [a || b] *)
Definition js_or (a b : option R) : option R := if truthy a then a else b.

Section Picking.

(** Collaborators that are not among the sources. *)
Variable hitRay : Vec3.t -> Vec3.t -> option Vec3.t.       (* ellipsoid.hitRay *)
Variable unproject : Camera.t -> R -> R -> Vec3.t.          (* camera.unproject *)
Variable rendererDistance : Renderer -> Pixel -> option R.  (* renderer.getDistanceFromPixel *)
Variable LonLat : Type.
Variable cartesianToLonLat : Vec3.t -> LonLat.              (* ellipsoid.cartesianToLonLat *)

(** [getCartesianFromPixelEllipsoid(px)] *)
Definition getCartesianFromPixelEllipsoid (this : PickState) (px : Pixel)
  : Outcome (option Vec3.t) :=
  bindO (deref (renderer this)) (fun r =>
  bindO (deref (activeCamera r)) (fun cam =>
  Returns (hitRay (Camera.eye cam) (unproject cam (px_x px) (px_y px))))).

(** [getDistanceFromPixelEllipsoid(px)] *)
Definition getDistanceFromPixelEllipsoid (this : PickState) (px : Pixel)
  : Outcome (option R) :=
  bindO (getCartesianFromPixelEllipsoid this px) (fun coords =>
  match coords with
  | Some c =>
      bindO (deref (renderer this)) (fun r =>
      bindO (deref (activeCamera r)) (fun cam =>
      Returns (Some (Vec3.distance c (Camera.eye cam)))))
  | None => Returns None
  end).

(** [getDistanceFromPixel(px)]: the second operand of [||] is evaluated only
    when the first is falsy. *)
Definition getDistanceFromPixel (this : PickState) (px : Pixel) : Outcome R :=
  bindO (deref (renderer this)) (fun r =>
  let d1 := rendererDistance r px in
  if truthy d1 then Returns (default 0 d1)
  else
    bindO (getDistanceFromPixelEllipsoid this px) (fun d2 =>
    Returns (default 0 (js_or d2 (Some 0))))).

(** [getCartesianFromPixelTerrain(px)] *)
Definition getCartesianFromPixelTerrain (this : PickState) (px : Pixel)
  : Outcome (option Vec3.t) :=
  bindO (getDistanceFromPixel this px) (fun distance =>
  if Req_dec_T distance 0 then Returns None
  else
    bindO (match direction px with
           | Some d => Returns d
           | None =>
               bindO (deref (renderer this)) (fun r =>
               bindO (deref (activeCamera r)) (fun cam =>
               Returns (unproject cam (px_x px) (px_y px))))
           end) (fun dir =>
    bindO (deref (renderer this)) (fun r =>
    bindO (deref (activeCamera r)) (fun cam =>
    Returns (Some (Vec3.addA (Vec3.scaleTo dir distance) (Camera.eye cam))))))).

(** [getLonLatFromPixelTerrain(px)] *)
Definition getLonLatFromPixelTerrain (this : PickState) (px : Pixel)
  : Outcome (option LonLat) :=
  bindO (getCartesianFromPixelTerrain this px) (fun coords =>
  match coords with
  | Some c => Returns (Some (cartesianToLonLat c))
  | None => Returns None
  end).

(** The direction of the view ray through a pixel: the one stored with an
    input state, else the camera's unprojection. *)
Definition rayDirection (cam : Camera.t) (px : Pixel) : Vec3.t :=
  match direction px with
  | Some d => d
  | None => unproject cam (px_x px) (px_y px)
  end.

End Picking.

End Planet.

(** ** The transition-opacity state machine *)

Module Fading.

Local Open Scope Q_scope.

(** Modelled from the spec: [Node._collectFadingNodes] and
    [Node._refreshTransitionOpacity], which [Planet._collectRenderNodes]
    calls for every rendered node, are not among the sources.  The spec gives
    each segment the states OPAQUE_IN (opacity rising from 0 to 1), STEADY
    (opacity 1), FADING_OUT (opacity falling from 1 to 0) and GONE (removed);
    GONE is absence from the map. *)
Inductive Phase : Type := OPAQUE_IN | STEADY | FADING_OUT.

#[global] Instance Phase_eq_dec : EqDecision Phase.
Proof. solve_decision. Defined.

(** Modelled from the spec: the state of a segment and its
    [_transitionOpacity]. *)
Record Segment : Type := mkSegment {
  phase : Phase;
  _transitionOpacity : Q
}.








(** *** The fields of Planet that take part in the fading *)

(** [transitionTime], [_transitionOpacityEnabled] and [_fadingNodes] are
    fields of Planet; [segments] stands for the segments of the nodes of the
    quad tree, by node id ([__id]).  Planet.ts assigns [transitionTime] in
    the constructor and does not read it. *)
Record t : Type := mk {
  transitionTime : Q;
  _transitionOpacityEnabled : bool;
  _fadingNodes : gmap Z Segment;
  segments : gmap Z Segment
}.

(** The constructor: [transitionTime = 580], [_fadingNodes = new Map],
    [_transitionOpacityEnabled] is the option when it is given and [true]
    otherwise. *)
Definition constructor (transitionOpacityEnabled : option bool) : t :=
  mk 580
     (match transitionOpacityEnabled with
      | Some isEnabled => isEnabled
      | None => true
      end)
     ∅ ∅.


(** [get transitionOpacityEnabled()] *)
Definition transitionOpacityEnabled (this : t) : bool := _transitionOpacityEnabled this.


(** What happens in one frame: the application may set
    [transitionOpacityEnabled] before the frame, and the traversal yields
    the list of rendered nodes. *)
Record FrameInput : Type := mkFrame {
  setEnabled : option bool;
  renderedNodes : list Z
}.





End Fading.

(** ** terrain/EmptyTerrain.ts *)

Module EmptyTerrain.

Local Open Scope Z_scope.

(** The numeric options of the constructor; an absent option is [None]. *)
Record IEmptyTerrainParams : Type := mkParams {
  opt_minZoom : option Z;
  opt_maxZoom : option Z;
  opt_maxNativeZoom : option Z;
  opt_gridSizeByZoom : option (list Z)
}.

(** [o || d] on an optional number: [undefined] and zero are falsy. *)
Definition orNumber (o : option Z) (d : Z) : Z :=
  match o with
  | Some v => if v =? 0 then d else v
  | None => d
  end.

Definition defaultGridSizeByZoom : list Z :=
  [64; 32; 16; 8; 4; 4; 4; 4; 2; 2; 2; 2; 2; 2; 2; 2; 2; 2; 2; 2; 2; 2; 2; 2; 2].

Record t : Type := mk {
  minZoom : Z;
  maxZoom : Z;
  maxNativeZoom : Z;
  gridSizeByZoom : list Z;
  _maxNodeZoom : Z;
  plainGridSize : Z
}.

(** The constructor; an array given for [gridSizeByZoom] is truthy even
    when it is empty. *)
Definition constructor (options : IEmptyTerrainParams) : t :=
  let minZoom := orNumber (opt_minZoom options) 2 in
  let maxZoom := orNumber (opt_maxZoom options) 19 in
  let maxNativeZoom := orNumber (opt_maxNativeZoom options) maxZoom in
  let gridSizeByZoom :=
    match opt_gridSizeByZoom options with
    | Some g => g
    | None => defaultGridSizeByZoom
    end in
  mk minZoom maxZoom maxNativeZoom gridSizeByZoom
     (Z.of_nat (length gridSizeByZoom) - 1) 2.

(** [set maxNodeZoom(val)] *)
Definition set_maxNodeZoom (this : t) (val : Z) : t :=
  let val :=
    if Z.of_nat (length (gridSizeByZoom this)) - 1 <? val
    then Z.of_nat (length (gridSizeByZoom this)) - 1
    else val in
  mk (minZoom this) (maxZoom this) (maxNativeZoom this) (gridSizeByZoom this)
     val (plainGridSize this).

(** [get maxNodeZoom()] *)
Definition maxNodeZoom (this : t) : Z := _maxNodeZoom this.

End EmptyTerrain.

(** ** EarthEntityCollectionNodeLonLat.ts: hemisphere and visibility *)

Module EntityRendering.

Import EntityNode.

Local Open Scope Q_scope.

(** [_setExtentBounds]: the new value of the flag [isNorth]; the bounding
    sphere it also sets is not part of this model. *)
Definition _setExtentBounds (isNorth : bool) (extent : Extent) : bool :=
  if RgbTerrain.Qlt_bool 0 (lat (northEast extent)) then true else isNorth.

(** A node of the class: the fields of the base class that the quad split
    reads, and the field [isNorth] that the class adds. *)
Record t : Type := mkT {
  node : Node;
  isNorth : bool
}.

(** The constructor: [super(strategy, partId, parent, extent, planet, zoom)],
    then [this.strategy = strategy] and [this.isNorth = false].  The base
    class EntityCollectionNode is not among the sources: [super] stands for
    its constructor and yields the object as that constructor leaves it,
    whether or not it has called [_setExtentBounds]. *)
Definition constructor (super : Node -> t) (partId : option Quadrant)
  (extent : Extent) (zoom : Z) : t :=
  let this := super (mkNode partId extent zoom) in
  mkT (node this) false.

(** [createChildNodes]: the child in quadrant [q], built by the constructor
    from the part id, the extent and the zoom that the split gives it. *)
Definition createChildNodes (super : Node -> t) (this : t) (q : Quadrant) : t :=
  let child := EntityNode.createChildNodes (node this) q in
  constructor super (partId child) (extent child) (zoom child).

(** A base constructor that calls [_setExtentBounds] on the node it builds,
    whose flag is not yet set. *)
Definition superWithBounds (n : Node) : t :=
  mkT n (_setExtentBounds false (extent n)).

(** The two dictionaries of the tree strategy that record the nodes being
    rendered, keyed by node id. *)
Record Strategy : Type := mkStrategy {
  _renderingNodesNorth : gmap Z bool;
  _renderingNodesSouth : gmap Z bool
}.

(** A dictionary read used as a condition: a missing key is [undefined]. *)
Definition flagged (d : gmap Z bool) (id : Z) : bool := default false (d !! id).

(** [isVisible] *)
Definition isVisible (strategy : Strategy) (isNorth : bool) (nodeId : Z) : bool :=
  if isNorth && flagged (_renderingNodesNorth strategy) nodeId then true
  else if flagged (_renderingNodesSouth strategy) nodeId then true
  else false.

(** [renderCollection]: its writes to the strategy's dictionaries.  What it
    does with the deferred entities and the output array is not part of
    this model. *)
Definition renderCollection (strategy : Strategy) (isNorth : bool) (nodeId : Z)
  : Strategy :=
  if isNorth
  then mkStrategy (<[nodeId := true]> (_renderingNodesNorth strategy))
                  (_renderingNodesSouth strategy)
  else mkStrategy (_renderingNodesNorth strategy)
                  (<[nodeId := true]> (_renderingNodesSouth strategy)).

End EntityRendering.

(** ** camera/Camera.ts: the end of a camera move *)

Module CameraMotion.

Section MoveEnd.

(** The class Vec3 is not part of this file: the vectors are of a type [V]
    with the comparison [equal] of Vec3; [copy] stores the compared value. *)
Context {V : Type}.
Variable equal : V -> V -> bool.

(** The orientation and position of the camera, and the values of the
    previous frame with the flag [isMoving]. *)
Record Pose : Type := mkPose { eye : V; _r : V; _u : V; _b : V }.

Record t : Type := mk {
  pose : Pose;
  _peye : V;
  _pr : V;
  _pu : V;
  _pb : V;
  isMoving : bool
}.

Inductive Event : Type := moveend.

(** [checkMoveEnd]: the new state and the events it dispatches. *)
Definition checkMoveEnd (this : t) : t * list Event :=
  let r := _r (pose this) in
  let u := _u (pose this) in
  let b := _b (pose this) in
  let eye := eye (pose this) in
  let '(isMoving', events) :=
    if equal (_peye this) eye && equal (_pr this) r && equal (_pu this) u
       && equal (_pb this) b
    then (false, if isMoving this then [moveend] else [])
    else (true, []) in
  (mk (pose this) eye r u b isMoving', events).

(** The camera is put at [p] by the application, whatever way. *)
Definition moveTo (this : t) (p : Pose) : t :=
  mk p (_peye this) (_pr this) (_pu this) (_pb this) (isMoving this).

(** One call of [checkMoveEnd] per frame, the camera being at the given
    pose in each frame; the result lists the events of every frame. *)
Fixpoint frames (this : t) (poses : list Pose) : list (list Event) :=
  match poses with
  | [] => []
  | p :: rest =>
      let '(this', events) := checkMoveEnd (moveTo this p) in
      events :: frames this' rest
  end.

End MoveEnd.

End CameraMotion.

(** ** renderer/RendererEvents.ts: mouse buttons *)

Module RendererEvents.

Local Open Scope Q_scope.

(** The button of a mouse event; the handlers ignore any other value. *)
Inductive Button : Type := MB_LEFT | MB_RIGHT | MB_MIDDLE.

#[export] Instance Button_eq_dec : EqDecision Button.
Proof. solve_decision. Defined.

Definition LB_M : Z := 1.
Definition RB_M : Z := 2.
Definition MB_M : Z := 4.

Definition mask (b : Button) : Z :=
  match b with
  | MB_LEFT => LB_M
  | MB_RIGHT => RB_M
  | MB_MIDDLE => MB_M
  end.

(** The fields the handlers keep per button: for the left button
    [leftButtonDown], [leftButtonHold], [leftButtonUp], [leftButtonClick]
    and [leftButtonDoubleClick] of the mouse state, and [_lClkBegins],
    [_ldblClkBegins], [_lclickX], [_lclickY] of the handler; likewise for
    the right and the middle button. *)
Record ButtonState : Type := mkButton {
  buttonDown : bool;
  buttonHold : bool;
  buttonUp : bool;
  buttonClick : bool;
  buttonDoubleClick : bool;
  _clkBegins : Q;
  _dblClkBegins : Q;
  _clickX : Q;
  _clickY : Q
}.

Record t : Type := mk {
  clickRadius : Q;
  clickDelay : Q;
  doubleClickDelay : Q;
  button : Button -> ButtonState
}.

(** The state the constructor leaves. *)
Definition constructor : t :=
  mk 15 200 500 (fun _ => mkButton false false false false false 0 0 0 0).

Definition setButton (this : t) (b : Button) (s : ButtonState) : t :=
  mk (clickRadius this) (clickDelay this) (doubleClickDelay this)
     (fun b' => if decide (b' = b) then s else button this b').

(** A number used as a condition. *)
Definition truthy (v : Q) : bool := negb (Qeq_bool v 0).

(** [updateButtonsStates(buttons)] *)
Definition updateButtonsStates (this : t) (buttons : Z) : t :=
  mk (clickRadius this) (clickDelay this) (doubleClickDelay this)
     (fun b =>
        let s := button this b in
        if negb (Z.land buttons (mask b) =? 0)%Z && buttonDown s
        then mkButton true (buttonHold s) (buttonUp s) (buttonClick s)
               (buttonDoubleClick s) (_clkBegins s) (_dblClkBegins s)
               (_clickX s) (_clickY s)
        else mkButton false false (buttonUp s) (buttonClick s)
               (buttonDoubleClick s) (_clkBegins s) (_dblClkBegins s)
               (_clickX s) (_clickY s)).

(** [onMouseMove]: the button states and the click timers; the pointer
    position it also stores is not part of this model. *)
Definition onMouseMove (this : t) (buttons : Z) (ex ey : Q) : t :=
  let this1 := updateButtonsStates this buttons in
  let r := clickRadius this1 in
  mk (clickRadius this1) (clickDelay this1) (doubleClickDelay this1)
     (fun b =>
        let s := button this1 b in
        if Qle_bool r (Qabs (_clickX s - ex)) && Qle_bool r (Qabs (_clickY s - ey))
        then mkButton (buttonDown s) (buttonHold s) (buttonUp s) (buttonClick s)
               (buttonDoubleClick s) 0 0 (_clickX s) (_clickY s)
        else s).

(** [onMouseDown]; [now] is the reading of [window.performance.now()]. *)
Definition onMouseDown (this : t) (b : option Button) (clientX clientY now : Q) : t :=
  match b with
  | Some b =>
      let s := button this b in
      setButton this b
        (mkButton true (buttonHold s) (buttonUp s) (buttonClick s)
           (buttonDoubleClick s) now (_dblClkBegins s) clientX clientY)
  | None => this
  end.

(** [onMouseUp]; [t0] is the first reading of the clock (the source's [t])
    and [now] the second one, taken inside the click branch. *)
Definition onMouseUp (this : t) (b : option Button) (clientX clientY t0 now : Q) : t :=
  match b with
  | Some b =>
      let s := button this b in
      if RgbTerrain.Qlt_bool (Qabs (_clickX s - clientX)) (clickRadius this)
         && RgbTerrain.Qlt_bool (Qabs (_clickY s - clientY)) (clickRadius this)
         && Qle_bool (t0 - _clkBegins s) (clickDelay this)
      then
        let '(doubleClick, dblClkBegins) :=
          if truthy (_dblClkBegins s)
          then ((if Qle_bool (now - _dblClkBegins s) (doubleClickDelay this)
                 then true else buttonDoubleClick s), 0)
          else (buttonDoubleClick s, now) in
        setButton this b
          (mkButton false (buttonHold s) true true doubleClick 0 dblClkBegins
             (_clickX s) (_clickY s))
      else
        setButton this b
          (mkButton false (buttonHold s) true (buttonClick s) (buttonDoubleClick s)
             (_clkBegins s) (_dblClkBegins s) (_clickX s) (_clickY s))
  | None => this
  end.

(** The events of the renderer that concern the buttons. *)
Inductive Event : Type :=
| click (b : Button)
| down (b : Button)
| hold (b : Button)
| up (b : Button)
| dblclick (b : Button).

Definition buttonOf (e : Event) : Button :=
  match e with
  | click b | down b | hold b | up b | dblclick b => b
  end.

Definition allButtons : list Button := [MB_LEFT; MB_RIGHT; MB_MIDDLE].

(** [handleMouseEvents]: the events dispatched on the renderer for the
    buttons, in the order of the source (clicks, then down or hold, then up,
    then double clicks; for each, left, right, middle), and the flags it
    resets.  The wheel, move and stop events and the dispatch on the picked
    object are not part of this model. *)
Definition handleMouseEvents (this : t) : t * list Event :=
  let when (c : bool) (e : Event) : list Event := if c then [e] else [] in
  let events :=
    flat_map (fun b => when (buttonClick (button this b)) (click b)) allButtons
    ++ flat_map (fun b =>
                   if buttonDown (button this b)
                   then (if buttonHold (button this b) then [hold b] else [down b])
                   else []) allButtons
    ++ flat_map (fun b => when (buttonUp (button this b)) (up b)) allButtons
    ++ flat_map (fun b => when (buttonDoubleClick (button this b)) (dblclick b))
         allButtons in
  (mk (clickRadius this) (clickDelay this) (doubleClickDelay this)
      (fun b =>
         let s := button this b in
         let hold1 := if buttonDown s then true else buttonHold s in
         mkButton (buttonDown s)
           (if buttonUp s then false else hold1)
           false false false
           (_clkBegins s) (_dblClkBegins s) (_clickX s) (_clickY s)),
   events).

(** The events of one button among those of a frame. *)
Definition eventsOf (b : Button) (events : list Event) : list Event :=
  filter (fun e => buttonOf e = b) events.

(** Frames in which the pointer only moves: the [onMouseMove] calls of a
    frame, each with the [buttons] mask and the position of its event, then
    [handleMouseEvents].  The result lists the events of every frame. *)
Fixpoint dragFrames (this : t) (frames : list (list (Z * Q * Q))) : list (list Event) :=
  match frames with
  | [] => []
  | moves :: rest =>
      let moved := foldl (fun s '(buttons, ex, ey) => onMouseMove s buttons ex ey)
                     this moves in
      let '(this', events) := handleMouseEvents moved in
      events :: dragFrames this' rest
  end.

(** A press and a release of button [b] at one place and one instant
    [now], between two frames, and the frame that follows. *)
Definition clickAt (this : t) (b : Button) (x y now : Q) : t * list Event :=
  handleMouseEvents
    (onMouseUp (onMouseDown this (Some b) x y now) (Some b) x y now now).

(** One such click per instant of [times], in turn. *)
Fixpoint clicks (this : t) (b : Button) (x y : Q) (times : list Q) : list (list Event) :=
  match times with
  | [] => []
  | now :: rest =>
      let '(this', events) := clickAt this b x y now in
      events :: clicks this' b x y rest
  end.

(** No flag of button [b] is set and no click of it is under way. *)
Definition idle (this : t) (b : Button) : Prop :=
  buttonDown (button this b) = false /\ buttonHold (button this b) = false /\
  buttonUp (button this b) = false /\ buttonClick (button this b) = false /\
  buttonDoubleClick (button this b) = false.

(** *** Touches *)

(** The fields of the touch state and of the handler that the touch
    handlers read or write for the touch flags and the double touch. *)
Record TouchState : Type := mkTouch {
  touchStart : bool;
  touchEnd : bool;
  touchCancel : bool;
  doubleTouch : bool;
  touchMoving : bool;
  touchX : Q;
  touchY : Q;
  prev_x : Q;
  prev_y : Q;
  doubleTouchDelay : Q;
  _dblTchBegins : Q;
  _oneTouchStart : bool
}.

(** The touch state the constructor leaves. *)
Definition touchConstructor : TouchState :=
  mkTouch false false false false false 0 0 0 0 550 0 false.

(** [onTouchStart]; [touches] is [event.touches.length] and [(x, y)] the
    position of the first touch in canvas pixels. *)
Definition onTouchStart (ts : TouchState) (touches : nat) (x y : Q) : TouchState :=
  mkTouch true (touchEnd ts) (touchCancel ts) (doubleTouch ts) (touchMoving ts)
    x y x y (doubleTouchDelay ts) (_dblTchBegins ts) (Nat.eqb touches 1).

(** [onTouchEnd]; [t0] and [now] are the two readings of the clock. *)
Definition onTouchEnd (ts : TouchState) (touches : nat) (t0 now : Q) : TouchState :=
  if Nat.eqb touches 0 then
    if _oneTouchStart ts then
      let doubleTouch' :=
        if truthy (_dblTchBegins ts)
        then (if Qle_bool (t0 - _dblTchBegins ts) (doubleTouchDelay ts)
              then true else doubleTouch ts)
        else doubleTouch ts in
      mkTouch (touchStart ts) true (touchCancel ts) doubleTouch' (touchMoving ts)
        (touchX ts) (touchY ts) (touchX ts) (touchY ts)
        (doubleTouchDelay ts) now false
    else
      mkTouch (touchStart ts) true (touchCancel ts) (doubleTouch ts) (touchMoving ts)
        (touchX ts) (touchY ts) (touchX ts) (touchY ts)
        (doubleTouchDelay ts) (_dblTchBegins ts) (_oneTouchStart ts)
  else
    mkTouch (touchStart ts) true (touchCancel ts) (doubleTouch ts) (touchMoving ts)
      (touchX ts) (touchY ts) (prev_x ts) (prev_y ts)
      (doubleTouchDelay ts) (_dblTchBegins ts) (_oneTouchStart ts).

(** [onTouchMove], with the new position of the first touch. *)
Definition onTouchMove (ts : TouchState) (x y : Q) : TouchState :=
  let dX := x - prev_x ts in
  let dY := y - prev_y ts in
  if RgbTerrain.Qlt_bool 9 (Qabs dX) || RgbTerrain.Qlt_bool 9 (Qabs dY)
  then mkTouch (touchStart ts) (touchEnd ts) (touchCancel ts) (doubleTouch ts) true
         x y (prev_x ts) (prev_y ts) (doubleTouchDelay ts) 0 false
  else mkTouch (touchStart ts) (touchEnd ts) (touchCancel ts) (doubleTouch ts) true
         x y (prev_x ts) (prev_y ts) (doubleTouchDelay ts) (_dblTchBegins ts)
         (_oneTouchStart ts).

Inductive TouchEvent : Type :=
  touchcancel | touchstart | doubletouch | touchend | touchmove.

(** [handleTouchEvents]: the events dispatched on the renderer, in the
    order of the source, and the fields it resets.  The picking of the
    touched object and the dispatch on it are not part of this model. *)
Definition handleTouchEvents (ts : TouchState) : TouchState * list TouchEvent :=
  let events :=
    (if touchCancel ts then [touchcancel] else [])
    ++ (if touchStart ts then [touchstart] else [])
    ++ (if doubleTouch ts then [doubletouch] else [])
    ++ (if touchEnd ts then [touchend] else [])
    ++ (if touchMoving ts then [touchmove] else []) in
  let x := if touchEnd ts then 0 else touchX ts in
  let y := if touchEnd ts then 0 else touchY ts in
  (mkTouch false false false false (touchMoving ts) x y
     (if touchMoving ts then x else prev_x ts)
     (if touchMoving ts then y else prev_y ts)
     (doubleTouchDelay ts) (_dblTchBegins ts) (_oneTouchStart ts),
   events).

(** A tap: one finger down at [(x, y)] and up again at the instant [now],
    between two frames, and the frame that follows. *)
Definition tapAt (ts : TouchState) (x y now : Q) : TouchState * list TouchEvent :=
  handleTouchEvents (onTouchEnd (onTouchStart ts 1 x y) 0 now now).

(** One such tap per instant of [times], in turn. *)
Fixpoint taps (ts : TouchState) (x y : Q) (times : list Q) : list (list TouchEvent) :=
  match times with
  | [] => []
  | now :: rest =>
      let '(ts', events) := tapAt ts x y now in
      events :: taps ts' x y rest
  end.

End RendererEvents.

(** ** scene/Planet.ts: layers, completion events, view extent *)

Module PlanetLayers.

Local Open Scope Q_scope.

Definition SLICE_SIZE : Z := 4.

(** [a || b] on numbers: [0] is falsy.  NaN is outside the model. *)
Definition js_or (a b : Q) : Q := if Qeq_bool a 0 then b else a.

(** [Array.prototype.sort(compareFn)]: [a] goes before [b] when
    [compareFn(a, b)] is negative, and the sort is stable, so elements that
    compare as 0 keep their order.  For a comparison that is consistent the
    result does not depend on the algorithm; it is computed here by
    insertion, the elements taken from the last to the first. *)
Fixpoint sortInsert {A : Type} (compareFn : A -> A -> Q) (x : A) (l : list A) : list A :=
  match l with
  | [] => [x]
  | y :: rest =>
      if Qle_bool (compareFn x y) 0 then x :: y :: rest
      else y :: sortInsert compareFn x rest
  end.

Definition jsSort {A : Type} (compareFn : A -> A -> Q) (l : list A) : list A :=
  foldr (sortInsert compareFn) [] l.

Section Layers.

(** Strings are lists of characters of a type [Char]; [divOpen] and
    [divClose] are the two literal pieces of the attribution template. *)
Context {Char : Type}.
Variables divOpen divClose : list Char.

(** What the planet asks of a layer. *)
Record Layer : Type := mkLayer {
  getVisibility : bool;
  isBaseLayer : bool;
  hasImageryTiles : bool;
  isVector : bool;
  getAttribution : list Char;
  _fading : bool;
  _fadingOpacity : Q;
  getHeight : Q;
  getZIndex : Q;
  depthOrder : Z
}.

(** [_getLayerAttributionHTML] *)
Definition _getLayerAttributionHTML (layer : Layer) : list Char :=
  divOpen ++ getAttribution layer ++ divClose.

(** A string length used as a condition. *)
Definition nonEmpty (s : list Char) : bool :=
  match s with
  | [] => false
  | _ :: _ => true
  end.

(** [updateAttributionsList]: the html it hands to [_applyAttribution]. *)
Definition updateAttributionsList (_layers : list Layer) : list Char :=
  foldl (fun html li =>
           if getVisibility li
           then (if nonEmpty (getAttribution li)
                 then html ++ _getLayerAttributionHTML li
                 else html)
           else html)
        [] _layers.

(** The fields [_updateVisibleLayers] and [_sortLayers] set, and the html
    handed to [_applyAttribution]. *)
Record Visible : Type := mkVisible {
  visibleTileLayers : list Layer;
  visibleVectorLayers : list Layer;
  baseLayer : option Layer;
  html : list Char;
  _visibleVectorLayersByDepthOrder : list (list Layer);
  _visibleTileLayerSlices : list (list Layer)
}.

(** The loop of [_updateVisibleLayers] over [_layers], which fills the two
    lists, picks the base layer and builds the html; the default textures
    it creates for a base layer are not part of this model. *)
Definition collectVisibleLayers (this : Visible) (_layers : list Layer) : Visible :=
  foldl (fun v li =>
           if getVisibility li
           then
             let base := if isBaseLayer li then Some li else baseLayer v in
             let tiles := if hasImageryTiles li
                          then visibleTileLayers v ++ [li] else visibleTileLayers v in
             let vectors := if isVector li
                            then visibleVectorLayers v ++ [li]
                            else visibleVectorLayers v in
             let html := if nonEmpty (getAttribution li)
                         then html v ++ _getLayerAttributionHTML li else html v in
             mkVisible tiles vectors base html
               (_visibleVectorLayersByDepthOrder v) (_visibleTileLayerSlices v)
           else if _fading li && RgbTerrain.Qlt_bool 0 (_fadingOpacity li)
           then
             let tiles := if hasImageryTiles li
                          then visibleTileLayers v ++ [li] else visibleTileLayers v in
             let vectors := if isVector li
                            then visibleVectorLayers v ++ [li]
                            else visibleVectorLayers v in
             mkVisible tiles vectors (baseLayer v) (html v)
               (_visibleVectorLayersByDepthOrder v) (_visibleTileLayerSlices v)
           else v)
        (mkVisible [] [] (baseLayer this) []
           (_visibleVectorLayersByDepthOrder this) (_visibleTileLayerSlices this))
        _layers.

(** A layer takes part in rendering: it is visible, or it is still fading
    out. *)
Definition shown (li : Layer) : bool :=
  getVisibility li || (_fading li && RgbTerrain.Qlt_bool 0 (_fadingOpacity li)).

(** The state of the slicing loop of [_sortLayers]: the slices, the index
    [k] of the current one and [currHeight]. *)
Definition sliceStep (st : list (list Layer) * Z * Q) (i : Z) (li : Layer)
  : list (list Layer) * Z * Q :=
  let '(slices, k, currHeight) := st in
  let '(slices, k, currHeight) :=
    if (Z.rem i SLICE_SIZE =? 0)%Z || negb (Qeq_bool (getHeight li) currHeight)
    then (slices ++ [[]], (k + 1)%Z, getHeight li)
    else (slices, k, currHeight) in
  (alter (fun s => s ++ [li]) (Z.to_nat k) slices, k, currHeight).

Fixpoint sliceLoop (i : Z) (layers : list Layer) (st : list (list Layer) * Z * Q)
  : list (list Layer) * Z * Q :=
  match layers with
  | [] => st
  | li :: rest => sliceLoop (i + 1)%Z rest (sliceStep st i li)
  end.

(** [_sortLayers]: the slices [_visibleTileLayerSlices] it builds from the
    sorted [visibleTileLayers].  The assignment
    [_visibleTileLayerSlices[k] = []] is made with [k] one past the last
    index, where it appends. *)
Definition tileLayerSlices (visibleTileLayers : list Layer) : list (list Layer) :=
  match visibleTileLayers with
  | [] => []
  | first :: _ => (sliceLoop 0 visibleTileLayers ([], (-1)%Z, getHeight first)).1.1
  end.

(** The comparison that orders the vector layers: by z-index, then by
    height. *)
Definition compareVectorLayers (a b : Layer) : Q :=
  js_or (getZIndex a - getZIndex b) (getHeight a - getHeight b).

(** The comparison that orders the tile layers: by height, then by
    z-index. *)
Definition compareTileLayers (a b : Layer) : Q :=
  js_or (getHeight a - getHeight b) (getZIndex a - getZIndex b).

(** The layers of height [h] and z-index [z], between which neither
    comparison decides. *)
Definition sameRank (h z : Q) (li : Layer) : bool :=
  Qeq_bool (getHeight li) h && Qeq_bool (getZIndex li) z.

(** The object [grouped] of [_sortLayers]: the vector layers by
    [depthOrder], each group in the order of the list; the key 0 is there
    from the start.  Depth orders are integers. *)
Definition groupByDepthOrder (vectors : list Layer) : gmap Z (list Layer) :=
  foldl (fun grouped vi =>
           <[depthOrder vi := default [] (grouped !! depthOrder vi) ++ [vi]]> grouped)
        {[ 0%Z := [] ]} vectors.

(** [_sortLayers]: both lists are sorted in place, the vector layers are
    grouped by depth order, the groups taken in the numeric order of their
    keys, and the tile layers are cut into slices. *)
Definition _sortLayers (this : Visible) : Visible :=
  let vectors := jsSort compareVectorLayers (visibleVectorLayers this) in
  let grouped := groupByDepthOrder vectors in
  let keys := jsSort (fun a b => inject_Z a - inject_Z b) (map fst (map_to_list grouped)) in
  let byDepthOrder := map (fun key => default [] (grouped !! key)) keys in
  let tiles :=
    match visibleTileLayers this with
    | [] => []
    | _ :: _ => jsSort compareTileLayers (visibleTileLayers this)
    end in
  mkVisible tiles vectors (baseLayer this) (html this) byDepthOrder (tileLayerSlices tiles).

(** [_updateVisibleLayers]: the loop over the layers, then [_sortLayers]. *)
Definition _updateVisibleLayers (this : Visible) (_layers : list Layer) : Visible :=
  _sortLayers (collectVisibleLayers this _layers).

End Layers.

(** *** Completion events *)

Record Completion : Type := mkCompletion {
  _renderCompleted : bool;
  _renderCompletedActivated : bool;
  _terrainCompleted : bool;
  _terrainCompletedActivated : bool
}.

Inductive CompletionEvent : Type := rendercompleted | terraincompleted.

(** [_checkRendercompleted]: the new flags and the events dispatched. *)
Definition _checkRendercompleted (this : Completion) : Completion * list CompletionEvent :=
  let '(renderActivated, events1) :=
    if _renderCompleted this
    then (if negb (_renderCompletedActivated this)
          then (true, [rendercompleted])
          else (_renderCompletedActivated this, []))
    else (false, []) in
  let '(terrainActivated, events2) :=
    if _terrainCompleted this
    then (if negb (_terrainCompletedActivated this)
          then (true, [terraincompleted])
          else (_terrainCompletedActivated this, []))
    else (false, []) in
  (mkCompletion true renderActivated true terrainActivated, events1 ++ events2).

(** The two flags that [setLodSize], [setHeightFactor] and [setTerrain]
    reset. *)
Definition resetActivated (this : Completion) : Completion :=
  mkCompletion (_renderCompleted this) false (_terrainCompleted this) false.

(** [get terrainReady] *)
Definition terrainReady (this : Completion) : bool :=
  _terrainCompleted this && _terrainCompletedActivated this.

(** What happens in a frame before the post-draw check: one of the
    resetting setters may be called, and the traversal may find a segment
    that is not ready and clear [_renderCompleted] or [_terrainCompleted]. *)
Record FrameInput : Type := mkFrameInput {
  reset : bool;
  renderPending : bool;
  terrainPending : bool
}.

Definition duringFrame (this : Completion) (f : FrameInput) : Completion :=
  let this := if reset f then resetActivated this else this in
  mkCompletion (if renderPending f then false else _renderCompleted this)
               (_renderCompletedActivated this)
               (if terrainPending f then false else _terrainCompleted this)
               (_terrainCompletedActivated this).

Fixpoint completionFrames (this : Completion) (frames : list FrameInput)
  : list (list CompletionEvent) :=
  match frames with
  | [] => []
  | f :: rest =>
      let '(this', events) := _checkRendercompleted (duringFrame this f) in
      events :: completionFrames this' rest
  end.

(** *** The view extent *)

(** [getExtent], from the geodetic positions picked at the four corners of
    the viewport, in the order of the source, and the stored [_viewExtent];
    a planet without renderer picks nothing ([corners] is empty). *)
Definition getExtent (corners : list (option EntityNode.LonLat))
  (_viewExtent : EntityNode.Extent) : EntityNode.Extent :=
  match corners with
  | [Some e0; Some e1; Some e2; Some e3] =>
      let '(min_lon, min_lat, max_lon, max_lat) :=
        foldl (fun '(min_lon, min_lat, max_lon, max_lat) e =>
                 let max_lon := if RgbTerrain.Qlt_bool max_lon (EntityNode.lon e)
                                then EntityNode.lon e else max_lon in
                 let max_lat := if RgbTerrain.Qlt_bool max_lat (EntityNode.lat e)
                                then EntityNode.lat e else max_lat in
                 let min_lon := if RgbTerrain.Qlt_bool (EntityNode.lon e) min_lon
                                then EntityNode.lon e else min_lon in
                 let min_lat := if RgbTerrain.Qlt_bool (EntityNode.lat e) min_lat
                                then EntityNode.lat e else min_lat in
                 (min_lon, min_lat, max_lon, max_lat))
              (EntityNode.lon e0, EntityNode.lat e2, EntityNode.lon e1, EntityNode.lat e0)
              [e0; e1; e2; e3] in
      EntityNode.mkExtent (EntityNode.mkLonLat min_lon min_lat)
        (EntityNode.mkLonLat max_lon max_lat)
  | _ => _viewExtent
  end.

End PlanetLayers.

(** * Verification *)

(** ** RgbTerrain: decoding and tile arithmetic *)

Module RgbTerrainSpec.

Import RgbTerrain.

Local Open Scope Z_scope.

Lemma toInt32_small (z : Z) : - 2 ^ 31 <= z < 2 ^ 31 -> toInt32 z = z.
Proof.
  intros Hz. unfold toInt32.
  destruct (Z_lt_le_dec z 0) as [Hneg | Hpos].
  - replace (z mod 2 ^ 32) with (z + 2 ^ 32).
    + destruct (Z.ltb_spec (z + 2 ^ 32) (2 ^ 31)); lia.
    + apply Z.mod_unique with (q := -1); lia.
  - rewrite Z.mod_small by lia.
    destruct (Z.ltb_spec z (2 ^ 31)); lia.
Qed.

(** Below the sign bit [2 << n] is the power of two it is meant to be. *)
Lemma js_shl_2_pow (n : Z) : 0 <= n <= 29 -> js_shl 2 n = 2 ^ (n + 1).
Proof.
  intros Hn. unfold js_shl.
  rewrite (toInt32_small 2) by lia.
  change 31 with (Z.ones 5). rewrite Z.land_ones by lia.
  rewrite Z.mod_small by (change (2 ^ 5) with 32; lia).
  rewrite Z.shiftl_mul_pow2 by lia.
  rewrite Z.pow_add_r by lia. rewrite Z.pow_1_r, Z.mul_comm.
  apply toInt32_small.
  assert (0 < 2 ^ n) by (apply Z.pow_pos_nonneg; lia).
  assert (2 ^ n <= 2 ^ 29) by (apply Z.pow_le_mono_r; lia).
  change (2 ^ 29) with 536870912 in *. change (2 ^ 31) with 2147483648. lia.
Qed.

Lemma Qinv_pow2 (dz : Z) :
  0 <= dz -> (1 / inject_Z (2 ^ dz) == 2 ^ (- dz))%Q.
Proof.
  intros Hdz.
  rewrite Qpower_opp.
  rewrite <- (Zpower_Qpower 2 dz) by lia.
  unfold Qdiv. rewrite Qmult_1_l. reflexivity.
Qed.


(** C7: [rgb2Height] returns [minHeight + resolution * (r*256*256 + g*256 + b)]
    for every channel triple, except that a triple with [r = 255] returns
    [minHeight] itself, whatever [g] and [b] are. *)
Theorem rgb2Height_decodes (this : t) (r g b : Z) :
  rgb2Height this 255 g b = _minHeight this /\
  (r <> 255 ->
   rgb2Height this r g b
   = (_minHeight this + _resolution this * inject_Z (r * 256 * 256 + g * 256 + b))%Q).
Proof.
  split.
  - reflexivity.
  - intros Hr. unfold rgb2Height.
    destruct (Z.eqb_spec r 255) as [E | _]; [contradiction | reflexivity].
Qed.

(** The claim of C10 as first written fails at a zoom difference of 31: the
    32-bit shift [2 << 30] wraps to [-2^31], so the offsets are added instead
    of subtracted and the scale is negative. *)
Lemma getTileOffset_wraps_at_31 :
  getTileOffset 1 1 31 1 1 0 = (2147483649, 2147483649, (-1 # 2147483648)%Q) /\
  getTileOffset 1 1 31 1 1 0
  <> (1 - 2 ^ 31 * 1, 1 - 2 ^ 31 * 1, (1 / inject_Z (2 ^ 31))%Q).
Proof.
  split.
  - vm_compute. reflexivity.
  - vm_compute. intros H. discriminate H.
Qed.

(** C10 (amended): [getChildTileIndex x y z ox oy] is
    [(2x + ox, 2y + oy, z + 1)], [getTileOffset] of that child against its
    parent gives back [(ox, oy, 1/2)], and for an ancestor at zoom difference
    [dz] with [1 <= dz <= 30] [getTileOffset] returns
    [(childX - 2^dz * parentX, childY - 2^dz * parentY, 2^(-dz))]. *)
Theorem getTileOffset_inverts_child
  (x y z ox oy cx cy cz px py pz : Z) (Hdz : 1 <= cz - pz <= 30) :
  getChildTileIndex x y z ox oy = (2 * x + ox, 2 * y + oy, z + 1) /\
  getTileOffset (2 * x + ox) (2 * y + oy) (z + 1) x y z = (ox, oy, (1 # 2)%Q) /\
  getTileOffset cx cy cz px py pz
  = (cx - 2 ^ (cz - pz) * px, cy - 2 ^ (cz - pz) * py,
     (1 / inject_Z (2 ^ (cz - pz)))%Q) /\
  (1 / inject_Z (2 ^ (cz - pz)) == 2 ^ (- (cz - pz)))%Q.
Proof.
  repeat split.
  - unfold getChildTileIndex.
    rewrite (Z.mul_comm x 2), (Z.mul_comm y 2). reflexivity.
  - unfold getTileOffset.
    replace (z + 1 - z - 1) with 0 by lia.
    change (js_shl 2 0) with 2.
    change (1 / inject_Z 2)%Q with (1 # 2)%Q.
    replace (2 * x + ox - 2 * x) with ox by lia.
    replace (2 * y + oy - 2 * y) with oy by lia.
    reflexivity.
  - unfold getTileOffset.
    rewrite js_shl_2_pow by lia.
    replace (cz - pz - 1 + 1) with (cz - pz) by lia. reflexivity.
  - apply Qinv_pow2. lia.
Qed.

Lemma getTileOffset_inverts_child_witness :
  1 <= 12 - 8 <= 30 /\
  getTileOffset 3301 1422 12 206 88 8 = (5, 14, (1 / inject_Z (2 ^ (12 - 8)))%Q).
Proof.
  split; [lia |].
  exact (proj1 (proj2 (proj2
           (getTileOffset_inverts_child 0 0 0 0 0 3301 1422 12 206 88 8
              ltac:(lia))))).
Defined.

(** *** Binary search over a sorted list *)



Lemma Qlt_bool_iff (a b : Q) : Qlt_bool a b = true <-> (a < b)%Q.
Proof.
  unfold Qlt_bool. rewrite negb_true_iff.
  split.
  - intros H. apply Qnot_le_lt. intros Hle.
    apply Qle_bool_iff in Hle. congruence.
  - intros H. destruct (Qle_bool b a) eqn:E; [| reflexivity].
    apply Qle_bool_iff in E. exfalso. apply (Qlt_not_le _ _ H E).
Qed.

Lemma Qlt_bool_false (a b : Q) : Qlt_bool a b = false <-> (b <= a)%Q.
Proof.
  unfold Qlt_bool. rewrite negb_false_iff. apply Qle_bool_iff.
Qed.




(** *** Array writes in a loop *)

Lemma length_aset {A} (l : list A) (i : Z) (v : A) : length (aset l i v) = length l.
Proof.
  unfold aset. destruct (i <? 0); [reflexivity | apply length_insert].
Qed.

Lemma aset_lookup_eq {A} (l : list A) (i : Z) (v : A) :
  0 <= i < Z.of_nat (length l) -> aset l i v !! Z.to_nat i = Some v.
Proof.
  intros Hi. unfold aset.
  destruct (Z.ltb_spec i 0); [lia |].
  apply list_lookup_insert_eq. lia.
Qed.

Lemma aset_lookup_ne {A} (l : list A) (i j : Z) (v : A) :
  0 <= j -> i <> j -> aset l i v !! Z.to_nat j = l !! Z.to_nat j.
Proof.
  intros Hj Hne. unfold aset.
  destruct (Z.ltb_spec i 0); [reflexivity |].
  apply list_lookup_insert_ne. lia.
Qed.

Section Loops.

Context {A : Type} (f : Z -> Z) (g : Z -> A).

Let body : list A -> Z -> list A := fun out k => aset out (f k) (g k).

Lemma foldl_aset_length (ks : list Z) (out : list A) :
  length (foldl body out ks) = length out.
Proof.
  revert out. induction ks as [| k ks IH]; intros out; [reflexivity |].
  cbn [foldl]. rewrite IH. apply length_aset.
Qed.

(** A cell that no iteration writes keeps its value. *)
Lemma foldl_aset_other (ks : list Z) (out : list A) (idx : Z) :
  0 <= idx -> (forall k, k ∈ ks -> f k <> idx) ->
  foldl body out ks !! Z.to_nat idx = out !! Z.to_nat idx.
Proof.
  intros Hidx. revert out.
  induction ks as [| k ks IH]; intros out Hks; [reflexivity |].
  cbn [foldl]. rewrite IH.
  - apply aset_lookup_ne; [exact Hidx |]. apply Hks. left.
  - intros k' Hk'. apply Hks. right. exact Hk'.
Qed.

(** When the iterations write distinct cells, the cell of iteration [k0]
    holds what that iteration wrote. *)
Lemma foldl_aset_hit_nat (n : nat) (out : list A) (k0 : Z) :
  (forall k k', 0 <= k < Z.of_nat n -> 0 <= k' < Z.of_nat n -> f k = f k' -> k = k') ->
  0 <= k0 < Z.of_nat n -> 0 <= f k0 < Z.of_nat (length out) ->
  foldl body out (seqZ 0 (Z.of_nat n)) !! Z.to_nat (f k0) = Some (g k0).
Proof.
  induction n as [| n IH]; intros Hinj Hk0 Hf; [lia |].
  rewrite seqZ_S, foldl_app. cbn [foldl]. rewrite Z.add_0_l.
  destruct (Z.eq_dec k0 (Z.of_nat n)) as [-> | Hne].
  - unfold body at 1. apply aset_lookup_eq. rewrite foldl_aset_length. exact Hf.
  - unfold body at 1. rewrite aset_lookup_ne.
    + apply IH; [| lia | exact Hf].
      intros k k' Hk Hk'. apply Hinj; lia.
    + lia.
    + intros Heq. apply Hne. symmetry. apply Hinj; [lia | lia | exact Heq].
Qed.

Lemma foldl_aset_hit (n : Z) (out : list A) (k0 : Z) :
  (forall k k', 0 <= k < n -> 0 <= k' < n -> f k = f k' -> k = k') ->
  0 <= k0 < n -> 0 <= f k0 < Z.of_nat (length out) ->
  foldl body out (seqZ 0 n) !! Z.to_nat (f k0) = Some (g k0).
Proof.
  intros Hinj Hk0 Hf.
  rewrite <- (Z2Nat.id n) by lia.
  apply foldl_aset_hit_nat; rewrite ?Z2Nat.id by lia; assumption.
Qed.

End Loops.

(** A row and a column determine the position in the grid. *)
Lemma gridIndex_inj (s i j i' j' : Z) :
  0 <= j <= s -> 0 <= j' <= s ->
  gridIndex s i j = gridIndex s i' j' -> i = i' /\ j = j'.
Proof.
  unfold gridIndex. intros Hj Hj' Heq.
  assert (i = i') by nia. subst i'. split; [reflexivity | lia].
Qed.

Lemma pixel_row_col (s i j : Z) :
  0 < s -> 0 <= i -> 0 <= j < s ->
  (i * s + j) / s = i /\ Z.rem (i * s + j) s = j.
Proof.
  intros Hs Hi Hj.
  rewrite Z.rem_mod_nonneg by nia.
  split.
  - symmetry. apply (Z.div_unique (i * s + j) s i j); lia.
  - symmetry. apply (Z.mod_unique (i * s + j) s i j); lia.
Qed.

(** *** The grid written by [extractElevationSimple] *)

Section SimpleGridInto.

Context (store : Q -> Q)
        (this : t) (rgbaData : list Z) (noData : list Q) (parent : option (list Q))
        (offX offY : Z) (zoomDiff : Q) (skip : bool) (out : list Q) (hf : Q) (s : Z).
Context (Hs : 0 < s)
        (Hout : Z.of_nat (length out) = (s + 1) * (s + 1)).

Let px := fun fromInd4 i j =>
  store (pixelHeight this rgbaData noData parent offX offY zoomDiff skip hf fromInd4 i j).
Let result :=
  extractElevationSimpleInto store this rgbaData noData parent offX offY zoomDiff skip
    out hf s.

Lemma extractElevationSimpleInto_length : length result = length out.
Proof using Type.
  unfold result, extractElevationSimpleInto. cbv zeta. fold px.
  rewrite length_aset.
  rewrite (foldl_aset_length (fun j0 => s * (s + 1) + j0)
             (fun j0 => px (((s - 1) * s + j0) * 4) (s - 1) j0)).
  rewrite (foldl_aset_length (fun i0 => i0 * (s + 1) + s)
             (fun i0 => px ((i0 * s + (s - 1)) * 4) i0 (s - 1))).
  apply (foldl_aset_length (fun k => k / s * (s + 1) + Z.rem k s)
           (fun k => px (k * 4) (k / s) (Z.rem k s))).
Qed.

(** The sample of image pixel (row [i], column [j]) ends up at its grid
    position: the later loops only write the extra column and row. *)
Lemma extractElevationSimpleInto_cell (i j : Z) :
  0 <= i < s -> 0 <= j < s ->
  result !! Z.to_nat (gridIndex s i j) = Some (px ((i * s + j) * 4) i j).
Proof using Hs Hout.
  intros Hi Hj.
  unfold result, extractElevationSimpleInto. cbv zeta. fold px.
  assert (Hidx : 0 <= gridIndex s i j) by (unfold gridIndex; nia).
  rewrite aset_lookup_ne; [| exact Hidx |].
  2: { rewrite !foldl_aset_length, Hout.
       unfold gridIndex. intros Heq.
       assert (Hg : gridIndex s s s = gridIndex s i j) by (unfold gridIndex; lia).
       apply gridIndex_inj in Hg; lia. }
  rewrite (foldl_aset_other (fun j0 => s * (s + 1) + j0)
             (fun j0 => px (((s - 1) * s + j0) * 4) (s - 1) j0)); [| exact Hidx |].
  2: { intros k Hk Heq. apply elem_of_seqZ in Hk.
       assert (Hg : gridIndex s s k = gridIndex s i j) by (unfold gridIndex in *; lia).
       apply gridIndex_inj in Hg; lia. }
  rewrite (foldl_aset_other (fun i0 => i0 * (s + 1) + s)
             (fun i0 => px ((i0 * s + (s - 1)) * 4) i0 (s - 1))); [| exact Hidx |].
  2: { intros k Hk Heq. apply elem_of_seqZ in Hk.
       assert (Hg : gridIndex s k s = gridIndex s i j) by (unfold gridIndex in *; lia).
       apply gridIndex_inj in Hg; lia. }
  destruct (pixel_row_col s i j Hs ltac:(lia) Hj) as [Hrow Hcol].
  pose proof (foldl_aset_hit
                (fun k => gridIndex s (k / s) (Z.rem k s))
                (fun k => px (k * 4) (k / s) (Z.rem k s))
                (s * s) out (i * s + j)) as Hhit.
  cbv beta in Hhit. rewrite Hrow, Hcol in Hhit.
  apply Hhit.
  - intros k k' Hk Hk' Heq.
    rewrite !Z.rem_mod_nonneg in Heq by lia.
    pose proof (Z.mod_pos_bound k s Hs). pose proof (Z.mod_pos_bound k' s Hs).
    apply gridIndex_inj in Heq; [| lia | lia].
    destruct Heq as [Hq Hr].
    rewrite (Z.div_mod k s), (Z.div_mod k' s) by lia. rewrite Hq, Hr. reflexivity.
  - nia.
  - unfold gridIndex. nia.
Qed.

Lemma extractElevationSimpleInto_right_column (i : Z) :
  0 <= i < s ->
  result !! Z.to_nat (gridIndex s i s) = Some (px ((i * s + (s - 1)) * 4) i (s - 1)).
Proof using Hs Hout.
  intros Hi. unfold result, extractElevationSimpleInto. cbv zeta. fold px.
  assert (Hidx : 0 <= gridIndex s i s) by (unfold gridIndex; nia).
  rewrite aset_lookup_ne; [| exact Hidx |].
  2: { rewrite !foldl_aset_length, Hout. intros Heq.
       assert (Hg : gridIndex s s s = gridIndex s i s) by (unfold gridIndex in *; lia).
       apply gridIndex_inj in Hg; lia. }
  rewrite (foldl_aset_other (fun j0 => s * (s + 1) + j0)
             (fun j0 => px (((s - 1) * s + j0) * 4) (s - 1) j0)); [| exact Hidx |].
  2: { intros k Hk Heq. apply elem_of_seqZ in Hk.
       assert (Hg : gridIndex s s k = gridIndex s i s) by (unfold gridIndex in *; lia).
       apply gridIndex_inj in Hg; lia. }
  apply (foldl_aset_hit (fun i0 => i0 * (s + 1) + s)
           (fun i0 => px ((i0 * s + (s - 1)) * 4) i0 (s - 1)) s _ i).
  - intros k k' _ _ Heq. nia.
  - exact Hi.
  - rewrite (foldl_aset_length (fun k => k / s * (s + 1) + Z.rem k s)
               (fun k => px (k * 4) (k / s) (Z.rem k s))).
    rewrite Hout. nia.
Qed.

Lemma extractElevationSimpleInto_bottom_row (j : Z) :
  0 <= j < s ->
  result !! Z.to_nat (gridIndex s s j) = Some (px (((s - 1) * s + j) * 4) (s - 1) j).
Proof using Hs Hout.
  intros Hj. unfold result, extractElevationSimpleInto. cbv zeta. fold px.
  assert (Hidx : 0 <= gridIndex s s j) by (unfold gridIndex; nia).
  rewrite aset_lookup_ne; [| exact Hidx |].
  2: { rewrite !foldl_aset_length, Hout. intros Heq.
       assert (Hg : gridIndex s s s = gridIndex s s j) by (unfold gridIndex in *; lia).
       apply gridIndex_inj in Hg; lia. }
  apply (foldl_aset_hit (fun j0 => s * (s + 1) + j0)
           (fun j0 => px (((s - 1) * s + j0) * 4) (s - 1) j0) s _ j).
  - intros k k' _ _ Heq. lia.
  - exact Hj.
  - rewrite (foldl_aset_length (fun i0 => i0 * (s + 1) + s)
               (fun i0 => px ((i0 * s + (s - 1)) * 4) i0 (s - 1))).
    rewrite (foldl_aset_length (fun k => k / s * (s + 1) + Z.rem k s)
               (fun k => px (k * 4) (k / s) (Z.rem k s))).
    rewrite Hout. nia.
Qed.

Lemma extractElevationSimpleInto_corner :
  Z.of_nat (length rgbaData) = 4 * s * s ->
  result !! Z.to_nat (gridIndex s s s)
  = Some (px (((s - 1) * s + (s - 1)) * 4) (s - 1) (s - 1)).
Proof using Hs Hout.
  intros Hrgba.
  unfold result, extractElevationSimpleInto. cbv zeta. fold px.
  rewrite !foldl_aset_length, Hout, Hrgba.
  replace ((s + 1) * (s + 1) - 1) with (gridIndex s s s) by (unfold gridIndex; lia).
  replace (4 * s * s - 4) with (((s - 1) * s + (s - 1)) * 4) by lia.
  apply aset_lookup_eq.
  rewrite !foldl_aset_length, Hout. unfold gridIndex. nia.
Qed.

Lemma extractElevationSimpleInto_clamped (a b : Z) :
  Z.of_nat (length rgbaData) = 4 * s * s ->
  0 <= a <= s -> 0 <= b <= s ->
  result !! Z.to_nat (gridIndex s a b)
  = Some (px ((Z.min a (s - 1) * s + Z.min b (s - 1)) * 4)
            (Z.min a (s - 1)) (Z.min b (s - 1))).
Proof using Hs Hout.
  intros Hrgba Ha Hb.
  destruct (Z.eq_dec a s) as [-> | Hna], (Z.eq_dec b s) as [-> | Hnb].
  - rewrite Z.min_r by lia. apply extractElevationSimpleInto_corner. exact Hrgba.
  - rewrite (Z.min_r s) by lia. rewrite (Z.min_l b) by lia.
    apply extractElevationSimpleInto_bottom_row. lia.
  - rewrite (Z.min_l a) by lia. rewrite (Z.min_r s) by lia.
    apply extractElevationSimpleInto_right_column. lia.
  - rewrite !Z.min_l by lia.
    apply extractElevationSimpleInto_cell; lia.
Qed.

End SimpleGridInto.

(** The value [getParentHeight] returns when the ancestor's grid has a sample
    at the position it computes. *)
Lemma getParentHeight_sample
  (oneByDz2 : Q) (offsetX offsetY : Z) (heights : list Q) (i j : Z) (skip : bool) (h : Q) :
  let P := Z.sqrt (Z.of_nat (length heights)) in
  let pi := Qfloor (inject_Z offsetY * oneByDz2 * inject_Z P + inject_Z i * oneByDz2)%Q in
  let pj := Qfloor (inject_Z offsetX * oneByDz2 * inject_Z P + inject_Z j * oneByDz2)%Q in
  0 <= pi * P + pj -> heights !! Z.to_nat (pi * P + pj) = Some h ->
  getParentHeight oneByDz2 offsetX offsetY heights i j skip
  = if skip then (if Qlt_bool 0 h then 0%Q else h) else h.
Proof.
  intros P pi pj Hpos Hh. unfold getParentHeight. cbv zeta.
  fold P. fold pi. fold pj.
  unfold aget. destruct (Z.ltb_spec (pi * P + pj) 0); [lia |].
  rewrite Hh. reflexivity.
Qed.

(** [fround] on numbers that binary32 holds, on numbers that it does not,
    and at a tie. *)
Lemma fround_examples :
  fround 0 = 0%Q /\ fround 100 = 100%Q /\ fround (-10000) = (-10000)%Q /\
  (fround (-9999.7) == -9999.7001953125)%Q /\
  fround 0.1 = (13421773 # 134217728)%Q /\
  fround 16777217 = 16777216%Q /\ fround 16777219 = 16777220%Q.
Proof. repeat split; vm_compute; reflexivity. Qed.

Lemma Qfloor_scaled (a b c D : Z) :
  0 < D ->
  Qfloor (inject_Z a * (1 / inject_Z D) * inject_Z c + inject_Z b * (1 / inject_Z D))%Q
  = (a * c + b) / D.
Proof.
  intros HD. destruct D as [| p | p]; try lia.
  assert (Heq : (inject_Z a * (1 / inject_Z (Z.pos p)) * inject_Z c
                 + inject_Z b * (1 / inject_Z (Z.pos p)) == (a * c + b) # p)%Q).
  { unfold Qeq, Qdiv, Qinv, Qmult, Qplus, inject_Z. cbn [Qnum Qden].
    rewrite !Pos2Z.inj_mul. ring. }
  rewrite (Qfloor_comp _ _ Heq). reflexivity.
Qed.









End RgbTerrainSpec.

(** ** EntityNode: the quad split *)

Module EntityNodeSpec.

Import EntityNode.

Local Open Scope Q_scope.

Ltac unfold_split :=
  unfold covers, interior, centre, innerCorner, createChildNodes, getWidth, getHeight in *;
  cbn [extent southWest northEast lon lat] in *.

(** Every point of the parent lies in one of the four children. *)
Lemma children_cover_parent (this : Node) (p : LonLat) :
  covers (extent this) p ->
  exists q, covers (extent (createChildNodes this q)) p.
Proof.
  intros Hp.
  destruct (Qlt_le_dec (lon p) (lon (centre (extent this)))) as [Hx | Hx];
    destruct (Qlt_le_dec (lat p) (lat (centre (extent this)))) as [Hy | Hy].
  - exists SW. unfold_split. lra.
  - exists NW. unfold_split. lra.
  - exists SE. unfold_split. lra.
  - exists NE. unfold_split. lra.
Qed.

(** No child reaches outside the parent. *)
Lemma child_within_parent (this : Node) (q : Quadrant) (p : LonLat) :
  covers (extent (createChildNodes this q)) p -> covers (extent this) p.
Proof.
  intros Hp. destruct q; unfold_split; lra.
Qed.

(** A point inside one child is not in any other child. *)
Lemma children_interiors_disjoint (this : Node) (q1 q2 : Quadrant) (p : LonLat) :
  q1 <> q2 ->
  interior (extent (createChildNodes this q1)) p ->
  ~ covers (extent (createChildNodes this q2)) p.
Proof.
  intros Hne H1 H2.
  destruct q1, q2; try contradiction; unfold_split; lra.
Qed.

(** Two children meet on the meridian or on the parallel through the
    midpoint. *)
Lemma children_meet_on_midlines (this : Node) (q1 q2 : Quadrant) (p : LonLat) :
  q1 <> q2 ->
  covers (extent (createChildNodes this q1)) p ->
  covers (extent (createChildNodes this q2)) p ->
  lon p == lon (centre (extent this)) \/ lat p == lat (centre (extent this)).
Proof.
  intros Hne H1 H2.
  destruct q1, q2; try contradiction; unfold_split;
    first [left; lra | right; lra].
Qed.

(** C1: the four child extents built by [createChildNodes] partition the
    parent's extent: each child spans half the parent's width and half its
    height and has the parent's midpoint as its inner corner, the union of
    the children is the parent's extent, and two children share boundary
    points only, on the lines through the midpoint. *)
Theorem createChildNodes_partition (this : Node) :
  let child q := extent (createChildNodes this q) in
  (forall q,
     getWidth (child q) == getWidth (extent this) * 0.5 /\
     getHeight (child q) == getHeight (extent this) * 0.5 /\
     innerCorner q (child q) = centre (extent this)) /\
  (forall p, covers (extent this) p <-> exists q, covers (child q) p) /\
  (forall q1 q2 p,
     q1 <> q2 -> covers (child q1) p -> covers (child q2) p ->
     ~ interior (child q1) p /\ ~ interior (child q2) p /\
     (lon p == lon (centre (extent this)) \/ lat p == lat (centre (extent this)))).
Proof.
  intros child. unfold child. split; [| split].
  - intros q. split; [| split].
    + destruct q; unfold_split; lra.
    + destruct q; unfold_split; lra.
    + destruct q; reflexivity.
  - intros p. split.
    + apply children_cover_parent.
    + intros [q Hq]. apply (child_within_parent this q p Hq).
  - intros q1 q2 p Hne H1 H2. split; [| split].
    + intros Hin. apply (children_interiors_disjoint this q1 q2 p); assumption.
    + intros Hin. apply (children_interiors_disjoint this q2 q1 p); auto.
    + apply (children_meet_on_midlines this q1 q2 p); assumption.
Qed.

End EntityNodeSpec.

(** ** Camera: the projected-size metric *)

Module CameraSpec.

Import Camera.

Local Open Scope R_scope.

Lemma clamp512_Rmax (w : R) : (if Rlt_dec w 512 then 512 else w) = Rmax w 512.
Proof.
  unfold Rmax. destruct (Rlt_dec w 512), (Rle_dec w 512); lra.
Qed.

Lemma _updateViewportParameters_ok (c : t) : projSizeConst_ok (_updateViewportParameters c).
Proof.
  unfold projSizeConst_ok, _updateViewportParameters. cbn [_projSizeConst _width _height _viewAngle].
  rewrite !clamp512_Rmax. reflexivity.
Qed.

Lemma _setProj_ok (c : t) (angle aspect : R) : projSizeConst_ok (_setProj c angle aspect).
Proof. apply _updateViewportParameters_ok. Qed.

Lemma refresh_ok (c : t) : projSizeConst_ok (refresh c).
Proof. apply _setProj_ok. Qed.

Lemma distance_nonneg (a b : Vec3.t) : 0 <= Vec3.distance a b.
Proof. unfold Vec3.distance. apply sqrt_pos. Qed.

Lemma atanOfRatio_regular (r d : R) : d <> 0 -> atanOfRatio r d = atan (r / d).
Proof.
  intros Hd. unfold atanOfRatio. destruct (Req_dec_T d 0); [contradiction | reflexivity].
Qed.

(** C2: [projectedSize(p, r)] is [atan(r / distance(eye, p))] times
    [projSizeConst] (with the arc tangent of the infinite quotient when [p]
    is the eye itself), and after every update of the viewport or of the
    view angle [projSizeConst] is [min(max(width, 512), max(height, 512))]
    divided by the view angle in degrees times pi/180. *)
Theorem projectedSize_after_update (c c' : t) (p : Vec3.t) (r : R)
  (Hupd : viewport_update c c') :
  projectedSize c p r = atanOfRatio r (Vec3.distance (eye c) p) * _projSizeConst c /\
  (Vec3.distance (eye c) p <> 0 ->
   projectedSize c p r = atan (r / Vec3.distance (eye c) p) * _projSizeConst c) /\
  _projSizeConst c'
  = Rmin (Rmax (_width c') 512) (Rmax (_height c') 512) / (_viewAngle c' * (PI / 180)) /\
  projectedSize c' p r
  = atanOfRatio r (Vec3.distance (eye c') p)
    * (Rmin (Rmax (_width c') 512) (Rmax (_height c') 512)
       / (_viewAngle c' * (PI / 180))).
Proof.
  assert (Hok : projSizeConst_ok c') by (destruct Hupd; apply refresh_ok).
  split; [reflexivity | split; [| split; [exact Hok |]]].
  - intros Hd. unfold projectedSize. rewrite atanOfRatio_regular by exact Hd. reflexivity.
  - unfold projectedSize. f_equal. exact Hok.
Qed.

Lemma projectedSize_after_update_witness :
  _projSizeConst (setViewportSize fresh1024x768 1920 400)
  = Rmin (Rmax 1920 512) (Rmax 400 512) / (47 * (PI / 180)).
Proof.
  exact (proj1 (proj2 (proj2
           (projectedSize_after_update fresh1024x768
              (setViewportSize fresh1024x768 1920 400) (Vec3.mk 0 0 10) 5
              (upd_setViewportSize fresh1024x768 1920 400))))).
Defined.

(** C3: for a camera with a positive [projSizeConst], [projectedSize] is
    strictly decreasing in the distance from the eye for a fixed radius
    [r > 0], and strictly increasing in the radius at a fixed positive
    distance. *)
Theorem projectedSize_monotone (c : t) (Hconst : 0 < _projSizeConst c) :
  (forall (p1 p2 : Vec3.t) (r : R),
     0 < r ->
     Vec3.distance (eye c) p1 < Vec3.distance (eye c) p2 ->
     projectedSize c p2 r < projectedSize c p1 r) /\
  (forall (p : Vec3.t) (r1 r2 : R),
     0 < Vec3.distance (eye c) p ->
     r1 < r2 ->
     projectedSize c p r1 < projectedSize c p r2).
Proof.
  split.
  - intros p1 p2 r Hr Hd12. unfold projectedSize.
    pose proof (distance_nonneg (eye c) p1) as Hd1.
    apply Rmult_lt_compat_r; [exact Hconst |].
    rewrite (atanOfRatio_regular r (Vec3.distance (eye c) p2)) by lra.
    unfold atanOfRatio.
    destruct (Req_dec_T (Vec3.distance (eye c) p1) 0) as [E | E].
    + destruct (Rlt_dec 0 r) as [_ | Hn]; [| contradiction].
      pose proof (atan_bound (r / Vec3.distance (eye c) p2)) as [_ Hb]. exact Hb.
    + apply atan_increasing. unfold Rdiv.
      apply Rmult_lt_compat_l; [exact Hr |].
      apply Rinv_lt_contravar; [| exact Hd12].
      apply Rmult_lt_0_compat; lra.
  - intros p r1 r2 Hd Hr. unfold projectedSize.
    apply Rmult_lt_compat_r; [exact Hconst |].
    rewrite !atanOfRatio_regular by lra.
    apply atan_increasing. unfold Rdiv.
    apply Rmult_lt_compat_r; [| exact Hr].
    apply Rinv_0_lt_compat. exact Hd.
Qed.

Lemma refreshed_const_positive : 0 < _projSizeConst (refresh fresh1024x768).
Proof.
  rewrite refresh_ok. cbn [refresh _setProj _updateViewportParameters fresh1024x768
                             _width _height _viewAngle].
  assert (HPI := PI_RGT_0).
  apply Rdiv_lt_0_compat; [| lra].
  unfold Rmin, Rmax.
  repeat match goal with |- context [Rle_dec ?a ?b] => destruct (Rle_dec a b) end; lra.
Qed.

Lemma projectedSize_monotone_witness :
  projectedSize (refresh fresh1024x768) (Vec3.mk 0 0 1) 2
  < projectedSize (refresh fresh1024x768) (Vec3.mk 0 0 1) 3.
Proof.
  apply (proj2 (projectedSize_monotone (refresh fresh1024x768) refreshed_const_positive)).
  - unfold Vec3.distance. cbn. apply sqrt_lt_R0. lra.
  - lra.
Defined.

End CameraSpec.

(** ** Planet: the equal-zoom pass *)

Module PlanetSpec.

Import Planet.

Local Open Scope R_scope.

Lemma Rlt_bool_iff (a b : R) : Rlt_bool a b = true <-> a < b.
Proof.
  unfold Rlt_bool. destruct (Rlt_dec a b); split; intros; try assumption; try reflexivity;
    try discriminate; contradiction.
Qed.

Lemma Rlt_bool_false (a b : R) : Rlt_bool a b = false <-> b <= a.
Proof.
  unfold Rlt_bool. destruct (Rlt_dec a b); split; intros; try reflexivity;
    try discriminate; lra.
Qed.

Lemma inBand_iff (band : EqualZoomBand) (cam : PlanetCamera) :
  inBand band cam = true <->
  minEqualZoomCameraSlope band < slope cam /\
  minEqualZoomAltitude band < _lonLat_height cam /\
  _lonLat_height cam < maxEqualZoomAltitude band.
Proof.
  unfold inBand. rewrite !andb_true_iff, !Rlt_bool_iff. tauto.
Qed.

Lemma keepsNode_iff (cam : PlanetCamera) (maxZoom : Z) (ri : Node) :
  keepsNode cam maxZoom ri = true <->
  tileZoom ri = maxZoom \/ horizonValue cam ri < HORIZON_TANGENT.
Proof.
  unfold keepsNode. rewrite orb_true_iff, Z.eqb_eq, Rlt_bool_iff. tauto.
Qed.

(** *** Frustum lists *)

Lemma pushInFrustum_Some (rf : list (list Node)) (k : nat) (ri : Node) :
  (k < length rf)%nat ->
  exists rf', pushInFrustum rf k ri = Some rf' /\ length rf' = length rf.
Proof.
  intros Hk. unfold pushInFrustum.
  destruct (lookup_lt_is_Some_2 rf k Hk) as [l Hl]. rewrite Hl.
  eexists. split; [reflexivity | apply length_insert].
Qed.

Lemma pushInFrustum_lookup (rf rf' : list (list Node)) (k i : nat) (ri : Node) (l : list Node) :
  pushInFrustum rf k ri = Some rf' -> rf !! i = Some l ->
  rf' !! i = Some (if (k =? i)%nat then l ++ [ri] else l).
Proof.
  unfold pushInFrustum. destruct (rf !! k) as [lk |] eqn:Ek; [| discriminate].
  intros [= <-] Hi.
  destruct (Nat.eqb_spec k i) as [-> | Hne].
  - rewrite list_lookup_insert_eq by (apply lookup_lt_Some in Hi; exact Hi).
    congruence.
  - rewrite list_lookup_insert_ne by exact Hne. exact Hi.
Qed.

Lemma distribute_pos_Some (p : positive) :
  forall (k : nat) (ri : Node) (rf : list (list Node)),
    (k + Pos.size_nat p <= length rf)%nat ->
    exists rf', distribute_pos p k ri rf = Some rf' /\ length rf' = length rf.
Proof.
  induction p as [p IH | p IH |]; intros k ri rf Hk; cbn [distribute_pos Pos.size_nat] in *.
  - destruct (pushInFrustum_Some rf k ri) as (rf1 & E1 & L1); [lia |].
    rewrite E1.
    destruct (IH (S k) ri rf1) as (rf2 & E2 & L2); [lia |].
    exists rf2. split; [exact E2 | lia].
  - apply IH. lia.
  - apply pushInFrustum_Some. lia.
Qed.

(** The list of frustum [i] receives the node exactly when bit [i - k] of
    the remaining mask is set. *)
Lemma distribute_pos_lookup (p : positive) :
  forall (k : nat) (ri : Node) (rf rf' : list (list Node)) (i : nat) (l : list Node),
    distribute_pos p k ri rf = Some rf' -> rf !! i = Some l ->
    rf' !! i = Some (if (k <=? i)%nat && Pos.testbit_nat p (i - k) then l ++ [ri] else l).
Proof.
  induction p as [p IH | p IH |]; intros k ri rf rf' i l Hd Hi; cbn [distribute_pos] in Hd.
  - destruct (pushInFrustum rf k ri) as [rf1 |] eqn:E1; [| discriminate].
    pose proof (pushInFrustum_lookup rf rf1 k i ri l E1 Hi) as H1.
    rewrite (IH (S k) ri rf1 rf' i _ Hd H1).
    destruct (Nat.eqb_spec k i) as [-> | Hne].
    + rewrite Nat.sub_diag. cbn [Pos.testbit_nat].
      destruct (Nat.leb_spec (S i) i); [lia |].
      destruct (Nat.leb_spec i i); [| lia]. reflexivity.
    + destruct (Nat.leb_spec (S k) i), (Nat.leb_spec k i); try lia; cbn [andb]; [| reflexivity].
      replace (i - k)%nat with (S (i - S k)) by lia. reflexivity.
  - rewrite (IH (S k) ri rf rf' i l Hd Hi).
    destruct (Nat.leb_spec (S k) i), (Nat.leb_spec k i); try lia; cbn [andb]; try reflexivity.
    + replace (i - k)%nat with (S (i - S k)) by lia. reflexivity.
    + replace (i - k)%nat with 0%nat by lia. reflexivity.
  - rewrite (pushInFrustum_lookup rf rf' k i ri l Hd Hi).
    destruct (Nat.eqb_spec k i) as [-> | Hne].
    + rewrite Nat.sub_diag. destruct (Nat.leb_spec i i); [reflexivity | lia].
    + destruct (Nat.leb_spec k i); [| reflexivity].
      replace (i - k)%nat with (S (i - S k)) by lia. reflexivity.
Qed.

Lemma distribute_Some (mask : N) (ri : Node) (rf : list (list Node)) :
  (N.size_nat mask <= length rf)%nat ->
  exists rf', distribute mask ri rf = Some rf' /\ length rf' = length rf.
Proof.
  destruct mask as [| p]; cbn [distribute N.size_nat].
  - intros _. exists rf. split; reflexivity.
  - intros H. apply distribute_pos_Some. lia.
Qed.

Lemma distribute_lookup (mask : N) (ri : Node) (rf rf' : list (list Node))
  (i : nat) (l : list Node) :
  distribute mask ri rf = Some rf' -> rf !! i = Some l ->
  rf' !! i = Some (if N.testbit_nat mask i then l ++ [ri] else l).
Proof.
  destruct mask as [| p]; cbn [distribute N.testbit_nat].
  - intros [= <-] Hi. exact Hi.
  - intros Hd Hi. rewrite (distribute_pos_lookup p 0 ri rf rf' i l Hd Hi).
    rewrite Nat.sub_0_r. reflexivity.
Qed.

(** *** The first loop is a partition by [keepsNode] *)

Lemma splitRendered_partition (cam : PlanetCamera) (maxZoom : Z) (temp : list Node) :
  forall (rendered : list Node) (rf : list (list Node)) (temp2 : list Node),
    Forall (fun ri => (N.size_nat (inFrustum ri) <= length rf)%nat) temp ->
    exists rf',
      length rf' = length rf /\
      (forall i l, rf !! i = Some l ->
         rf' !! i
         = Some (l ++ List.filter (fun ri => N.testbit_nat (inFrustum ri) i)
                        (List.filter (keepsNode cam maxZoom) temp))) /\
      splitRendered cam maxZoom temp rendered rf temp2
      = Some (rendered ++ List.filter (keepsNode cam maxZoom) temp, rf',
              temp2 ++ List.filter (fun ri => negb (keepsNode cam maxZoom ri)) temp).
Proof.
  induction temp as [| ri rest IH]; intros rendered rf temp2 Hmask.
  - exists rf. cbn. rewrite !app_nil_r. split; [reflexivity | split; [| reflexivity]].
    intros i l Hi. rewrite app_nil_r. exact Hi.
  - apply Forall_cons in Hmask. destruct Hmask as [Hri Hrest].
    cbn [splitRendered List.filter].
    destruct (keepsNode cam maxZoom ri) eqn:Ekeep; cbn [negb].
    + destruct (distribute_Some (inFrustum ri) ri rf Hri) as (rf1 & E1 & L1).
      rewrite E1.
      destruct (IH (rendered ++ [ri]) rf1 temp2) as (rf2 & L2 & Hlook & E2).
      { rewrite L1. exact Hrest. }
      exists rf2. split; [lia | split].
      * intros i l Hi.
        rewrite (Hlook i _ (distribute_lookup _ ri rf rf1 i l E1 Hi)).
        cbn [List.filter].
        destruct (N.testbit_nat (inFrustum ri) i); [| reflexivity].
        rewrite <- app_assoc. reflexivity.
      * rewrite E2, <- app_assoc. reflexivity.
    + destruct (IH rendered rf (temp2 ++ [ri]) Hrest) as (rf2 & L2 & Hlook & E2).
      exists rf2. split; [exact L2 | split; [exact Hlook |]].
      rewrite E2, <- app_assoc. reflexivity.
Qed.

(** The claim of C5 as first written fails at a tie: a node below the maximum
    zoom whose horizon value equals [HORIZON_TANGENT] is not kept but handed
    to the second loop, which subdivides it. *)
Lemma tie_is_resubdivided :
  Vec3.dot (centerNormal tieNode) (centerNormal tieNode) = 1 /\
  horizonValue zenithCamera tieNode = HORIZON_TANGENT /\
  keepsNode zenithCamera 5 tieNode = false /\
  splitRendered zenithCamera 5 [tieNode] [] [[]] [] = Some ([], [[]], [tieNode]).
Proof.
  assert (Hht : horizonValue zenithCamera tieNode = HORIZON_TANGENT).
  { unfold horizonValue, Vec3.dot, HORIZON_TANGENT. cbn. lra. }
  assert (Hunit : Vec3.dot (centerNormal tieNode) (centerNormal tieNode) = 1).
  { unfold Vec3.dot. cbn. rewrite sqrt_sqrt by lra. lra. }
  assert (Hkeep : keepsNode zenithCamera 5 tieNode = false).
  { unfold keepsNode. rewrite Hht. apply orb_false_iff. split.
    - reflexivity.
    - apply Rlt_bool_false. lra. }
  split; [exact Hunit | split; [exact Hht | split; [exact Hkeep |]]].
  cbn [splitRendered]. rewrite Hkeep. reflexivity.
Qed.


(** C5 (amended): the equal-zoom pass changes the render lists only when the
    camera slope exceeds [minEqualZoomCameraSlope] (default 0.8) and the
    altitude lies strictly between [minEqualZoomAltitude] (default 10000)
    and [maxEqualZoomAltitude] (default 15000000); outside that band it
    returns the state as it is.  Inside the band the nodes kept are exactly
    those whose tile zoom equals the maximum current zoom or whose horizon
    value is below [HORIZON_TANGENT = 0.81], in their order (each also in the
    list of every frustum its mask names), and [renderTree] is run to that
    zoom on every other node; a node whose horizon value equals
    [HORIZON_TANGENT] is not kept unless it is at the maximum zoom. *)
Theorem equalZoom_pass
  (renderTree : Node -> PlanetCamera -> Z -> RenderState -> RenderState)
  (band : EqualZoomBand) (cam : PlanetCamera) (this : RenderState)
  (Hmasks : Forall (fun ri => (N.size_nat (inFrustum ri)
                               <= length (_renderedNodesInFrustum this))%nat)
              (_renderedNodes this)) :
  let z := maxCurrZoom this in
  let applies :=
    minEqualZoomCameraSlope band < slope cam /\
    minEqualZoomAltitude band < _lonLat_height cam /\
    _lonLat_height cam < maxEqualZoomAltitude band in
  bandOfOptions None None None = mkBand 15000000 10000 0.8 /\
  HORIZON_TANGENT = 0.81 /\
  (~ applies -> _collectRenderedNodesMaxZoom renderTree band cam this = Some this) /\
  (applies ->
   exists rf',
     length rf' = length (_renderedNodesInFrustum this) /\
     (forall i, (i < length rf')%nat ->
        rf' !! i
        = Some (List.filter (fun ri => N.testbit_nat (inFrustum ri) i)
                  (List.filter (keepsNode cam z) (_renderedNodes this)))) /\
     _collectRenderedNodesMaxZoom renderTree band cam this
     = Some (foldl (fun st n => renderTree n cam (maxCurrZoom st) st)
               (mkRender (List.filter (keepsNode cam z) (_renderedNodes this)) rf' z z)
               (List.filter (fun ri => negb (keepsNode cam z ri)) (_renderedNodes this)))) /\
  (forall ri, keepsNode cam z ri = true
              <-> tileZoom ri = z \/ horizonValue cam ri < HORIZON_TANGENT) /\
  (forall ri, horizonValue cam ri = HORIZON_TANGENT -> tileZoom ri <> z ->
              keepsNode cam z ri = false).
Proof.
  intros z applies.
  split; [reflexivity | split; [reflexivity | split; [| split; [| split]]]].
  - intros Hout. unfold _collectRenderedNodesMaxZoom.
    destruct (inBand band cam) eqn:E; [| reflexivity].
    exfalso. apply Hout. apply inBand_iff. exact E.
  - intros Hin. unfold _collectRenderedNodesMaxZoom.
    apply inBand_iff in Hin. rewrite Hin.
    destruct (splitRendered_partition cam z (_renderedNodes this) []
                (map (fun _ => []) (_renderedNodesInFrustum this)) [])
      as (rf' & Hlen & Hlook & Hsplit).
    { rewrite length_map. exact Hmasks. }
    fold z. rewrite Hsplit. cbn [app].
    exists rf'. split; [rewrite Hlen; apply length_map | split; [| reflexivity]].
    intros i Hi.
    rewrite (Hlook i []); [reflexivity |].
    rewrite list_lookup_fmap.
    destruct (lookup_lt_is_Some_2 (_renderedNodesInFrustum this) i) as [l Hl].
    { rewrite Hlen, length_map in Hi. exact Hi. }
    rewrite Hl. reflexivity.
  - intros ri. apply keepsNode_iff.
  - intros ri Htie Hzoom.
    destruct (keepsNode cam z ri) eqn:E; [| reflexivity].
    apply keepsNode_iff in E. destruct E as [E | E]; [contradiction | lra].
Qed.

Lemma equalZoom_pass_witness :
  exists rf',
    _collectRenderedNodesMaxZoom (fun _ _ _ st => st) (bandOfOptions None None None)
      zenithCamera (mkRender [tieNode] [[]] 3 3)
    = Some (mkRender [tieNode] rf' 3 3).
Proof.
  destruct (equalZoom_pass (fun _ _ _ st => st) (bandOfOptions None None None)
              zenithCamera (mkRender [tieNode] [[]] 3 3))
    as (_ & _ & _ & Hin & _).
  - repeat constructor.
  - destruct Hin as (rf' & _ & _ & Heq).
    + cbn. lra.
    + exists rf'. exact Heq.
Defined.

(** ** Planet: memory clearing *)



(** ** Planet: picking *)

Section PickingSpec.

Context (hitRay : Vec3.t -> Vec3.t -> option Vec3.t)
        (unproject : Camera.t -> R -> R -> Vec3.t)
        (rendererDistance : Renderer -> Pixel -> option R)
        (LonLat : Type)
        (cartesianToLonLat : Vec3.t -> LonLat).

Abbreviation cartesianEllipsoid := (getCartesianFromPixelEllipsoid hitRay unproject).
Abbreviation distanceEllipsoid := (getDistanceFromPixelEllipsoid hitRay unproject).
Abbreviation distanceOf := (getDistanceFromPixel hitRay unproject rendererDistance).
Abbreviation cartesianTerrain := (getCartesianFromPixelTerrain hitRay unproject rendererDistance).
Abbreviation lonLatTerrain :=
  (getLonLatFromPixelTerrain hitRay unproject rendererDistance LonLat cartesianToLonLat).

(** Without a renderer every picking function throws at its first
    [this.renderer!]. *)
Lemma picking_throws_without_renderer (this : PickState) (px : Pixel) :
  renderer this = None ->
  cartesianEllipsoid this px = Throws /\
  cartesianTerrain this px = Throws /\
  lonLatTerrain this px = Throws.
Proof.
  intros Hnone.
  unfold getLonLatFromPixelTerrain, getCartesianFromPixelTerrain, getDistanceFromPixel,
    getCartesianFromPixelEllipsoid.
  rewrite Hnone. repeat split; reflexivity.
Qed.

(** With a renderer whose [activeCamera] is not set they throw as well: at
    [cam.eye], or at [activeCamera!.eye] once a distance is found. *)
Lemma picking_throws_without_camera (this : PickState) (r : Renderer) (px : Pixel) :
  renderer this = Some r -> activeCamera r = None ->
  cartesianEllipsoid this px = Throws /\
  cartesianTerrain this px = Throws /\
  lonLatTerrain this px = Throws.
Proof.
  intros Hr Hnone.
  assert (He : cartesianEllipsoid this px = Throws).
  { unfold getCartesianFromPixelEllipsoid. rewrite Hr. cbn. rewrite Hnone. reflexivity. }
  assert (Ht : cartesianTerrain this px = Throws).
  { unfold getCartesianFromPixelTerrain, getDistanceFromPixel, getDistanceFromPixelEllipsoid.
    rewrite He, Hr. cbn.
    destruct (truthy (rendererDistance r px)) eqn:Hbuf; [| reflexivity].
    cbn. destruct (rendererDistance r px) as [d |]; [| discriminate Hbuf].
    cbn in *. destruct (Req_dec_T d 0); [discriminate Hbuf |].
    destruct (direction px); cbn; rewrite ?Hr; cbn; rewrite Hnone; reflexivity. }
  split; [exact He |]. split; [exact Ht |].
  unfold getLonLatFromPixelTerrain. rewrite Ht. reflexivity.
Qed.

Section Attached.

Context (this : PickState) (r : Renderer) (cam : Camera.t) (px : Pixel).
Context (Hrenderer : renderer this = Some r) (Hcamera : activeCamera r = Some cam).

Lemma cartesianEllipsoid_returns :
  cartesianEllipsoid this px
  = Returns (hitRay (Camera.eye cam) (unproject cam (px_x px) (px_y px))).
Proof using Hrenderer Hcamera.
  unfold getCartesianFromPixelEllipsoid. rewrite Hrenderer. cbn. rewrite Hcamera.
  reflexivity.
Qed.

Lemma distanceEllipsoid_returns :
  distanceEllipsoid this px
  = Returns (match hitRay (Camera.eye cam) (unproject cam (px_x px) (px_y px)) with
             | Some c => Some (Vec3.distance c (Camera.eye cam))
             | None => None
             end).
Proof using Hrenderer Hcamera.
  unfold getDistanceFromPixelEllipsoid. rewrite cartesianEllipsoid_returns. cbn.
  destruct (hitRay _ _); [| reflexivity].
  rewrite Hrenderer. cbn. rewrite Hcamera. reflexivity.
Qed.

(** The [||] chain of [getDistanceFromPixel]: the renderer's distance when it
    is a number other than 0, else the distance from the eye to the hit on
    the ellipsoid, else 0. *)
Lemma distanceOf_returns :
  distanceOf this px
  = Returns (if truthy (rendererDistance r px) then default 0 (rendererDistance r px)
             else match hitRay (Camera.eye cam) (unproject cam (px_x px) (px_y px)) with
                  | Some c => Vec3.distance c (Camera.eye cam)
                  | None => 0
                  end).
Proof using Hrenderer Hcamera.
  unfold getDistanceFromPixel. rewrite Hrenderer. cbn.
  destruct (truthy (rendererDistance r px)); [reflexivity |].
  rewrite distanceEllipsoid_returns. cbn.
  destruct (hitRay _ _) as [c |]; [| reflexivity].
  unfold js_or, truthy. destruct (Req_dec_T (Vec3.distance c (Camera.eye cam)) 0) as [H0 | _].
  - cbn. rewrite H0. reflexivity.
  - reflexivity.
Qed.

Lemma cartesianTerrain_at (d : R) :
  distanceOf this px = Returns d ->
  cartesianTerrain this px
  = Returns (if Req_dec_T d 0 then None
             else Some (Vec3.addA (Vec3.scaleTo (rayDirection unproject cam px) d)
                          (Camera.eye cam))).
Proof using Hrenderer Hcamera.
  intros Hd. unfold getCartesianFromPixelTerrain. rewrite Hd. cbn.
  destruct (Req_dec_T d 0); [reflexivity |].
  unfold rayDirection.
  destruct (direction px); cbn; rewrite Hrenderer; cbn; rewrite Hcamera; cbn;
    try (rewrite Hrenderer; cbn; rewrite Hcamera; cbn); reflexivity.
Qed.

End Attached.

(** C9 (amended): what the three picking functions do in every state.
    Without a renderer, or with a renderer that has no active camera, all
    three throw.  Otherwise they return: [getCartesianFromPixelEllipsoid] the
    hit of the unprojected ray on the ellipsoid; [getCartesianFromPixelTerrain]
    [undefined] when the distance is 0 and else the camera eye plus the ray
    direction scaled to the distance, where the distance is the renderer's
    when that is a number other than 0, else the distance from the eye to
    the hit on the ellipsoid, else 0, and the direction is the one stored
    with an input state when there is one and the unprojected one otherwise;
    [getLonLatFromPixelTerrain] the geodetic coordinates of that point, or
    [undefined].  For a pixel whose view ray misses the globe (no distance
    from the renderer, no hit on the ellipsoid) all three return
    [undefined]. *)
Theorem picking_outcomes (this : PickState) (px : Pixel) :
  match renderer this with
  | None =>
      cartesianEllipsoid this px = Throws /\
      cartesianTerrain this px = Throws /\
      lonLatTerrain this px = Throws
  | Some r =>
      match activeCamera r with
      | None =>
          cartesianEllipsoid this px = Throws /\
          cartesianTerrain this px = Throws /\
          lonLatTerrain this px = Throws
      | Some cam =>
          let eye := Camera.eye cam in
          let hit := hitRay eye (unproject cam (px_x px) (px_y px)) in
          let distance :=
            if truthy (rendererDistance r px) then default 0 (rendererDistance r px)
            else match hit with
                 | Some c => Vec3.distance c eye
                 | None => 0
                 end in
          let dir :=
            match direction px with
            | Some d => d
            | None => unproject cam (px_x px) (px_y px)
            end in
          let point :=
            if Req_dec_T distance 0 then None
            else Some (Vec3.addA (Vec3.scaleTo dir distance) eye) in
          cartesianEllipsoid this px = Returns hit /\
          cartesianTerrain this px = Returns point /\
          lonLatTerrain this px = Returns (option_map cartesianToLonLat point) /\
          (truthy (rendererDistance r px) = false -> hit = None ->
           cartesianEllipsoid this px = Returns None /\
           cartesianTerrain this px = Returns None /\
           lonLatTerrain this px = Returns None)
      end
  end.
Proof.
  destruct (renderer this) as [r |] eqn:Hr.
  2: { apply picking_throws_without_renderer. exact Hr. }
  destruct (activeCamera r) as [cam |] eqn:Hcam.
  2: { apply (picking_throws_without_camera this r px Hr Hcam). }
  intros eye hit distance dir point.
  pose proof (cartesianEllipsoid_returns this r cam px Hr Hcam) as He.
  pose proof (cartesianTerrain_at this r cam px Hr Hcam distance
                (distanceOf_returns this r cam px Hr Hcam)) as Ht.
  change (cartesianEllipsoid this px = Returns hit) in He.
  change (cartesianTerrain this px = Returns point) in Ht.
  assert (Hl : lonLatTerrain this px = Returns (option_map cartesianToLonLat point)).
  { unfold getLonLatFromPixelTerrain. rewrite Ht.
    destruct point; reflexivity. }
  split; [exact He |]. split; [exact Ht |]. split; [exact Hl |].
  intros Hbuf Hmiss.
  assert (Hp : point = None).
  { unfold point, distance. rewrite Hbuf, Hmiss.
    destruct (Req_dec_T 0 0) as [_ | Hne]; [reflexivity | contradiction]. }
  rewrite He, Ht, Hl, Hmiss, Hp. repeat split; reflexivity.
Qed.

End PickingSpec.

(** A camera at the origin, a pixel in the middle of the screen, a ray that
    misses the ellipsoid and no distance from the renderer: every function
    returns [undefined]. *)
Lemma picking_outcomes_witness :
  getCartesianFromPixelEllipsoid (fun _ _ => None) (fun _ _ _ => Vec3.mk 0 0 (-1))
    (mkPick (Some (mkRenderer (Some Camera.fresh1024x768)))) (mkPixel 512 384 None)
  = Returns None /\
  getCartesianFromPixelTerrain (fun _ _ => None) (fun _ _ _ => Vec3.mk 0 0 (-1))
    (fun _ _ => None)
    (mkPick (Some (mkRenderer (Some Camera.fresh1024x768)))) (mkPixel 512 384 None)
  = Returns None /\
  getLonLatFromPixelTerrain (fun _ _ => None) (fun _ _ _ => Vec3.mk 0 0 (-1))
    (fun _ _ => None) unit (fun _ => tt)
    (mkPick (Some (mkRenderer (Some Camera.fresh1024x768)))) (mkPixel 512 384 None)
  = Returns None.
Proof.
  refine (proj2 (proj2 (proj2
            (picking_outcomes (fun _ _ => None) (fun _ _ _ => Vec3.mk 0 0 (-1))
               (fun _ _ => None) unit (fun _ => tt)
               (mkPick (Some (mkRenderer (Some Camera.fresh1024x768))))
               (mkPixel 512 384 None)))) _ _); reflexivity.
Defined.

(** The claim of C9 as first written fails in these cases.
    - A planet that has no renderer yet: the three functions throw, whatever
      the pixel and whatever its ray hits.
    - An input state that carries a direction: with the camera at the
      origin, the unprojected ray along -z, the stored direction along x and
      a distance of 25, the point returned is (25, 0, 0), not the eye plus
      the unprojected direction scaled to 25, which is (0, 0, -25).
    - A distance of 0: the ray hits the ellipsoid at the eye itself, the
      distance from the eye to the hit exists and is 0, and the function
      returns [undefined]. *)
Lemma picking_exceptions :
  (forall (hitRay : Vec3.t -> Vec3.t -> option Vec3.t)
          (unproject : Camera.t -> R -> R -> Vec3.t)
          (rendererDistance : Renderer -> Pixel -> option R) (px : Pixel),
     getCartesianFromPixelEllipsoid hitRay unproject (mkPick None) px = Throws /\
     getCartesianFromPixelTerrain hitRay unproject rendererDistance (mkPick None) px
     = Throws /\
     getLonLatFromPixelTerrain hitRay unproject rendererDistance unit (fun _ => tt)
       (mkPick None) px = Throws) /\
  (getCartesianFromPixelTerrain (fun _ _ => None) (fun _ _ _ => Vec3.mk 0 0 (-1))
     (fun _ _ => Some 25)
     (mkPick (Some (mkRenderer (Some Camera.fresh1024x768))))
     (mkPixel 512 384 (Some (Vec3.mk 1 0 0)))
   = Returns (Some (Vec3.addA (Vec3.scaleTo (Vec3.mk 1 0 0) 25)
                      (Camera.eye Camera.fresh1024x768))) /\
   Vec3.addA (Vec3.scaleTo (Vec3.mk 1 0 0) 25) (Camera.eye Camera.fresh1024x768)
   <> Vec3.addA (Vec3.scaleTo (Vec3.mk 0 0 (-1)) 25) (Camera.eye Camera.fresh1024x768)) /\
  (getDistanceFromPixelEllipsoid (fun eye _ => Some eye) (fun _ _ _ => Vec3.mk 0 0 (-1))
     (mkPick (Some (mkRenderer (Some Camera.fresh1024x768)))) (mkPixel 512 384 None)
   = Returns (Some (Vec3.distance (Camera.eye Camera.fresh1024x768)
                      (Camera.eye Camera.fresh1024x768))) /\
   Vec3.distance (Camera.eye Camera.fresh1024x768) (Camera.eye Camera.fresh1024x768) = 0 /\
   getCartesianFromPixelTerrain (fun eye _ => Some eye) (fun _ _ _ => Vec3.mk 0 0 (-1))
     (fun _ _ => None)
     (mkPick (Some (mkRenderer (Some Camera.fresh1024x768)))) (mkPixel 512 384 None)
   = Returns None).
Proof.
  assert (Hzero : Vec3.distance (Camera.eye Camera.fresh1024x768)
                    (Camera.eye Camera.fresh1024x768) = 0).
  { unfold Vec3.distance. cbn.
    replace ((0 - 0) * (0 - 0) + (0 - 0) * (0 - 0) + (0 - 0) * (0 - 0)) with 0 by ring.
    apply sqrt_0. }
  split; [| split].
  - intros hitRay unproject rendererDistance px.
    apply picking_throws_without_renderer. reflexivity.
  - split.
    + pose proof (distanceOf_returns (fun _ _ => None) (fun _ _ _ => Vec3.mk 0 0 (-1))
                    (fun _ _ => Some 25)
                    (mkPick (Some (mkRenderer (Some Camera.fresh1024x768))))
                    (mkRenderer (Some Camera.fresh1024x768)) Camera.fresh1024x768
                    (mkPixel 512 384 (Some (Vec3.mk 1 0 0))) eq_refl eq_refl) as Hd.
      unfold truthy in Hd.
      destruct (Req_dec_T 25 0) as [H0 | _]; [lra |].
      rewrite (cartesianTerrain_at _ _ _
                 (mkPick (Some (mkRenderer (Some Camera.fresh1024x768))))
                 (mkRenderer (Some Camera.fresh1024x768))
                 Camera.fresh1024x768 _ eq_refl eq_refl _ Hd).
      cbn. destruct (Req_dec_T 25 0) as [H0 | _]; [lra | reflexivity].
    + cbn. intros H. injection H. intros. lra.
  - split; [reflexivity |]. split; [exact Hzero |].
    pose proof (distanceOf_returns (fun eye _ => Some eye) (fun _ _ _ => Vec3.mk 0 0 (-1))
                  (fun _ _ => None)
                  (mkPick (Some (mkRenderer (Some Camera.fresh1024x768))))
                  (mkRenderer (Some Camera.fresh1024x768)) Camera.fresh1024x768
                  (mkPixel 512 384 None) eq_refl eq_refl) as Hd.
    cbn [truthy] in Hd. rewrite Hzero in Hd.
    rewrite (cartesianTerrain_at _ _ _
               (mkPick (Some (mkRenderer (Some Camera.fresh1024x768))))
               (mkRenderer (Some Camera.fresh1024x768))
               Camera.fresh1024x768 _ eq_refl eq_refl _ Hd).
    destruct (Req_dec_T 0 0) as [_ | Hne]; [reflexivity | contradiction].
Qed.
End PlanetSpec.

(** ** Fading: bounds and direction of the transition opacity *)

Module FadingSpec.

Import Fading.

Local Open Scope Q_scope.

Section Rate.

Context (rate : Q) (Hrate : 0 < rate).















End Rate.

(** *** The two passes of [_renderingFadingNodes] *)



Section Passes.

Context (this : t) (first : Z) (isFirstPass : bool).

Let body : gset Z * list Z * list Z -> Z * Segment -> gset Z * list Z * list Z :=
  fun '(nodes, outTransparentSegments, outOpaqueSegments) '(id, f) =>
    if bool_decide (is_Some (_fadingNodes this !! first))
       && negb (bool_decide (id ∈ nodes))
    then
      let nodes := {[ id ]} ∪ nodes in
      if RgbTerrain.Qlt_bool (_transitionOpacity f) 1
      then (nodes, outTransparentSegments ++ [id], outOpaqueSegments)
      else if isFirstPass
           then (nodes, outTransparentSegments, outOpaqueSegments ++ [id])
           else (nodes, outTransparentSegments, outOpaqueSegments)
    else (nodes, outTransparentSegments, outOpaqueSegments).


End Passes.


End FadingSpec.

(** * Further properties of the code *)

(** ** RgbTerrain: decoding, offsets and the extracted grid *)

Module RgbTerrainMore.

Import RgbTerrain RgbTerrainSpec.

Local Open Scope Z_scope.

Lemma encoded_digits (r g b r' g' b' : Z) :
  channel g -> channel b -> channel g' -> channel b' ->
  encoded r g b = encoded r' g' b' -> r = r' /\ g = g' /\ b = b'.
Proof. unfold channel, encoded. intros. lia. Qed.

Lemma rgb2Height_regular (this : t) (r g b : Z) :
  r <> 255 ->
  rgb2Height this r g b
  = (_minHeight this + _resolution this * inject_Z (encoded r g b))%Q.
Proof.
  intros Hr. unfold rgb2Height, encoded.
  destruct (Z.eqb_spec r 255); [contradiction | reflexivity].
Qed.

(** X1: with a positive resolution, [rgb2Height] is an order embedding of the
    encoded integers on the pixels whose red channel is not 255: two such
    byte pixels decode to the same height only if they are the same pixel,
    and a larger encoded integer is a larger height; a pixel with red 255
    decodes to the height of the black pixel. *)
Theorem rgb2Height_order_embedding (this : t) (r g b r' g' b' : Z)
  (Hres : (0 < _resolution this)%Q)
  (Hg : channel g) (Hb : channel b) (Hg' : channel g') (Hb' : channel b')
  (Hr : r <> 255) (Hr' : r' <> 255) :
  ((rgb2Height this r g b == rgb2Height this r' g' b')%Q
   <-> r = r' /\ g = g' /\ b = b') /\
  ((rgb2Height this r g b < rgb2Height this r' g' b')%Q
   <-> encoded r g b < encoded r' g' b') /\
  (rgb2Height this 255 g b == rgb2Height this 0 0 0)%Q.
Proof.
  rewrite (rgb2Height_regular this r g b Hr), (rgb2Height_regular this r' g' b' Hr').
  split; [| split].
  - split.
    + intros Heq. apply Qplus_inj_l in Heq.
      apply Qmult_inj_l in Heq; [| intros H0; rewrite H0 in Hres; discriminate Hres].
      apply (proj1 (inject_Z_injective _ _)) in Heq.
      apply encoded_digits; assumption.
    + intros (-> & -> & ->). reflexivity.
  - rewrite Qplus_lt_r, (Qmult_lt_l _ _ _ Hres), <- Zlt_Qlt. reflexivity.
  - change (rgb2Height this 255 g b) with (_minHeight this).
    rewrite (rgb2Height_regular this 0 0 0) by lia.
    change (inject_Z (encoded 0 0 0)) with 0%Q. ring.
Qed.

Lemma rgb2Height_order_embedding_witness :
  (rgb2Height tinyProvider 1 134 160 < rgb2Height tinyProvider 1 134 161)%Q.
Proof.
  apply (proj1 (proj2 (rgb2Height_order_embedding tinyProvider 1 134 160 1 134 161
                         ltac:(reflexivity) ltac:(unfold channel; lia)
                         ltac:(unfold channel; lia) ltac:(unfold channel; lia)
                         ltac:(unfold channel; lia) ltac:(lia) ltac:(lia)))).
  reflexivity.
Defined.


(** *** The whole grid of [extractElevationSimple] *)

Section SimpleGrid.

Context (this : t) (rgbaData : list Z) (noData : list Q) (parent : option (list Q))
        (offX offY : Z) (zoomDiff : Q) (skip : bool) (out : list Q) (hf : Q) (s : Z).
Context (Hs : 0 < s)
        (Hout : Z.of_nat (length out) = (s + 1) * (s + 1))
        (Hrgba : Z.of_nat (length rgbaData) = 4 * s * s).

Let px := pixelHeight this rgbaData noData parent offX offY zoomDiff skip hf.
Let result :=
  extractElevationSimple this rgbaData noData parent offX offY zoomDiff skip out hf s.

Lemma extractElevationSimple_length : length result = length out.
Proof.
  exact (extractElevationSimpleInto_length (fun v => v) this rgbaData noData parent
           offX offY zoomDiff skip out hf s).
Qed.

Lemma extractElevationSimple_clamped (a b : Z) :
  0 <= a <= s -> 0 <= b <= s ->
  result !! Z.to_nat (gridIndex s a b)
  = Some (px ((Z.min a (s - 1) * s + Z.min b (s - 1)) * 4)
            (Z.min a (s - 1)) (Z.min b (s - 1))).
Proof.
  intros Ha Hb.
  exact (extractElevationSimpleInto_clamped (fun v => v) this rgbaData noData parent
           offX offY zoomDiff skip out hf s Hs Hout a b Hrgba Ha Hb).
Qed.

(** X2: [extractElevationSimple] writes every cell of the
    [(size + 1) x (size + 1)] grid and keeps its length: the cell of row [a]
    and column [b] holds the height of the image pixel in row
    [min(a, size - 1)] and column [min(b, size - 1)], so the extra column
    and the extra row repeat the last image column and row. *)
Theorem extractElevationSimple_grid (a b : Z) (Ha : 0 <= a <= s) (Hb : 0 <= b <= s) :
  length result = length out /\
  result !! Z.to_nat (gridIndex s a b)
  = Some (px ((Z.min a (s - 1) * s + Z.min b (s - 1)) * 4)
            (Z.min a (s - 1)) (Z.min b (s - 1))) /\
  result !! Z.to_nat (gridIndex s a s) = result !! Z.to_nat (gridIndex s a (s - 1)) /\
  result !! Z.to_nat (gridIndex s s b) = result !! Z.to_nat (gridIndex s (s - 1) b).
Proof.
  split; [apply extractElevationSimple_length |].
  split; [apply extractElevationSimple_clamped; assumption | split].
  - rewrite !extractElevationSimple_clamped by lia.
    rewrite (Z.min_r s (s - 1)), (Z.min_l (s - 1) (s - 1)) by lia. reflexivity.
  - rewrite !extractElevationSimple_clamped by lia.
    rewrite (Z.min_r s (s - 1)), (Z.min_l (s - 1) (s - 1)) by lia. reflexivity.
Qed.

End SimpleGrid.

Lemma extractElevationSimple_grid_witness :
  extractElevationSimple tinyProvider noDataImage [(-10000)%Q] (Some plateau)
    0 0 (1 # 2) false (replicate 9 0%Q) 1 2 !! Z.to_nat (gridIndex 2 2 2)
  = extractElevationSimple tinyProvider noDataImage [(-10000)%Q] (Some plateau)
      0 0 (1 # 2) false (replicate 9 0%Q) 1 2 !! Z.to_nat (gridIndex 2 2 (2 - 1)).
Proof.
  apply (extractElevationSimple_grid tinyProvider noDataImage [(-10000)%Q] (Some plateau)
           0 0 (1 # 2) false (replicate 9 0%Q) 1 2
           ltac:(lia) ltac:(reflexivity) ltac:(reflexivity) 2 2 ltac:(lia) ltac:(lia)).
Defined.

(** *** Offsets of a descendant tile *)

Lemma foldl_double_linear (bits : list Z) (x : Z) :
  foldl (fun acc o => 2 * acc + o) x bits
  = 2 ^ Z.of_nat (length bits) * x + pathOffset bits.
Proof.
  unfold pathOffset. revert x.
  induction bits as [| o bits IH] using rev_ind; intros x.
  - cbn. lia.
  - rewrite !foldl_snoc, length_app, Nat2Z.inj_add. cbn [length].
    rewrite (IH x). rewrite Z.pow_add_r by lia.
    change (2 ^ Z.of_nat 1) with 2. lia.
Qed.

Lemma pathOffset_bound (bits : list Z) :
  Forall (fun o => o = 0 \/ o = 1) bits ->
  0 <= pathOffset bits < 2 ^ Z.of_nat (length bits).
Proof.
  unfold pathOffset.
  induction bits as [| o bits IH] using rev_ind; intros Hbits.
  - cbn. lia.
  - apply Forall_app in Hbits. destruct Hbits as [Hbits Ho].
    rewrite Forall_singleton in Ho.
    rewrite foldl_snoc, length_app, Nat2Z.inj_add, Z.pow_add_r by lia.
    cbn [length]. change (2 ^ Z.of_nat 1) with 2.
    specialize (IH Hbits). lia.
Qed.

Lemma descend_coordinates (path : list (Z * Z)) :
  forall x y z,
    descend (x, y, z) path
    = (foldl (fun acc o => 2 * acc + o) x (map fst path),
       foldl (fun acc o => 2 * acc + o) y (map snd path),
       z + Z.of_nat (length path)).
Proof.
  induction path as [| [ox oy] path IH]; intros x y z.
  - cbn. f_equal. lia.
  - cbn [descend map foldl length fst snd]. unfold getChildTileIndex.
    rewrite IH. rewrite (Z.mul_comm x 2), (Z.mul_comm y 2).
    f_equal. lia.
Qed.

(** X3: for a tile reached from an ancestor by [getChildTileIndex] along a
    path of 1 to 30 child offsets in {0, 1}, [getTileOffset] against that
    ancestor returns the binary numbers spelt by the offsets, each in
    [[0, 2^n)], and the scale [1 / 2^n], where [n] is the length of the
    path. *)
Theorem getTileOffset_of_descendant (ax ay az : Z) (path : list (Z * Z))
  (Hlen : (1 <= length path <= 30)%nat)
  (Hbits : Forall (fun o => (o.1 = 0 \/ o.1 = 1) /\ (o.2 = 0 \/ o.2 = 1)) path) :
  let n := Z.of_nat (length path) in
  let '(cx, cy, cz) := descend (ax, ay, az) path in
  getTileOffset cx cy cz ax ay az
  = (pathOffset (map fst path), pathOffset (map snd path), (1 / inject_Z (2 ^ n))%Q) /\
  0 <= pathOffset (map fst path) < 2 ^ n /\
  0 <= pathOffset (map snd path) < 2 ^ n.
Proof.
  intros n. rewrite descend_coordinates.
  split; [| split].
  - unfold getTileOffset.
    replace (az + Z.of_nat (length path) - az - 1) with (n - 1) by (unfold n; lia).
    rewrite js_shl_2_pow by (unfold n; lia).
    replace (n - 1 + 1) with n by lia.
    rewrite !foldl_double_linear, !length_map. fold n.
    f_equal. f_equal; lia.
  - unfold n. rewrite <- (length_map fst path). apply pathOffset_bound.
    apply Forall_fmap. eapply Forall_impl; [exact Hbits |]. cbn. tauto.
  - unfold n. rewrite <- (length_map snd path). apply pathOffset_bound.
    apply Forall_fmap. eapply Forall_impl; [exact Hbits |]. cbn. tauto.
Qed.

Lemma getTileOffset_of_descendant_witness :
  getTileOffset 13 6 5 3 1 3 = (1, 2, (1 / inject_Z (2 ^ 2))%Q).
Proof.
  refine (proj1 (getTileOffset_of_descendant 3 1 3 [(0, 1); (1, 0)] _ _)).
  - cbn. lia.
  - repeat (apply Forall_cons_2; [cbn; lia |]). apply Forall_nil_2.
Defined.

(** *** Reading the ancestor's grid *)

(** X4: when the tile's offsets lie in [[0, 2^dz)], the scale is [1 / 2^dz]
    and the ancestor's grid is [P] by [P], [getParentHeight] at a cell
    [(i, j)] of the tile with [0 <= i, j < P] reads a sample that exists:
    row [(offsetY * P + i) / 2^dz] and column [(offsetX * P + j) / 2^dz],
    both inside [[0, P)].  It returns that sample, or zero in its place
    when positive heights are skipped and the sample is positive, so the
    result is then never above zero. *)
Theorem getParentHeight_reads_inside (dz offsetX offsetY P i j : Z)
  (heights : list Q) (skip : bool)
  (Hdz : 0 <= dz) (HoffX : 0 <= offsetX < 2 ^ dz) (HoffY : 0 <= offsetY < 2 ^ dz)
  (HP : 0 < P) (Hlen : Z.of_nat (length heights) = P * P)
  (Hi : 0 <= i < P) (Hj : 0 <= j < P) :
  let pi := (offsetY * P + i) / 2 ^ dz in
  let pj := (offsetX * P + j) / 2 ^ dz in
  0 <= pi < P /\ 0 <= pj < P /\
  exists h : Q,
    heights !! Z.to_nat (pi * P + pj) = Some h /\
    getParentHeight (1 / inject_Z (2 ^ dz)) offsetX offsetY heights i j skip
    = (if skip then (if Qlt_bool 0 h then 0%Q else h) else h) /\
    (skip = true ->
     (getParentHeight (1 / inject_Z (2 ^ dz)) offsetX offsetY heights i j skip <= 0)%Q).
Proof.
  intros pi pj.
  assert (HD : 0 < 2 ^ dz) by (apply Z.pow_pos_nonneg; lia).
  assert (Hpi : 0 <= pi < P).
  { unfold pi. split; [apply Z.div_pos; nia |].
    apply Z.div_lt_upper_bound; nia. }
  assert (Hpj : 0 <= pj < P).
  { unfold pj. split; [apply Z.div_pos; nia |].
    apply Z.div_lt_upper_bound; nia. }
  assert (Hin : (Z.to_nat (pi * P + pj) < length heights)%nat) by nia.
  destruct (lookup_lt_is_Some_2 heights _ Hin) as [h Hh].
  assert (Hsqrt : Z.sqrt (Z.of_nat (length heights)) = P).
  { rewrite Hlen. apply Z.sqrt_square. lia. }
  assert (Hval : getParentHeight (1 / inject_Z (2 ^ dz)) offsetX offsetY heights i j skip
                 = (if skip then (if Qlt_bool 0 h then 0%Q else h) else h)).
  { apply getParentHeight_sample; cbv zeta; rewrite Hsqrt, !Qfloor_scaled by exact HD.
    - fold pi pj. nia.
    - exact Hh. }
  split; [exact Hpi |]. split; [exact Hpj |].
  exists h. split; [exact Hh |]. split; [exact Hval |].
  intros ->. rewrite Hval.
  destruct (Qlt_bool 0 h) eqn:Hlt.
  - apply Qle_refl.
  - apply Qlt_bool_false in Hlt. exact Hlt.
Qed.

Lemma getParentHeight_reads_inside_witness :
  exists h : Q,
    plateau !! Z.to_nat ((1 * 3 + 2) / 2 ^ 1 * 3 + (0 * 3 + 1) / 2 ^ 1) = Some h /\
    getParentHeight (1 / inject_Z (2 ^ 1)) 0 1 plateau 2 1 true
    = (if Qlt_bool 0 h then 0%Q else h) /\
    (true = true -> (getParentHeight (1 / inject_Z (2 ^ 1)) 0 1 plateau 2 1 true <= 0)%Q).
Proof.
  refine (proj2 (proj2 (getParentHeight_reads_inside 1 0 1 3 2 1 plateau true
                          _ _ _ _ _ _ _))); cbn; lia.
Defined.

(** *** Images that are not a power of two, and tiles at native zoom *)

(** X5: [extractElevationTilesRgbNonPowerOfTwo] keeps the length of the
    output and overwrites every cell: cell [k] becomes the height factor
    times the decoded height of pixel [k], whatever the cell held before and
    whatever the alpha channel is.  No no-data filtering takes place. *)
Theorem nonPowerOfTwo_decodes_every_pixel (this : t) (rgbaData : list Z)
  (out : list Q) (hf : Q) (k : nat) (r g b : Z)
  (Hk : (k < length out)%nat)
  (Hr : rgbaData !! (4 * k)%nat = Some r)
  (Hg : rgbaData !! (4 * k + 1)%nat = Some g)
  (Hb : rgbaData !! (4 * k + 2)%nat = Some b) :
  let result := extractElevationTilesRgbNonPowerOfTwo this rgbaData out hf in
  length result = length out /\
  result !! k = Some (Qmult hf (rgb2Height this r g b)).
Proof.
  intros result. unfold result, extractElevationTilesRgbNonPowerOfTwo.
  pose (g0 := fun i : Z =>
          Qmult hf (rgb2Height this (aget 0 rgbaData (i * 4))
                      (aget 0 rgbaData (i * 4 + 1)) (aget 0 rgbaData (i * 4 + 2)))).
  split.
  - apply (foldl_aset_length (fun i => i) g0).
  - pose proof (foldl_aset_hit (fun i => i) g0 (Z.of_nat (length out)) out (Z.of_nat k))
      as Hhit.
    cbv beta in Hhit. rewrite Nat2Z.id in Hhit.
    unfold g0 in Hhit. cbv beta in Hhit.
    rewrite Hhit; [| intros; assumption | lia | lia].
    unfold aget.
    destruct (Z.ltb_spec (Z.of_nat k * 4) 0); [lia |].
    destruct (Z.ltb_spec (Z.of_nat k * 4 + 1) 0); [lia |].
    destruct (Z.ltb_spec (Z.of_nat k * 4 + 2) 0); [lia |].
    replace (Z.to_nat (Z.of_nat k * 4)) with (4 * k)%nat by lia.
    replace (Z.to_nat (Z.of_nat k * 4 + 1)) with (4 * k + 1)%nat by lia.
    replace (Z.to_nat (Z.of_nat k * 4 + 2)) with (4 * k + 2)%nat by lia.
    rewrite Hr, Hg, Hb. reflexivity.
Qed.

Lemma nonPowerOfTwo_decodes_every_pixel_witness :
  extractElevationTilesRgbNonPowerOfTwo tinyProvider [1; 2; 3; 255; 0; 1; 0; 0]
    [5%Q; 7%Q] 2 !! 1%nat
  = Some (Qmult 2 (rgb2Height tinyProvider 0 1 0)).
Proof.
  refine (proj2 (nonPowerOfTwo_decodes_every_pixel tinyProvider
                   [1; 2; 3; 255; 0; 1; 0; 0] [5%Q; 7%Q] 2 1 0 1 0 _ _ _ _)).
  - cbn. lia.
  - reflexivity.
  - reflexivity.
  - reflexivity.
Defined.

(** X6: for a segment at or below the provider's native zoom,
    [_createHeights] on a grid-sized image (its size a power of two)
    consults no ancestor: whatever the ancestors hold, the cell of row [a]
    and column [b] of the [Float32Array] is the binary32 rounding of the
    height factor times the decoded height of the image pixel in row
    [min(a, size - 1)] and column [min(b, size - 1)], no-data and zero
    pixels included. *)
Theorem createHeights_native_zoom_is_plain_decode (this : t) (maxNativeZoom : Z)
  (rgbaData : list Z) (segment : SegmentInfo) (ancestors : list SegmentInfo) (a b : Z)
  (Hsize : (0 < _imageSize this)%nat)
  (Hrgba : length rgbaData = (4 * _imageSize this * _imageSize this)%nat)
  (Hzoom : tileZoom segment <= maxNativeZoom)
  (Ha : 0 <= a <= Z.of_nat (_imageSize this))
  (Hb : 0 <= b <= Z.of_nat (_imageSize this)) :
  let s := Z.of_nat (_imageSize this) in
  let p := (Z.min a (s - 1) * s + Z.min b (s - 1)) * 4 in
  _createHeights_gridSized this maxNativeZoom rgbaData (segment :: ancestors)
    !! Z.to_nat (gridIndex s a b)
  = Some (fround
            (Qmult (_heightFactor this)
               (rgb2Height this (aget 0 rgbaData p) (aget 0 rgbaData (p + 1))
                  (aget 0 rgbaData (p + 2))))).
Proof.
  intros s p. unfold _createHeights_gridSized. fold s.
  destruct (Z.ltb_spec maxNativeZoom (tileZoom segment)) as [Hlt | _]; [lia |].
  unfold getTileOffset.
  rewrite extractElevationSimpleInto_clamped.
  - reflexivity.
  - lia.
  - rewrite length_replicate. nia.
  - unfold s. lia.
  - exact Ha.
  - exact Hb.
Qed.

(** The pixel (0, 0, 3) decodes to -9999.7, which the array holds as
    -9999.7001953125. *)
Lemma createHeights_native_zoom_is_plain_decode_witness :
  _createHeights_gridSized tinyProvider 14
    [0; 0; 3; 255; 0; 0; 0; 255; 0; 0; 0; 255; 0; 0; 0; 255]
    (mkSegmentInfo 5 3 14 false None :: detailChain)
    !! Z.to_nat (gridIndex 2 0 0)
  = Some (fround (Qmult 1 (rgb2Height tinyProvider 0 0 3)))
  /\ Qmult 1 (rgb2Height tinyProvider 0 0 3) == -9999.7
  /\ fround (Qmult 1 (rgb2Height tinyProvider 0 0 3)) == -9999.7001953125.
Proof.
  split; [| split; reflexivity].
  refine (createHeights_native_zoom_is_plain_decode tinyProvider 14
            [0; 0; 3; 255; 0; 0; 0; 255; 0; 0; 0; 255; 0; 0; 0; 255]
            (mkSegmentInfo 5 3 14 false None) detailChain 0 0 _ _ _ _ _).
  - cbn. lia.
  - reflexivity.
  - cbn. lia.
  - cbn. lia.
  - cbn. lia.
Defined.

(** *** The constructed provider *)

Lemma orNumber_nonzero (o : option Q) (d : Q) :
  ~ (d == 0)%Q -> ~ (orNumber o d == 0)%Q.
Proof.
  intros Hd. destruct o as [v |]; cbn; [| exact Hd].
  destruct (Qeq_bool v 0) eqn:Hv; [exact Hd |].
  apply Qeq_bool_neq. exact Hv.
Qed.

(** X9: the constructor reads [imageSize], [minHeight] and [resolution] with
    [||], so a zero option is replaced by the default (256, -10000, 0.1) and
    none of the three fields is ever zero.  When the [resolution] option is
    absent or not negative the constructed resolution is positive, and the
    decoded heights of pixels whose red channel is not 255 are then ordered
    as their encoded integers. *)
Theorem constructor_decodes_in_order (options : IRgbTerrainParams)
  (heightFactor : Q) (noData : list Q) (r g b r' g' b' : Z)
  (Hres : forall v, opt_resolution options = Some v -> (0 <= v)%Q)
  (Hr : r <> 255) (Hr' : r' <> 255) :
  let this := constructor options heightFactor noData in
  (0 < _imageSize this)%nat /\
  ~ (_minHeight this == 0)%Q /\
  (0 < _resolution this)%Q /\
  (opt_resolution options = Some 0%Q -> _resolution this = 0.1%Q) /\
  ((rgb2Height this r g b < rgb2Height this r' g' b')%Q
   <-> encoded r g b < encoded r' g' b').
Proof.
  intros this.
  assert (Hpos : (0 < _resolution this)%Q).
  { unfold this, constructor. cbn [_resolution].
    assert (Hnz : ~ (orNumber (opt_resolution options) 0.1 == 0)%Q)
      by (apply orNumber_nonzero; discriminate).
    assert (Hge : (0 <= orNumber (opt_resolution options) 0.1)%Q).
    { destruct (opt_resolution options) as [v |] eqn:Hv; cbn; [| discriminate].
      destruct (Qeq_bool v 0); [discriminate | apply Hres; reflexivity]. }
    apply Qle_lteq in Hge. destruct Hge as [Hlt | Heq]; [exact Hlt |].
    exfalso. apply Hnz. symmetry. exact Heq. }
  split; [| split; [| split; [exact Hpos | split]]].
  - unfold this, constructor. cbn [_imageSize].
    destruct (opt_imageSize options) as [[| n] |]; lia.
  - unfold this, constructor. cbn [_minHeight].
    apply orNumber_nonzero. discriminate.
  - intros Hz. unfold this, constructor. cbn [_resolution]. rewrite Hz. reflexivity.
  - rewrite (rgb2Height_regular this r g b Hr), (rgb2Height_regular this r' g' b' Hr').
    rewrite Qplus_lt_r, (Qmult_lt_l _ _ _ Hpos), <- Zlt_Qlt. reflexivity.
Qed.

Lemma constructor_decodes_in_order_witness :
  (rgb2Height (constructor (mkParams None (Some 0%Q) (Some 0%Q)) 1 []) 0 0 7
   < rgb2Height (constructor (mkParams None (Some 0%Q) (Some 0%Q)) 1 []) 0 1 0)%Q.
Proof.
  apply (proj2 (proj2 (proj2 (proj2
           (constructor_decodes_in_order (mkParams None (Some 0%Q) (Some 0%Q)) 1 []
              0 0 7 0 1 0
              ltac:(intros v Hv; injection Hv as <-; discriminate)
              ltac:(lia) ltac:(lia)))))).
  reflexivity.
Defined.

(** *** Height queries from the image cache *)

Section HeightQueryFacts.

Context {LonLat K : Type} `{Countable K}.
Variable getTileXY : LonLat -> Z -> Z * Z * Z * Z.
Variable getLonLatTileOffset : LonLat -> Z -> Z -> Z -> Z -> Z * Z.
Variable getTileIndex : Z -> Z -> Z -> Z -> K.
Variable this : t.
Variable cache : gmap K (list Z).
Variable lonLat : LonLat.

Let query := getHeightAsync_at getTileXY getLonLatTileOffset getTileIndex this cache lonLat.
Let keyAt := tileIndexAt getTileXY getTileIndex lonLat.

Lemma getHeightAsync_at_called (zoom : nat) (h : Q) :
  query zoom = Called h ->
  h = 0%Q \/ checkNoDataValue (noDataValues this) h = false.
Proof.
  unfold query. induction zoom as [| zoom IH]; cbn [getHeightAsync_at].
  - intros [= <-]. left. reflexivity.
  - destruct (getTileXY lonLat (Z.of_nat (S zoom))) as [[[x y] z] g].
    destruct (getLonLatTileOffset lonLat x y z (Z.of_nat (_imageSize this))) as [i j].
    destruct (cache !! getTileIndex x y z g) as [data |]; [| discriminate].
    destruct (pixelAt data _) as [[[r gr] b] |]; [| discriminate].
    match goal with
    | |- context [if ?c then _ else _] => destruct c eqn:Hnd
    end; [exact IH |].
    intros [= <-]. right. exact Hnd.
Qed.

Lemma getHeightAsync_at_pending (zoom : nat) (k : K) :
  query zoom = Pending k ->
  exists z, (1 <= z <= zoom)%nat /\ k = keyAt z /\ cache !! k = None.
Proof.
  unfold query, keyAt. induction zoom as [| zoom IH]; cbn [getHeightAsync_at].
  - discriminate.
  - unfold tileIndexAt at 1.
    destruct (getTileXY lonLat (Z.of_nat (S zoom))) as [[[x y] z] g] eqn:Hxy.
    destruct (getLonLatTileOffset lonLat x y z (Z.of_nat (_imageSize this))) as [i j].
    destruct (cache !! getTileIndex x y z g) as [data |] eqn:Hc.
    + destruct (pixelAt data _) as [[[r gr] b] |]; [| discriminate].
      match goal with
      | |- context [if ?c then _ else _] => destruct c
      end; [| discriminate].
      intros Hq. destruct (IH Hq) as (z0 & Hz0 & Hk & Hnone).
      exists z0. split; [lia | split; assumption].
    + intros [= <-]. exists (S zoom). split; [lia |].
      split; [| exact Hc].
      unfold tileIndexAt. rewrite Hxy. reflexivity.
Qed.

(** X10: a call of [getHeightAsync] that answers at once never hands a
    no-data height to the callback: the height is zero (the zoom ran out) or
    is not a no-data value of the provider.  When the call leaves the answer
    to a fetch, the tile it waits for covers the position at some zoom from
    1 to the requested one and is not in the image cache; so with every such
    tile cached the call always answers at once. *)
Theorem getHeightAsync_never_reports_nodata (maxZoom : nat) (zoom : option nat) :
  let answer :=
    getHeightAsync getTileXY getLonLatTileOffset getTileIndex this maxZoom cache
      lonLat zoom in
  (forall h, answer = Called h ->
     h = 0%Q \/ checkNoDataValue (noDataValues this) h = false) /\
  (forall k, answer = Pending k ->
     exists z, (1 <= z <= default maxZoom zoom)%nat /\ k = keyAt z /\ cache !! k = None) /\
  ((forall z, (1 <= z <= default maxZoom zoom)%nat -> is_Some (cache !! keyAt z)) ->
   forall k, answer <> Pending k).
Proof.
  intros answer. unfold answer, getHeightAsync. fold query.
  split; [| split].
  - intros h. apply getHeightAsync_at_called.
  - intros k. apply getHeightAsync_at_pending.
  - intros Hall k Hq.
    destruct (getHeightAsync_at_pending _ _ Hq) as (z & Hz & -> & Hnone).
    destruct (Hall z Hz) as [data Hdata]. congruence.
Qed.

End HeightQueryFacts.
End RgbTerrainMore.

Module EmptyTerrainMore.

Import EmptyTerrain.

Local Open Scope Z_scope.

Lemma set_maxNodeZoom_grid (vals : list Z) (this : t) :
  gridSizeByZoom (foldl set_maxNodeZoom this vals) = gridSizeByZoom this.
Proof.
  revert this. induction vals as [| v vals IH]; intros this; [reflexivity |].
  cbn [foldl]. rewrite IH. reflexivity.
Qed.

(** X7: whatever the options and whatever values are assigned to
    [maxNodeZoom] afterwards, the grid-size table is unchanged and the stored
    value is the last assigned one capped at the last index of the table (the
    last index itself when nothing was assigned); so it never exceeds that
    index, and when it is not negative the table has an entry for it. *)
Theorem maxNodeZoom_stays_in_table (options : IEmptyTerrainParams) (vals : list Z) :
  let this := foldl set_maxNodeZoom (constructor options) vals in
  let top := Z.of_nat (length (gridSizeByZoom this)) - 1 in
  gridSizeByZoom this = gridSizeByZoom (constructor options) /\
  maxNodeZoom this = match last vals with
                     | Some v => Z.min v top
                     | None => top
                     end /\
  maxNodeZoom this <= top /\
  (0 <= maxNodeZoom this -> is_Some (gridSizeByZoom this !! Z.to_nat (maxNodeZoom this))).
Proof.
  intros this top.
  assert (Hgrid : gridSizeByZoom this = gridSizeByZoom (constructor options))
    by apply set_maxNodeZoom_grid.
  assert (Hval : maxNodeZoom this = match last vals with
                                    | Some v => Z.min v top
                                    | None => top
                                    end).
  { unfold top. rewrite Hgrid. unfold this, maxNodeZoom.
    destruct vals as [| v vals _] using rev_ind; [reflexivity |].
    rewrite foldl_snoc, last_snoc. cbn [set_maxNodeZoom _maxNodeZoom].
    rewrite set_maxNodeZoom_grid.
    destruct (Z.ltb_spec (Z.of_nat (length (gridSizeByZoom (constructor options))) - 1) v);
      lia. }
  assert (Hle : maxNodeZoom this <= top).
  { rewrite Hval. destruct (last vals); lia. }
  repeat split; try assumption.
  intros Hpos. apply lookup_lt_is_Some. unfold top in Hle. lia.
Qed.

(** X8: the constructor reads its numeric options with [||], so an explicit
    zero is treated like an absent option: the constructed [minZoom],
    [maxZoom] and [maxNativeZoom] are never zero, a zero [minZoom] becomes 2,
    a zero [maxZoom] becomes 19, and an absent or zero [maxNativeZoom] takes
    the constructed [maxZoom]. *)
Theorem constructor_never_zero (options : IEmptyTerrainParams) :
  let this := constructor options in
  minZoom this <> 0 /\ maxZoom this <> 0 /\ maxNativeZoom this <> 0 /\
  (opt_minZoom options = Some 0 -> minZoom this = 2) /\
  (opt_maxZoom options = Some 0 -> maxZoom this = 19) /\
  (opt_maxNativeZoom options = None \/ opt_maxNativeZoom options = Some 0 ->
   maxNativeZoom this = maxZoom this).
Proof.
  destruct options as [mz xz nz g]. cbn.
  assert (Hor : forall o d, d <> 0 -> orNumber o d <> 0).
  { intros [v |] d Hd; cbn; [| exact Hd].
    destruct (Z.eqb_spec v 0); assumption. }
  assert (Hmax : orNumber xz 19 <> 0) by (apply Hor; lia).
  repeat split.
  - apply Hor. lia.
  - exact Hmax.
  - apply Hor. exact Hmax.
  - intros ->. reflexivity.
  - intros ->. reflexivity.
  - intros [-> | ->]; reflexivity.
Qed.

End EmptyTerrainMore.

Module EntityRenderingMore.

Import EntityNode EntityRendering.

Local Open Scope Q_scope.

Lemma _setExtentBounds_fresh (e : Extent) :
  _setExtentBounds false e = true <-> 0 < lat (northEast e).
Proof.
  unfold _setExtentBounds.
  destruct (RgbTerrain.Qlt_bool 0 (lat (northEast e))) eqn:Hlt.
  - apply RgbTerrainSpec.Qlt_bool_iff in Hlt. tauto.
  - apply RgbTerrainSpec.Qlt_bool_false in Hlt. split; [discriminate |].
    intros Hpos. exfalso. apply (Qlt_irrefl 0). eapply Qlt_le_trans; eassumption.
Qed.

(** X11: the constructor writes [isNorth = false] after the base constructor
    has run, so a child built by [createChildNodes] is not flagged north,
    whatever the base constructor left in the field and wherever the child
    lies; its part id, extent and zoom are those the base constructor left.
    [renderCollection] on such a child records it in the south dictionary
    and leaves the north dictionary as it is, and [isVisible] then holds for
    it.  When the base constructor is one that calls [_setExtentBounds], it
    has flagged the child exactly when the north latitude of the child's
    extent is positive, and the constructor has taken that flag away. *)
Theorem children_hemisphere (super : Node -> t) (this : t) (q : Quadrant)
  (strategy : Strategy) (nodeId : Z) :
  let child := EntityRendering.createChildNodes super this q in
  let split := EntityNode.createChildNodes (node this) q in
  isNorth child = false /\
  node child = node (super split) /\
  renderCollection strategy (isNorth child) nodeId
  = mkStrategy (_renderingNodesNorth strategy)
               (<[nodeId := true]> (_renderingNodesSouth strategy)) /\
  isVisible (renderCollection strategy (isNorth child) nodeId) (isNorth child) nodeId
  = true /\
  (isNorth (superWithBounds split) = true <-> 0 < lat (northEast (extent split))) /\
  isNorth (EntityRendering.createChildNodes superWithBounds this q) = false.
Proof.
  intros child split.
  split; [reflexivity |].
  split.
  { unfold child, EntityRendering.createChildNodes, constructor. cbn.
    fold split. destruct split; reflexivity. }
  split; [reflexivity |].
  split.
  { cbn. unfold isVisible, flagged. cbn. rewrite lookup_insert_eq. reflexivity. }
  split; [apply _setExtentBounds_fresh | reflexivity].
Qed.

(** The north-east child of the whole globe lies north of the equator; the
    base constructor that calls [_setExtentBounds] flags it, and the child
    as constructed is not flagged. *)
Lemma children_hemisphere_witness :
  isNorth (superWithBounds
             (EntityNode.createChildNodes
                (mkNode None (mkExtent (mkLonLat (-180) (-90)) (mkLonLat 180 90)) 0) NE))
  = true /\
  isNorth (EntityRendering.createChildNodes superWithBounds
             (mkT (mkNode None (mkExtent (mkLonLat (-180) (-90)) (mkLonLat 180 90)) 0)
                  false) NE)
  = false.
Proof.
  pose proof (children_hemisphere superWithBounds
                (mkT (mkNode None (mkExtent (mkLonLat (-180) (-90)) (mkLonLat 180 90)) 0)
                     false) NE (mkStrategy ∅ ∅) 0%Z) as H.
  cbv zeta in H. destruct H as (_ & _ & _ & _ & Hflag & Hchild).
  split; [| exact Hchild].
  apply Hflag. reflexivity.
Defined.

Lemma flagged_insert (d : gmap Z bool) (id id' : Z) :
  flagged (<[id := true]> d) id' = if decide (id = id') then true else flagged d id'.
Proof.
  unfold flagged. destruct (decide (id = id')) as [-> | Hne].
  - rewrite lookup_insert_eq. reflexivity.
  - rewrite lookup_insert_ne by exact Hne. reflexivity.
Qed.

(** X12: once [renderCollection] has run on a node, [isVisible] holds for
    it; it never hides another node, and a node of the other hemisphere
    flag becomes visible by it only when it is flagged north, the rendered
    node is not, and the two share their id. *)
Theorem renderCollection_makes_visible (strategy : Strategy) (isNorth : bool) (nodeId : Z) :
  let after := renderCollection strategy isNorth nodeId in
  isVisible after isNorth nodeId = true /\
  (forall north' id',
      isVisible strategy north' id' = true -> isVisible after north' id' = true) /\
  (forall north' id',
      isVisible after north' id' = true -> isVisible strategy north' id' = false ->
      id' = nodeId /\ (north' = isNorth \/ (north' = true /\ isNorth = false))).
Proof.
  intros after. unfold after, renderCollection, isVisible.
  split; [| split].
  - destruct isNorth; cbn; rewrite flagged_insert;
      destruct (decide (nodeId = nodeId)); try contradiction; reflexivity.
  - intros north' id'. destruct isNorth; cbn; rewrite flagged_insert;
      destruct (decide (nodeId = id')); destruct north'; cbn;
      repeat match goal with
             | |- context [flagged ?d ?i] => destruct (flagged d i)
             end; cbn; congruence.
  - intros north' id'. destruct isNorth; cbn; rewrite flagged_insert;
      destruct (decide (nodeId = id')) as [-> | Hne]; destruct north'; cbn;
      repeat match goal with
             | |- context [flagged ?d ?i] => destruct (flagged d i)
             end; cbn; intros; try discriminate; try congruence; auto.
Qed.

End EntityRenderingMore.

Module CameraMotionMore.

Import CameraMotion.

Section MoveEndFacts.

Context {V : Type}.
Variable equal : V -> V -> bool.
Hypothesis equal_spec : forall a b : V, equal a b = true <-> a = b.

Let same (q p : @Pose V) : bool :=
  equal (eye q) (eye p) && equal (_r q) (_r p) && equal (_u q) (_u p)
  && equal (_b q) (_b p).

Let previous (this : @t V) : @Pose V :=
  mkPose (_peye this) (_pr this) (_pu this) (_pb this).

Lemma same_spec (q p : Pose) : same q p = true <-> q = p.
Proof.
  unfold same. rewrite !andb_true_iff, !equal_spec.
  destruct q, p; cbn. split.
  - intros [[[-> ->] ->] ->]. reflexivity.
  - intros [= -> -> -> ->]. auto.
Qed.

Lemma checkMoveEnd_moveTo (this : t) (p : Pose) :
  checkMoveEnd equal (moveTo this p)
  = (mk p (eye p) (_r p) (_u p) (_b p) (negb (same (previous this) p)),
     if same (previous this) p && isMoving this then [moveend] else []).
Proof.
  unfold checkMoveEnd, moveTo, same, previous. cbn.
  destruct (equal (_peye this) (eye p) && equal (_pr this) (_r p)
            && equal (_pu this) (_u p) && equal (_pb this) (_b p)); cbn.
  - destruct (isMoving this); reflexivity.
  - reflexivity.
Qed.

Lemma frames_third (this : t) (p0 p1 p2 : Pose) (rest : list Pose) :
  frames equal this (p0 :: p1 :: p2 :: rest) !! 2%nat
  = Some (if same p1 p2 && negb (same p0 p1) then [moveend] else []).
Proof.
  cbn [frames]. rewrite !checkMoveEnd_moveTo. cbn.
  destruct p0, p1. reflexivity.
Qed.

Lemma frames_lookup_S (this : t) (p : Pose) (rest : list Pose) (i : nat) :
  frames equal this (p :: rest) !! S i
  = frames equal (checkMoveEnd equal (moveTo this p)).1 rest !! i.
Proof.
  cbn [frames]. destruct (checkMoveEnd equal (moveTo this p)). reflexivity.
Qed.

(** X13: with one call of [checkMoveEnd] per frame, a frame dispatches
    [moveend] exactly when the camera is where it was in the frame before
    and was elsewhere in the frame before that: once per stop, in the first
    frame that finds the camera at rest.  In particular two frames in a row
    never both dispatch it. *)
Theorem moveend_once_per_stop (this : t) (poses : list Pose) (k : nat)
  (p0 p1 p2 : Pose)
  (H0 : poses !! k = Some p0) (H1 : poses !! S k = Some p1)
  (H2 : poses !! S (S k) = Some p2) :
  (frames equal this poses !! S (S k) = Some [moveend] <-> p2 = p1 /\ p1 <> p0) /\
  (frames equal this poses !! S (S k) = Some [] <-> ~ (p2 = p1 /\ p1 <> p0)) /\
  (forall p3, poses !! S (S (S k)) = Some p3 ->
     frames equal this poses !! S (S k) = Some [moveend] ->
     frames equal this poses !! S (S (S k)) = Some []).
Proof.
  assert (Hthird : forall k this poses p0 p1 p2,
            poses !! k = Some p0 -> poses !! S k = Some p1 ->
            poses !! S (S k) = Some p2 ->
            frames equal this poses !! S (S k)
            = Some (if same p1 p2 && negb (same p0 p1) then [moveend] else [])).
  { clear this poses k p0 p1 p2 H0 H1 H2.
    intros k. induction k as [| k IH]; intros this poses p0 p1 p2 H0 H1 H2.
    - destruct poses as [| q0 [| q1 [| q2 rest]]]; try discriminate.
      cbn in H0, H1, H2. injection H0 as ->. injection H1 as ->. injection H2 as ->.
      apply frames_third.
    - destruct poses as [| q poses]; [discriminate |].
      rewrite frames_lookup_S. apply IH; assumption. }
  assert (Hcond : forall p0 p1 p2,
            same p1 p2 && negb (same p0 p1) = true <-> p2 = p1 /\ p1 <> p0).
  { intros q0 q1 q2. rewrite andb_true_iff, negb_true_iff, same_spec.
    split.
    - intros [-> Hne]. split; [reflexivity |].
      intros ->. assert (Ht : same q0 q0 = true) by (apply same_spec; reflexivity).
      congruence.
    - intros [-> Hne]. split; [reflexivity |].
      destruct (same q0 q1) eqn:Hs; [| reflexivity].
      apply same_spec in Hs. congruence. }
  rewrite (Hthird k this poses p0 p1 p2 H0 H1 H2).
  split; [| split].
  - rewrite <- Hcond. destruct (same p1 p2 && negb (same p0 p1)); split;
      intros Hx; try reflexivity; try discriminate.
  - rewrite <- Hcond. destruct (same p1 p2 && negb (same p0 p1)); split;
      intros Hx; try reflexivity; try discriminate; try congruence.
  - intros p3 H3 Hev.
    rewrite (Hthird (S k) this poses p1 p2 p3 H1 H2 H3).
    destruct (same p1 p2 && negb (same p0 p1)) eqn:Hc; [| discriminate].
    apply Hcond in Hc. destruct Hc as [-> _].
    assert (Ht : same p1 p1 = true) by (apply same_spec; reflexivity).
    rewrite Ht, andb_false_r. reflexivity.
Qed.

End MoveEndFacts.

Lemma moveend_once_per_stop_witness :
  frames Z.eqb (mk (mkPose 0 0 0 0) 0 0 0 0 false)%Z
    [mkPose 1 0 0 0; mkPose 2 0 0 0; mkPose 2 0 0 0; mkPose 2 0 0 0]%Z !! 2%nat
  = Some [moveend].
Proof.
  refine (proj2 (proj1 (moveend_once_per_stop Z.eqb Z.eqb_eq
                          (mk (mkPose 0 0 0 0) 0 0 0 0 false)%Z
                          [mkPose 1 0 0 0; mkPose 2 0 0 0; mkPose 2 0 0 0;
                           mkPose 2 0 0 0]%Z
                          0 (mkPose 1 0 0 0)%Z (mkPose 2 0 0 0)%Z (mkPose 2 0 0 0)%Z
                          eq_refl eq_refl eq_refl)) _).
  split; [reflexivity | discriminate].
Defined.

End CameraMotionMore.

Module RendererEventsMore.

Import RendererEvents.

Local Open Scope Q_scope.

Lemma eventsOf_own (b b' : Button) (l : list Event) :
  Forall (fun e => buttonOf e = b') l ->
  eventsOf b l = if decide (b' = b) then l else [].
Proof.
  unfold eventsOf. induction l as [| e l IH]; intros Hl.
  - destruct (decide (b' = b)); reflexivity.
  - apply Forall_cons in Hl. destruct Hl as [He Hl].
    rewrite filter_cons, (IH Hl).
    destruct (decide (b' = b)) as [<- | Hne].
    + destruct (decide (buttonOf e = b')); [reflexivity | contradiction].
    + destruct (decide (buttonOf e = b)); [congruence | reflexivity].
Qed.

Lemma eventsOf_app (b : Button) (l1 l2 : list Event) :
  eventsOf b (l1 ++ l2) = eventsOf b l1 ++ eventsOf b l2.
Proof. apply filter_app. Qed.

Lemma eventsOf_phase (f : Button -> list Event) (b : Button) :
  (forall b', Forall (fun e => buttonOf e = b') (f b')) ->
  eventsOf b (flat_map f allButtons) = f b.
Proof.
  intros Hf. unfold allButtons. cbn [flat_map].
  rewrite !eventsOf_app.
  rewrite (eventsOf_own b MB_LEFT), (eventsOf_own b MB_RIGHT),
    (eventsOf_own b MB_MIDDLE) by apply Hf.
  change (eventsOf b []) with (@nil Event).
  destruct b; cbn; rewrite ?app_nil_r; reflexivity.
Qed.

(** The events of one button in a frame, in their order. *)
Lemma eventsOf_handleMouseEvents (this : t) (b : Button) :
  eventsOf b (handleMouseEvents this).2
  = (if buttonClick (button this b) then [click b] else [])
    ++ (if buttonDown (button this b)
        then (if buttonHold (button this b) then [hold b] else [down b])
        else [])
    ++ (if buttonUp (button this b) then [up b] else [])
    ++ (if buttonDoubleClick (button this b) then [dblclick b] else []).
Proof.
  unfold handleMouseEvents. cbn [snd].
  rewrite !eventsOf_app.
  rewrite !eventsOf_phase; [reflexivity | | | |]; intros b'.
  - destruct (buttonDoubleClick (button this b')); repeat constructor.
  - destruct (buttonUp (button this b')); repeat constructor.
  - destruct (buttonDown (button this b')), (buttonHold (button this b'));
      repeat constructor.
  - destruct (buttonClick (button this b')); repeat constructor.
Qed.

Lemma button_setButton (this : t) (b : Button) (s : ButtonState) :
  button (setButton this b s) b = s.
Proof.
  unfold setButton. cbn. destruct (decide (b = b)); [reflexivity | contradiction].
Qed.

(** *** A press and a release between two frames *)

Lemma released_frame (this : t) (b : Button) (x y t0 x' y' t1 now : Q) :
  idle this b ->
  let released :=
    onMouseUp (onMouseDown this (Some b) x y t0) (Some b) x' y' t1 now in
  let isClick :=
    RgbTerrain.Qlt_bool (Qabs (x - x')) (clickRadius this)
    && RgbTerrain.Qlt_bool (Qabs (y - y')) (clickRadius this)
    && Qle_bool (t1 - t0) (clickDelay this) in
  let isDouble :=
    isClick && truthy (_dblClkBegins (button this b))
    && Qle_bool (now - _dblClkBegins (button this b)) (doubleClickDelay this) in
  eventsOf b (handleMouseEvents released).2
  = (if isClick then [click b] else []) ++ [up b]
    ++ (if isDouble then [dblclick b] else []) /\
  idle (handleMouseEvents released).1 b /\
  _dblClkBegins (button (handleMouseEvents released).1 b)
  = (if isClick
     then (if truthy (_dblClkBegins (button this b)) then 0 else now)
     else _dblClkBegins (button this b)).
Proof.
  intros Hidle released isClick isDouble.
  destruct Hidle as (Hdown & Hhold & Hup & Hclick & Hdbl).
  rewrite eventsOf_handleMouseEvents.
  unfold released, onMouseUp, onMouseDown.
  rewrite button_setButton. cbn [_clickX _clickY _clkBegins _dblClkBegins
                                 buttonHold buttonUp buttonClick buttonDoubleClick
                                 setButton clickRadius clickDelay doubleClickDelay].
  fold isClick.
  unfold isDouble. destruct isClick; cbn [andb].
  - destruct (truthy (_dblClkBegins (button this b))); cbn [andb].
    + rewrite button_setButton. unfold idle. cbn.
      destruct (decide (b = b)); [| contradiction]. cbn.
      rewrite ?Hhold, ?Hdbl, ?Hclick.
      destruct (Qle_bool (now - _dblClkBegins (button this b)) (doubleClickDelay this));
        cbn; repeat split; reflexivity.
    + rewrite button_setButton. unfold idle. cbn.
      destruct (decide (b = b)); [| contradiction]. cbn.
      rewrite ?Hhold, ?Hdbl, ?Hclick. cbn. repeat split; reflexivity.
  - rewrite button_setButton. unfold idle. cbn.
    destruct (decide (b = b)); [| contradiction]. cbn.
    rewrite ?Hhold, ?Hclick, ?Hdbl. cbn. repeat split; reflexivity.
Qed.

(** X14: when a button that is idle is pressed and released between two
    frames, the next [handleMouseEvents] dispatches for it the up event,
    preceded by the click event exactly when the release is within the click
    radius of the press on both axes and within the click delay, and
    followed by a double click exactly when that click is within the
    double-click delay of a pending first click.  It never dispatches the
    down or hold event of the button, and it leaves the button idle. *)
Theorem press_and_release_in_one_frame (this : t) (b : Button)
  (x y t0 x' y' t1 now : Q) (Hidle : idle this b) :
  let released :=
    onMouseUp (onMouseDown this (Some b) x y t0) (Some b) x' y' t1 now in
  let isClick :=
    RgbTerrain.Qlt_bool (Qabs (x - x')) (clickRadius this)
    && RgbTerrain.Qlt_bool (Qabs (y - y')) (clickRadius this)
    && Qle_bool (t1 - t0) (clickDelay this) in
  let isDouble :=
    isClick && truthy (_dblClkBegins (button this b))
    && Qle_bool (now - _dblClkBegins (button this b)) (doubleClickDelay this) in
  eventsOf b (handleMouseEvents released).2
  = (if isClick then [click b] else []) ++ [up b]
    ++ (if isDouble then [dblclick b] else []) /\
  idle (handleMouseEvents released).1 b.
Proof.
  intros released isClick isDouble.
  destruct (released_frame this b x y t0 x' y' t1 now Hidle) as (Hev & Hid & _).
  split; assumption.
Qed.

Lemma press_and_release_in_one_frame_witness :
  eventsOf MB_LEFT
    (handleMouseEvents
       (onMouseUp (onMouseDown constructor (Some MB_LEFT) 10 10 1000)
          (Some MB_LEFT) 12 11 1100 1100)).2
  = [click MB_LEFT; up MB_LEFT].
Proof.
  refine (proj1 (press_and_release_in_one_frame constructor MB_LEFT
                   10 10 1000 12 11 1100 1100 _)).
  unfold idle. cbn. auto.
Defined.


(** *** Clicks in a row *)

Section ClickSeries.

Variables (b : Button) (x y : Q) (radius delay dblDelay : Q).
Hypothesis Hradius : 0 < radius.
Hypothesis Hdelay : 0 <= delay.

(** The handler's parameters are the given ones, the button is idle, and
    the pending first click, if any, was at the instant [pend]. *)
Let ready (s : t) (pend : option Q) : Prop :=
  clickRadius s = radius /\ clickDelay s = delay /\ doubleClickDelay s = dblDelay /\
  idle s b /\
  match pend with
  | Some t' => _dblClkBegins (button s b) = t' /\ ~ t' == 0
  | None => _dblClkBegins (button s b) == 0
  end.

Lemma Qabs_self (v : Q) : RgbTerrain.Qlt_bool (Qabs (v - v)) radius = true.
Proof.
  apply RgbTerrainSpec.Qlt_bool_iff.
  assert (Hz : Qabs (v - v) == 0).
  { assert (Hv : v - v == 0) by ring. rewrite Hv. reflexivity. }
  rewrite Hz. exact Hradius.
Qed.

Lemma clickAt_step (s : t) (pend : option Q) (now : Q) :
  ready s pend -> ~ now == 0 ->
  eventsOf b (clickAt s b x y now).2
  = [click b; up b]
    ++ match pend with
       | Some t' => if Qle_bool (now - t') dblDelay then [dblclick b] else []
       | None => []
       end /\
  ready (clickAt s b x y now).1 (match pend with Some _ => None | None => Some now end).
Proof.
  intros (Hr & Hd & Hdd & Hidle & Hpend) Hnow.
  destruct (released_frame s b x y now x y now now Hidle) as (Hev & Hid & Hdbl).
  cbv zeta in Hev, Hid, Hdbl. fold (clickAt s b x y now) in Hev, Hid, Hdbl.
  rewrite Hr, Hd, Hdd in Hev. rewrite Hr, Hd in Hdbl.
  rewrite !Qabs_self in Hev, Hdbl.
  assert (Hq : Qle_bool (now - now) delay = true).
  { apply Qle_bool_iff. assert (Hv : now - now == 0) by ring. rewrite Hv. exact Hdelay. }
  rewrite Hq in Hev, Hdbl. cbn [andb] in Hev, Hdbl.
  assert (Hparams : clickRadius (clickAt s b x y now).1 = radius /\
                    clickDelay (clickAt s b x y now).1 = delay /\
                    doubleClickDelay (clickAt s b x y now).1 = dblDelay).
  { unfold clickAt, handleMouseEvents, onMouseUp, onMouseDown; cbn.
    match goal with
    | |- context [if ?c then _ else _] => destruct c
    end; cbn; auto.
    match goal with
    | |- context [if ?c then _ else _] => destruct c
    end; cbn; auto. }
  destruct Hparams as (Hr' & Hd' & Hdd').
  destruct pend as [t' |].
  - destruct Hpend as [Ht' Hnz].
    assert (Htr : truthy (_dblClkBegins (button s b)) = true).
    { unfold truthy. rewrite Ht'. apply negb_true_iff.
      destruct (Qeq_bool t' 0) eqn:Hb; [| reflexivity].
      apply Qeq_bool_iff in Hb. contradiction. }
    rewrite Htr in Hev, Hdbl. cbn [andb] in Hev. rewrite Ht' in Hev.
    split; [exact Hev |].
    repeat split; try assumption; try apply Hid.
    rewrite Hdbl. reflexivity.
  - assert (Htr : truthy (_dblClkBegins (button s b)) = false).
    { unfold truthy. apply negb_false_iff. apply Qeq_bool_iff. exact Hpend. }
    rewrite Htr in Hev, Hdbl. cbn [andb] in Hev.
    split; [exact Hev |].
    repeat split; try assumption; try apply Hid.
Qed.

Lemma clicks_lookup (times : list Q) :
  forall (s : t) (pend : option Q) (i : nat) (now : Q),
    ready s pend -> Forall (fun v => ~ v == 0) times ->
    times !! i = Some now ->
    let second := match pend with Some _ => Nat.even i | None => Nat.odd i end in
    let previous := match i with O => pend | S j => times !! j end in
    (eventsOf b <$> clicks s b x y times) !! i
    = Some ([click b; up b]
            ++ if second
               then match previous with
                    | Some t' => if Qle_bool (now - t') dblDelay then [dblclick b] else []
                    | None => []
                    end
               else []).
Proof.
  induction times as [| t0 times IH]; intros s pend i now Hready Hnz Hi;
    [discriminate |].
  apply Forall_cons in Hnz. destruct Hnz as [Hnz0 Hnz].
  destruct (clickAt_step s pend t0 Hready Hnz0) as [Hev Hready'].
  cbn [clicks]. destruct (clickAt s b x y t0) as [s' events] eqn:Hc.
  cbn [fst snd] in Hev, Hready'. rewrite fmap_cons.
  destruct i as [| i].
  - cbn in Hi. injection Hi as <-. cbn [lookup list_lookup]. rewrite Hev.
    destruct pend; reflexivity.
  - cbn in Hi. cbn [lookup list_lookup].
    change ((eventsOf b <$> clicks s' b x y times) !! i
            = Some ([click b; up b]
                    ++ if match pend with Some _ => Nat.even (S i) | None => Nat.odd (S i) end
                       then match (t0 :: times) !! i with
                            | Some t' =>
                                if Qle_bool (now - t') dblDelay then [dblclick b] else []
                            | None => []
                            end
                       else [])).
    rewrite (IH s' _ i now Hready' Hnz Hi). cbv zeta.
    f_equal. f_equal.
    destruct pend as [t' |].
    + rewrite Nat.even_succ.
      destruct i as [| j]; [reflexivity |].
      destruct (Nat.odd (S j)); reflexivity.
    + rewrite Nat.odd_succ.
      destruct i as [| j]; [reflexivity |].
      destruct (Nat.even (S j)); reflexivity.
Qed.

End ClickSeries.

(** X15: clicks of one button at one place, each a press and a release
    between two frames, are paired as they come: for a handler with a
    positive click radius, a click delay that is not negative and no
    pending first click, every click dispatches the click and the up event,
    and the double click is dispatched with the second, fourth, sixth ...
    click exactly when it is within the double-click delay of the click
    before it.  A second click that comes too late still ends its pair, so
    the click after it never gives a double click. *)
Theorem double_click_pairs (this : t) (b : Button) (x y : Q) (times : list Q)
  (i : nat) (now : Q)
  (Hradius : 0 < clickRadius this) (Hdelay : 0 <= clickDelay this)
  (Hidle : idle this b) (Hfresh : _dblClkBegins (button this b) == 0)
  (Htimes : Forall (fun v => ~ v == 0) times)
  (Hi : times !! i = Some now) :
  (eventsOf b <$> clicks this b x y times) !! i
  = Some ([click b; up b]
          ++ if Nat.odd i
             then match times !! (i - 1)%nat with
                  | Some t' =>
                      if Qle_bool (now - t') (doubleClickDelay this)
                      then [dblclick b] else []
                  | None => []
                  end
             else []).
Proof.
  rewrite (clicks_lookup b x y (clickRadius this) (clickDelay this) (doubleClickDelay this)
             Hradius Hdelay times this None i now); [| | exact Htimes | exact Hi].
  - cbv zeta. destruct i as [| j]; [reflexivity |].
    cbn [Nat.sub]. rewrite Nat.sub_0_r. reflexivity.
  - repeat split; try reflexivity; try apply Hidle. exact Hfresh.
Qed.

Lemma double_click_pairs_witness :
  (eventsOf MB_LEFT <$> clicks constructor MB_LEFT 10 10 [1000; 1300; 1400]) !! 2%nat
  = Some [click MB_LEFT; up MB_LEFT].
Proof.
  refine (double_click_pairs constructor MB_LEFT 10 10 [1000; 1300; 1400] 2 1400
            _ _ _ _ _ _).
  - reflexivity.
  - discriminate.
  - unfold idle. cbn. auto.
  - reflexivity.
  - repeat (apply Forall_cons_2; [discriminate |]). apply Forall_nil_2.
  - reflexivity.
Defined.

(** *** A button held while the pointer moves *)

Section Drag.

Variable b : Button.

Let held (s : t) (h : bool) : Prop :=
  buttonDown (button s b) = true /\ buttonHold (button s b) = h /\
  buttonUp (button s b) = false /\ buttonClick (button s b) = false /\
  buttonDoubleClick (button s b) = false.

Let quiet (s : t) : Prop :=
  buttonUp (button s b) = false /\ buttonClick (button s b) = false /\
  buttonDoubleClick (button s b) = false.

Let pressed (m : Z * Q * Q) : Prop := Z.land m.1.1 (mask b) <> 0%Z.
Let released (m : Z * Q * Q) : Prop := Z.land m.1.1 (mask b) = 0%Z.

Let moveAll (s : t) (moves : list (Z * Q * Q)) : t :=
  foldl (fun s '(buttons, ex, ey) => onMouseMove s buttons ex ey) s moves.

Lemma onMouseMove_flags (s : t) (m : Z) (ex ey : Q) :
  let s1 := button (updateButtonsStates s m) b in
  let s2 := button (onMouseMove s m ex ey) b in
  buttonDown s2 = buttonDown s1 /\ buttonHold s2 = buttonHold s1 /\
  buttonUp s2 = buttonUp s1 /\ buttonClick s2 = buttonClick s1 /\
  buttonDoubleClick s2 = buttonDoubleClick s1.
Proof.
  cbv zeta. unfold onMouseMove. cbn [button].
  match goal with
  | |- context [if ?c then _ else _] => destruct c
  end; cbn; auto.
Qed.

Lemma onMouseMove_held (s : t) (h : bool) (m : Z) (ex ey : Q) :
  held s h -> Z.land m (mask b) <> 0%Z -> held (onMouseMove s m ex ey) h.
Proof.
  intros (Hd & Hh & Hu & Hc & Hdc) Hm. unfold held.
  destruct (onMouseMove_flags s m ex ey) as (-> & -> & -> & -> & ->).
  unfold updateButtonsStates. cbn [button].
  rewrite Hd. destruct (Z.eqb_spec (Z.land m (mask b)) 0); [contradiction |].
  cbn. auto.
Qed.

Lemma onMouseMove_quiet (s : t) (m : Z) (ex ey : Q) :
  quiet s -> quiet (onMouseMove s m ex ey).
Proof.
  intros (Hu & Hc & Hdc). unfold quiet.
  destruct (onMouseMove_flags s m ex ey) as (_ & _ & -> & -> & ->).
  unfold updateButtonsStates. cbn [button].
  match goal with
  | |- context [if ?c then _ else _] => destruct c
  end; cbn; auto.
Qed.

Lemma onMouseMove_idle (s : t) (m : Z) (ex ey : Q) :
  idle s b -> idle (onMouseMove s m ex ey) b.
Proof.
  intros (Hd & Hh & Hu & Hc & Hdc).
  unfold idle.
  destruct (onMouseMove_flags s m ex ey) as (-> & -> & -> & -> & ->).
  unfold updateButtonsStates. cbn [button].
  rewrite Hd, andb_false_r. cbn. auto.
Qed.

Lemma onMouseMove_released (s : t) (m : Z) (ex ey : Q) :
  quiet s -> Z.land m (mask b) = 0%Z -> idle (onMouseMove s m ex ey) b.
Proof.
  intros (Hu & Hc & Hdc) Hm.
  unfold idle.
  destruct (onMouseMove_flags s m ex ey) as (-> & -> & -> & -> & ->).
  unfold updateButtonsStates. cbn [button].
  rewrite Hm. cbn. auto.
Qed.

Lemma moveAll_held (moves : list (Z * Q * Q)) :
  forall s h, held s h -> Forall pressed moves -> held (moveAll s moves) h.
Proof.
  induction moves as [| [[m ex] ey] moves IH]; intros s h Hs Hall; [exact Hs |].
  apply Forall_cons in Hall. destruct Hall as [Hm Hall].
  unfold moveAll. cbn [foldl]. apply IH; [| exact Hall].
  apply onMouseMove_held; [exact Hs | exact Hm].
Qed.

Lemma moveAll_idle (moves : list (Z * Q * Q)) :
  forall s, idle s b -> idle (moveAll s moves) b.
Proof.
  induction moves as [| [[m ex] ey] moves IH]; intros s Hs; [exact Hs |].
  unfold moveAll. cbn [foldl]. apply IH. apply onMouseMove_idle. exact Hs.
Qed.

Lemma moveAll_released (moves : list (Z * Q * Q)) :
  forall s, quiet s -> Exists released moves -> idle (moveAll s moves) b.
Proof.
  induction moves as [| [[m ex] ey] moves IH]; intros s Hs Hex.
  - apply Exists_nil in Hex. contradiction.
  - apply Exists_cons in Hex. unfold moveAll. cbn [foldl].
    destruct Hex as [Hm | Hex].
    + apply moveAll_idle. apply onMouseMove_released; [exact Hs | exact Hm].
    + apply IH; [| exact Hex]. apply onMouseMove_quiet. exact Hs.
Qed.

Lemma handleMouseEvents_held (s : t) (h : bool) :
  held s h ->
  eventsOf b (handleMouseEvents s).2 = [if h then hold b else down b] /\
  held (handleMouseEvents s).1 true.
Proof.
  intros (Hd & Hh & Hu & Hc & Hdc).
  rewrite eventsOf_handleMouseEvents, Hd, Hh, Hu, Hc, Hdc.
  split; [destruct h; reflexivity |].
  unfold held, handleMouseEvents. cbn. rewrite Hd, Hu. auto.
Qed.

Lemma handleMouseEvents_idle (s : t) :
  idle s b ->
  eventsOf b (handleMouseEvents s).2 = [] /\ idle (handleMouseEvents s).1 b.
Proof.
  intros (Hd & Hh & Hu & Hc & Hdc).
  rewrite eventsOf_handleMouseEvents, Hd, Hu, Hc, Hdc.
  split; [reflexivity |].
  unfold idle, handleMouseEvents. cbn. rewrite Hd, Hh, Hu. auto.
Qed.

Lemma dragFrames_cons (s : t) (moves : list (Z * Q * Q)) (rest : list (list (Z * Q * Q))) :
  dragFrames s (moves :: rest)
  = (handleMouseEvents (moveAll s moves)).2
    :: dragFrames (handleMouseEvents (moveAll s moves)).1 rest.
Proof.
  cbn [dragFrames]. fold (moveAll s moves).
  destruct (handleMouseEvents (moveAll s moves)). reflexivity.
Qed.

Lemma dragFrames_idle (frames : list (list (Z * Q * Q))) :
  forall s, idle s b ->
    eventsOf b <$> dragFrames s frames = (fun _ => []) <$> frames.
Proof.
  induction frames as [| moves frames IH]; intros s Hs; [reflexivity |].
  rewrite dragFrames_cons, !fmap_cons.
  destruct (handleMouseEvents_idle (moveAll s moves) (moveAll_idle moves s Hs))
    as [-> Hidle'].
  rewrite (IH _ Hidle'). reflexivity.
Qed.

Lemma dragFrames_held (heldFrames dropped : list (list (Z * Q * Q))) :
  forall s h,
    held s h -> Forall (Forall pressed) heldFrames ->
    match dropped with
    | [] => True
    | moves :: _ => Exists released moves
    end ->
    eventsOf b <$> dragFrames s (heldFrames ++ dropped)
    = match heldFrames with
      | [] => []
      | _ :: rest => [if h then hold b else down b] :: ((fun _ => [hold b]) <$> rest)
      end ++ ((fun _ => []) <$> dropped).
Proof.
  induction heldFrames as [| moves heldFrames IH]; intros s h Hs Hall Hdrop.
  - cbn [app]. destruct dropped as [| moves dropped]; [reflexivity |].
    assert (Hq : quiet s) by (destruct Hs as (_ & _ & Hu & Hc & Hdc); repeat split; assumption).
    rewrite dragFrames_cons, !fmap_cons.
    destruct (handleMouseEvents_idle _ (moveAll_released moves s Hq Hdrop)) as [-> Hidle'].
    rewrite (dragFrames_idle dropped _ Hidle'). reflexivity.
  - apply Forall_cons in Hall. destruct Hall as [Hmoves Hall].
    rewrite <- app_comm_cons, dragFrames_cons, fmap_cons.
    destruct (handleMouseEvents_held _ h (moveAll_held moves s h Hs Hmoves)) as [-> Hheld'].
    rewrite (IH _ true Hheld' Hall Hdrop).
    destruct heldFrames; reflexivity.
Qed.

(** X16: a button that is idle is pressed, and frames follow in which the
    pointer at most moves.  While every move event reports the button as
    pressed, the first frame dispatches the down event of the button and
    every later frame its hold event, and nothing else for it.  From the
    first frame with a move event that reports the button as released, no
    event of the button is dispatched any more: its up event is never
    dispatched without a mouse-up. *)
Theorem press_then_hold (this : t) (x y now : Q)
  (heldFrames dropped : list (list (Z * Q * Q)))
  (Hidle : idle this b)
  (Hheld : Forall (Forall (fun m => Z.land m.1.1 (mask b) <> 0%Z)) heldFrames)
  (Hdropped : match dropped with
              | [] => True
              | moves :: _ => Exists (fun m => Z.land m.1.1 (mask b) = 0%Z) moves
              end) :
  eventsOf b <$> dragFrames (onMouseDown this (Some b) x y now) (heldFrames ++ dropped)
  = match heldFrames with
    | [] => []
    | _ :: rest => [down b] :: ((fun _ => [hold b]) <$> rest)
    end ++ ((fun _ => []) <$> dropped).
Proof.
  apply (dragFrames_held heldFrames dropped _ false); [| exact Hheld | exact Hdropped].
  destruct Hidle as (Hd & Hh & Hu & Hc & Hdc).
  unfold held, onMouseDown. rewrite button_setButton. cbn. auto.
Qed.

End Drag.

Lemma press_then_hold_witness :
  eventsOf MB_LEFT
  <$> dragFrames (onMouseDown constructor (Some MB_LEFT) 10 10 1000)
        ([[]; [(1%Z, 11, 10)]; [(1%Z, 30, 40); (3%Z, 31, 40)]] ++ [[(2%Z, 32, 40)]; []])
  = [[down MB_LEFT]; [hold MB_LEFT]; [hold MB_LEFT]; []; []].
Proof.
  refine (press_then_hold MB_LEFT constructor 10 10 1000
            [[]; [(1%Z, 11, 10)]; [(1%Z, 30, 40); (3%Z, 31, 40)]]
            [[(2%Z, 32, 40)]; []] _ _ _).
  - unfold idle. cbn. auto.
  - repeat (apply Forall_cons_2; [repeat (apply Forall_cons_2; [discriminate |]);
                                  apply Forall_nil_2 |]).
    apply Forall_nil_2.
  - apply Exists_cons_hd. reflexivity.
Defined.

(** *** Taps in a row *)

Section TapSeries.

Variables (x y : Q).

(** No touch flag is set, and the previous tap, if any, ended at [pend]. *)
Let rested (ts : TouchState) (pend : option Q) : Prop :=
  touchStart ts = false /\ touchEnd ts = false /\ touchCancel ts = false /\
  doubleTouch ts = false /\ touchMoving ts = false /\
  match pend with
  | Some t' => _dblTchBegins ts = t' /\ ~ t' == 0
  | None => _dblTchBegins ts == 0
  end.

Lemma tapAt_step (ts : TouchState) (pend : option Q) (now : Q) :
  rested ts pend -> ~ now == 0 ->
  (tapAt ts x y now).2
  = [touchstart]
    ++ match pend with
       | Some t' =>
           if Qle_bool (now - t') (doubleTouchDelay ts) then [doubletouch] else []
       | None => []
       end
    ++ [touchend] /\
  rested (tapAt ts x y now).1 (Some now) /\
  doubleTouchDelay (tapAt ts x y now).1 = doubleTouchDelay ts.
Proof.
  intros (Hs & He & Hc & Hd & Hm & Hpend) Hnow.
  unfold tapAt, handleTouchEvents, onTouchEnd, onTouchStart, rested. cbn.
  rewrite Hc, Hd, Hm. cbn.
  destruct pend as [t' |].
  - destruct Hpend as [-> Hnz].
    assert (Htr : truthy t' = true).
    { unfold truthy. apply negb_true_iff.
      destruct (Qeq_bool t' 0) eqn:Hb; [| reflexivity].
      apply Qeq_bool_iff in Hb. contradiction. }
    rewrite Htr.
    destruct (Qle_bool (now - t') (doubleTouchDelay ts)); cbn; repeat split; auto.
  - assert (Htr : truthy (_dblTchBegins ts) = false).
    { unfold truthy. apply negb_false_iff. apply Qeq_bool_iff. exact Hpend. }
    rewrite Htr. cbn. repeat split; auto.
Qed.

Lemma taps_lookup (times : list Q) :
  forall (ts : TouchState) (pend : option Q) (i : nat) (now : Q),
    rested ts pend -> Forall (fun v => ~ v == 0) times ->
    times !! i = Some now ->
    taps ts x y times !! i
    = Some ([touchstart]
            ++ match (match i with O => pend | S j => times !! j end) with
               | Some t' =>
                   if Qle_bool (now - t') (doubleTouchDelay ts) then [doubletouch] else []
               | None => []
               end
            ++ [touchend]).
Proof.
  induction times as [| t0 times IH]; intros ts pend i now Hrested Hnz Hi;
    [discriminate |].
  apply Forall_cons in Hnz. destruct Hnz as [Hnz0 Hnz].
  destruct (tapAt_step ts pend t0 Hrested Hnz0) as (Hev & Hrested' & Hdelay).
  cbn [taps]. destruct (tapAt ts x y t0) as [ts' events] eqn:Ht.
  cbn [fst snd] in Hev, Hrested', Hdelay.
  destruct i as [| i].
  - cbn in Hi. injection Hi as <-. cbn [lookup list_lookup]. rewrite Hev. reflexivity.
  - cbn in Hi.
    change ((t0 :: times) !! i) with
      (match i with O => Some t0 | S j => times !! j end).
    change ((events :: taps ts' x y times) !! S i) with (taps ts' x y times !! i).
    rewrite (IH ts' (Some t0) i now Hrested' Hnz Hi), Hdelay. reflexivity.
Qed.

End TapSeries.

(** X23: taps of one finger at one place, each between two frames, chain:
    every tap dispatches the touch start and the touch end, and from the
    second tap on the double touch is dispatched in between exactly when the
    tap ends within the double-touch delay of the end of the tap before it.
    Unlike the double click, a double touch does not end a pair: three quick
    taps give two double touches. *)
Theorem double_touch_chains (x y : Q) (times : list Q) (i : nat) (now : Q)
  (Htimes : Forall (fun v => ~ v == 0) times)
  (Hi : times !! i = Some now) :
  taps touchConstructor x y times !! i
  = Some ([touchstart]
          ++ match i with
             | O => []
             | S j =>
                 match times !! j with
                 | Some t' =>
                     if Qle_bool (now - t') (doubleTouchDelay touchConstructor)
                     then [doubletouch] else []
                 | None => []
                 end
             end
          ++ [touchend]).
Proof.
  rewrite (taps_lookup x y times touchConstructor None i now); [| | exact Htimes | exact Hi].
  - destruct i; reflexivity.
  - cbn. repeat split; reflexivity.
Qed.

Lemma double_touch_chains_witness :
  taps touchConstructor 10 10 [1000; 1300; 1400] !! 2%nat
  = Some [touchstart; doubletouch; touchend].
Proof.
  refine (double_touch_chains 10 10 [1000; 1300; 1400] 2 1400 _ _).
  - repeat (apply Forall_cons_2; [discriminate |]). apply Forall_nil_2.
  - reflexivity.
Defined.
End RendererEventsMore.

Module PlanetLayersMore.

Import PlanetLayers.

Local Open Scope Q_scope.

(** *** Sorting with a comparison function *)

Section SortFacts.

Context {A : Type} (compareFn : A -> A -> Q).

Let le (a b : A) : Prop := compareFn a b <= 0.

Hypothesis total : forall a b, le a b \/ le b a.
Hypothesis trans : forall a b c, le a b -> le b c -> le a c.

Lemma sortInsert_perm (x : A) (l : list A) : sortInsert compareFn x l ≡ₚ x :: l.
Proof using Type.
  induction l as [| y rest IH]; [reflexivity |].
  cbn. destruct (Qle_bool (compareFn x y) 0); [reflexivity |].
  rewrite IH. apply Permutation_swap.
Qed.

Lemma jsSort_perm (l : list A) : jsSort compareFn l ≡ₚ l.
Proof using Type.
  induction l as [| x l IH]; [reflexivity |].
  cbn. rewrite sortInsert_perm. constructor. exact IH.
Qed.

Lemma sortInsert_sorted (x : A) (l : list A) :
  StronglySorted le l -> StronglySorted le (sortInsert compareFn x l).
Proof using total trans.
  induction l as [| y rest IH]; intros Hs.
  - cbn. constructor; constructor.
  - cbn. apply StronglySorted_inv in Hs. destruct Hs as [Hrest Hy].
    destruct (Qle_bool (compareFn x y) 0) eqn:E.
    + apply Qle_bool_iff in E.
      constructor; [constructor; assumption |].
      constructor; [exact E |].
      eapply Forall_impl; [exact Hy |]. intros z Hz. exact (trans x y z E Hz).
    + assert (Hyx : le y x).
      { destruct (total x y) as [H | H]; [| exact H].
        apply Qle_bool_iff in H. unfold le in *. congruence. }
      constructor; [apply IH; exact Hrest |].
      rewrite sortInsert_perm. constructor; assumption.
Qed.

Lemma jsSort_sorted (l : list A) : StronglySorted le (jsSort compareFn l).
Proof using total trans.
  induction l as [| x l IH]; [constructor |].
  cbn. apply sortInsert_sorted. exact IH.
Qed.

(** Stability: elements none of which goes after another keep their
    order. *)
Lemma sortInsert_stable (P : A -> bool) (x : A) (l : list A) :
  (forall a b, P a = true -> P b = true -> le a b) ->
  filter (fun a => P a = true) (sortInsert compareFn x l)
  = filter (fun a => P a = true) (x :: l).
Proof using Type.
  intros Hclass.
  induction l as [| y rest IH]; [reflexivity |].
  cbn [sortInsert]. destruct (Qle_bool (compareFn x y) 0) eqn:E; [reflexivity |].
  rewrite filter_cons, IH, !filter_cons.
  destruct (decide (P y = true)) as [Hy | Hy], (decide (P x = true)) as [Hx | Hx];
    try reflexivity.
  exfalso. pose proof (Hclass x y Hx Hy) as Hle.
  apply Qle_bool_iff in Hle. congruence.
Qed.

Lemma jsSort_stable (P : A -> bool) (l : list A) :
  (forall a b, P a = true -> P b = true -> le a b) ->
  filter (fun a => P a = true) (jsSort compareFn l) = filter (fun a => P a = true) l.
Proof using Type.
  intros Hclass.
  induction l as [| x l IH]; [reflexivity |].
  cbn [jsSort foldr]. rewrite (sortInsert_stable P x _ Hclass).
  rewrite !filter_cons. fold (jsSort compareFn l). rewrite IH. reflexivity.
Qed.

End SortFacts.

Lemma js_or_le (a b : Q) : js_or a b <= 0 <-> a < 0 \/ (a == 0 /\ b <= 0).
Proof.
  unfold js_or. destruct (Qeq_bool a 0) eqn:E.
  - apply Qeq_bool_iff in E. split; [intros H; right; split; assumption |].
    intros [H | [_ H]]; [rewrite E in H; exfalso; exact (Qlt_irrefl 0 H) | exact H].
  - apply Qeq_bool_neq in E. split.
    + intros H. left. apply Qle_lt_or_eq in H. destruct H as [H | H]; [exact H | contradiction].
    + intros [H | [H _]]; [apply Qlt_le_weak; exact H | contradiction].
Qed.

Section LayersFacts.

Context {Char : Type}.
Variables divOpen divClose : list Char.

(** The order of the tile layers and the order of the vector layers. *)
Let tileLe (a b : @Layer Char) : Prop :=
  getHeight a < getHeight b \/ (getHeight a == getHeight b /\ getZIndex a <= getZIndex b).
Let vectorLe (a b : @Layer Char) : Prop :=
  getZIndex a < getZIndex b \/ (getZIndex a == getZIndex b /\ getHeight a <= getHeight b).

Lemma compareTileLayers_le (a b : @Layer Char) :
  compareTileLayers a b <= 0 <-> tileLe a b.
Proof using Type.
  unfold compareTileLayers, tileLe. rewrite js_or_le.
  split; intros [H | [H1 H2]]; [left | right; split | left | right; split]; lra.
Qed.

Lemma compareVectorLayers_le (a b : @Layer Char) :
  compareVectorLayers a b <= 0 <-> vectorLe a b.
Proof using Type.
  unfold compareVectorLayers, vectorLe. rewrite js_or_le.
  split; intros [H | [H1 H2]]; [left | right; split | left | right; split]; lra.
Qed.

Lemma tileLe_total (a b : @Layer Char) : tileLe a b \/ tileLe b a.
Proof using Type.
  unfold tileLe.
  destruct (Q_dec (getHeight a) (getHeight b)) as [[H | H] | H]; [tauto | tauto |].
  destruct (Qlt_le_dec (getZIndex b) (getZIndex a)) as [Hz | Hz].
  - right. right. split; [symmetry; exact H | apply Qlt_le_weak; exact Hz].
  - left. right. split; assumption.
Qed.

Lemma tileLe_trans (a b c : @Layer Char) : tileLe a b -> tileLe b c -> tileLe a c.
Proof using Type.
  unfold tileLe. intros [H1 | [H1 H1']] [H2 | [H2 H2']].
  - left. lra.
  - left. lra.
  - left. lra.
  - right. split; lra.
Qed.

Lemma vectorLe_total (a b : @Layer Char) : vectorLe a b \/ vectorLe b a.
Proof using Type.
  unfold vectorLe.
  destruct (Q_dec (getZIndex a) (getZIndex b)) as [[H | H] | H]; [tauto | tauto |].
  destruct (Qlt_le_dec (getHeight b) (getHeight a)) as [Hz | Hz].
  - right. right. split; [symmetry; exact H | apply Qlt_le_weak; exact Hz].
  - left. right. split; assumption.
Qed.

Lemma vectorLe_trans (a b c : @Layer Char) : vectorLe a b -> vectorLe b c -> vectorLe a c.
Proof using Type.
  unfold vectorLe. intros [H1 | [H1 H1']] [H2 | [H2 H2']].
  - left. lra.
  - left. lra.
  - left. lra.
  - right. split; lra.
Qed.

Lemma sameRank_tileLe (h z : Q) (a b : @Layer Char) :
  sameRank h z a = true -> sameRank h z b = true -> tileLe a b /\ vectorLe a b.
Proof using Type.
  unfold sameRank, tileLe, vectorLe. intros Ha Hb.
  apply andb_true_iff in Ha. apply andb_true_iff in Hb.
  destruct Ha as [Ha1 Ha2], Hb as [Hb1 Hb2].
  apply Qeq_bool_iff in Ha1, Ha2, Hb1, Hb2.
  split; right; split; lra.
Qed.

Lemma StronglySorted_iff {A : Type} (R R' : A -> A -> Prop) (l : list A) :
  (forall a b, R a b -> R' a b) -> StronglySorted R l -> StronglySorted R' l.
Proof using Type.
  intros HR Hs. induction Hs as [| x l Hs IH Hx]; constructor; [exact IH |].
  eapply Forall_impl; [exact Hx |]. intros y. apply HR.
Qed.

Lemma filter_snoc_bool {A : Type} (P : A -> Prop) `{forall x, Decision (P x)}
  (l : list A) (x : A) :
  filter P (l ++ [x]) = filter P l ++ (if decide (P x) then [x] else []).
Proof using Type.
  rewrite filter_app. f_equal.
Qed.

(** The loop of [_updateVisibleLayers] keeps the layers in the order of the
    layer list. *)
Lemma collectVisibleLayers_lists (this : @Visible Char) (layers : list (@Layer Char)) :
  let v := collectVisibleLayers divOpen divClose this layers in
  visibleTileLayers v
  = filter (fun li => shown li = true /\ hasImageryTiles li = true) layers /\
  visibleVectorLayers v
  = filter (fun li => shown li = true /\ isVector li = true) layers /\
  html v = updateAttributionsList divOpen divClose layers /\
  baseLayer v
  = match last (filter (fun li => getVisibility li = true /\ isBaseLayer li = true)
                  layers) with
    | Some li => Some li
    | None => baseLayer this
    end.
Proof using Type.
  cbv zeta. unfold collectVisibleLayers, updateAttributionsList.
  induction layers as [| li layers IH] using rev_ind.
  - cbn. auto.
  - rewrite !foldl_snoc, !filter_snoc_bool.
    destruct IH as (IHt & IHv & IHh & IHb).
    unfold shown.
    destruct (getVisibility li) eqn:Hvis; cbn [orb].
    + cbn [visibleTileLayers visibleVectorLayers html baseLayer].
      rewrite IHt, IHv, IHh, IHb.
      destruct (hasImageryTiles li), (isVector li), (isBaseLayer li),
        (nonEmpty (getAttribution li));
        repeat match goal with
               | |- context [decide ?P] => destruct (decide P) as [[? ?] | ?]
               end;
        try discriminate;
        rewrite ?app_nil_r, ?last_snoc;
        repeat split; try reflexivity;
        try (exfalso; auto; fail).
    + destruct (_fading li && RgbTerrain.Qlt_bool 0 (_fadingOpacity li)) eqn:Hf.
      * cbn [visibleTileLayers visibleVectorLayers html baseLayer].
        rewrite IHt, IHv, IHh, IHb.
        destruct (hasImageryTiles li), (isVector li);
          repeat match goal with
                 | |- context [decide ?P] => destruct (decide P) as [[? ?] | ?]
                 end;
          try discriminate;
          rewrite ?app_nil_r;
          repeat split; try reflexivity;
          try (exfalso; auto; fail).
      * rewrite IHt, IHv, IHh, IHb.
        repeat match goal with
               | |- context [decide ?P] => destruct (decide P) as [[? ?] | ?]
               end;
          try discriminate;
          rewrite ?app_nil_r;
          repeat split; reflexivity.
Qed.

(** The groups of [_sortLayers]. *)
Lemma groupByDepthOrder_lookup (vectors : list (@Layer Char)) (k : Z) :
  default [] (groupByDepthOrder vectors !! k)
  = filter (fun vi => depthOrder vi = k) vectors /\
  (is_Some (groupByDepthOrder vectors !! k)
   <-> k = 0%Z \/ exists vi, vi ∈ vectors /\ depthOrder vi = k).
Proof using Type.
  unfold groupByDepthOrder.
  induction vectors as [| vi vectors IH] using rev_ind.
  - cbn. destruct (decide (k = 0%Z)) as [-> | Hk].
    + rewrite lookup_singleton_eq. split; [reflexivity |].
      split; [intros _; left; reflexivity | intros _; eexists; reflexivity].
    + rewrite lookup_singleton_ne by congruence. split; [reflexivity |].
      split; [intros [x Hx]; discriminate |].
      intros [H | (vi & Hvi & _)]; [contradiction | inversion Hvi].
  - rewrite foldl_snoc, filter_snoc_bool. destruct IH as [IHv IHs].
    destruct (decide (depthOrder vi = k)) as [Hd | Hd].
    + rewrite Hd, lookup_insert_eq. cbn. rewrite IHv.
      split; [reflexivity |].
      split; [| intros _; eexists; reflexivity].
      intros _. right. exists vi. split; [| exact Hd].
      apply elem_of_app. right. apply list_elem_of_singleton. reflexivity.
    + rewrite lookup_insert_ne by exact Hd. rewrite app_nil_r.
      split; [exact IHv |].
      rewrite IHs. split.
      * intros [H | (x & Hx & Hxk)]; [left; exact H |].
        right. exists x. split; [apply elem_of_app; left; exact Hx | exact Hxk].
      * intros [H | (x & Hx & Hxk)]; [left; exact H |].
        apply elem_of_app in Hx. destruct Hx as [Hx | Hx].
        -- right. exists x. split; assumption.
        -- apply list_elem_of_singleton in Hx. subst x. contradiction.
Qed.

Lemma compareKeys_le (a b : Z) : inject_Z a - inject_Z b <= 0 <-> (a <= b)%Z.
Proof using Type.
  rewrite Zle_Qle. split; intros H; lra.
Qed.

Lemma sortedKeys (keys : list Z) :
  NoDup keys ->
  let sorted := jsSort (fun a b => inject_Z a - inject_Z b) keys in
  StronglySorted Z.lt sorted /\ (forall k, k ∈ sorted <-> k ∈ keys).
Proof using Type.
  intros Hnd sorted.
  assert (Hperm : sorted ≡ₚ keys) by apply jsSort_perm.
  split; [| intros k; rewrite Hperm; reflexivity].
  assert (Hs : StronglySorted Z.le sorted).
  { eapply StronglySorted_iff;
      [| apply (jsSort_sorted (fun a b : Z => inject_Z a - inject_Z b))].
    - intros a b H. apply compareKeys_le. exact H.
    - intros a b. rewrite !compareKeys_le. lia.
    - intros a b c. rewrite !compareKeys_le. lia. }
  assert (Hnd' : NoDup sorted) by (rewrite Hperm; exact Hnd).
  clear Hperm. induction Hs as [| x l Hs IH Hx]; [constructor |].
  apply NoDup_cons in Hnd'. destruct Hnd' as [Hnot Hnd'].
  constructor; [apply IH; exact Hnd' |].
  apply Forall_forall. intros y Hy.
  rewrite Forall_forall in Hx. specialize (Hx y Hy).
  assert (x <> y) by (intros ->; contradiction). lia.
Qed.

(** X17: [_updateVisibleLayers] collects the layers with imagery tiles
    (and likewise the vector layers) that are visible or still fading out,
    and its final [_sortLayers] sorts them: the tile layers by height and
    then z-index, the vector layers by z-index and then height, layers that
    agree in both keeping the order of the layer list.  It hands
    [_applyAttribution] the same html as [updateAttributionsList], to which
    a layer that is hidden adds nothing even while it fades; the base layer
    becomes the last layer of the list that is visible and a base layer, or
    stays what it was when there is none.  The tile layer slices are those
    of the sorted tile layers, and the vector layers are grouped by depth
    order: one group for 0 and one for each depth order that occurs, in
    ascending order, each with its layers in sorted order. *)
Theorem updateVisibleLayers_lists (this : @Visible Char) (layers : list (@Layer Char)) :
  let v := _updateVisibleLayers divOpen divClose this layers in
  let tiles := filter (fun li => shown li = true /\ hasImageryTiles li = true) layers in
  let vectors := filter (fun li => shown li = true /\ isVector li = true) layers in
  visibleTileLayers v ≡ₚ tiles /\
  StronglySorted
    (fun a b => getHeight a < getHeight b
                \/ (getHeight a == getHeight b /\ getZIndex a <= getZIndex b))
    (visibleTileLayers v) /\
  (forall h z,
     filter (fun li => sameRank h z li = true) (visibleTileLayers v)
     = filter (fun li => sameRank h z li = true) tiles) /\
  visibleVectorLayers v ≡ₚ vectors /\
  StronglySorted
    (fun a b => getZIndex a < getZIndex b
                \/ (getZIndex a == getZIndex b /\ getHeight a <= getHeight b))
    (visibleVectorLayers v) /\
  (forall h z,
     filter (fun li => sameRank h z li = true) (visibleVectorLayers v)
     = filter (fun li => sameRank h z li = true) vectors) /\
  html v = updateAttributionsList divOpen divClose layers /\
  baseLayer v
  = match last (filter (fun li => getVisibility li = true /\ isBaseLayer li = true)
                  layers) with
    | Some li => Some li
    | None => baseLayer this
    end /\
  _visibleTileLayerSlices v = tileLayerSlices (visibleTileLayers v) /\
  exists keys : list Z,
    StronglySorted Z.lt keys /\
    (forall k, k ∈ keys
               <-> k = 0%Z \/ exists vi, vi ∈ visibleVectorLayers v /\ depthOrder vi = k) /\
    _visibleVectorLayersByDepthOrder v
    = map (fun k => filter (fun vi => depthOrder vi = k) (visibleVectorLayers v)) keys.
Proof.
  intros v tiles vectors.
  destruct (collectVisibleLayers_lists this layers) as (Ht & Hv & Hh & Hb).
  fold tiles in Ht. fold vectors in Hv.
  assert (Htiles : visibleTileLayers v = jsSort compareTileLayers tiles).
  { unfold v, _updateVisibleLayers, _sortLayers. cbn [visibleTileLayers].
    rewrite Ht. destruct tiles; reflexivity. }
  assert (Hvectors : visibleVectorLayers v = jsSort compareVectorLayers vectors).
  { unfold v, _updateVisibleLayers, _sortLayers. cbn [visibleVectorLayers].
    rewrite Hv. reflexivity. }
  split; [rewrite Htiles; apply jsSort_perm |].
  split.
  { rewrite Htiles.
    eapply StronglySorted_iff; [| apply (jsSort_sorted compareTileLayers)].
    - intros a b H. apply compareTileLayers_le in H. exact H.
    - intros a b. rewrite !compareTileLayers_le. apply tileLe_total.
    - intros a b c. rewrite !compareTileLayers_le. apply tileLe_trans. }
  split.
  { intros h z. rewrite Htiles. apply jsSort_stable.
    intros a b Ha Hb'. apply compareTileLayers_le.
    exact (proj1 (sameRank_tileLe h z a b Ha Hb')). }
  split; [rewrite Hvectors; apply jsSort_perm |].
  split.
  { rewrite Hvectors.
    eapply StronglySorted_iff; [| apply (jsSort_sorted compareVectorLayers)].
    - intros a b H. apply compareVectorLayers_le in H. exact H.
    - intros a b. rewrite !compareVectorLayers_le. apply vectorLe_total.
    - intros a b c. rewrite !compareVectorLayers_le. apply vectorLe_trans. }
  split.
  { intros h z. rewrite Hvectors. apply jsSort_stable.
    intros a b Ha Hb'. apply compareVectorLayers_le.
    exact (proj2 (sameRank_tileLe h z a b Ha Hb')). }
  split; [exact Hh |]. split; [exact Hb |]. split; [reflexivity |].
  set (grouped := groupByDepthOrder (visibleVectorLayers v)).
  exists (jsSort (fun a b => inject_Z a - inject_Z b) (map fst (map_to_list grouped))).
  destruct (sortedKeys (map fst (map_to_list grouped)))
    as [Hsorted Hkeys]; [apply NoDup_fst_map_to_list |].
  split; [exact Hsorted |].
  split.
  - intros k. rewrite Hkeys.
    rewrite <- (proj2 (groupByDepthOrder_lookup (visibleVectorLayers v) k)).
    fold grouped. rewrite list_elem_of_fmap. split.
    + intros ([k' g] & -> & Hin). apply elem_of_map_to_list in Hin. cbn. eauto.
    + intros [g Hg]. exists (k, g). split; [reflexivity |].
      apply elem_of_map_to_list. exact Hg.
  - unfold v at 1, _updateVisibleLayers, _sortLayers.
    cbn [_visibleVectorLayersByDepthOrder].
    change (jsSort compareVectorLayers
              (visibleVectorLayers (collectVisibleLayers divOpen divClose this layers)))
      with (visibleVectorLayers v).
    fold grouped.
    apply map_ext. intros k.
    apply (proj1 (groupByDepthOrder_lookup (visibleVectorLayers v) k)).
Qed.

End LayersFacts.


(** *** The slices of tile layers *)

Section Slices.

Context {Char : Type}.

Let uniform (s : list (@Layer Char)) : Prop :=
  forall a b, a ∈ s -> b ∈ s -> getHeight a == getHeight b.

Let good (s : list (@Layer Char)) : Prop :=
  s <> [] /\ (Z.of_nat (length s) <= SLICE_SIZE)%Z /\ uniform s.

Let Inv (i : Z) (st : list (list (@Layer Char)) * Z * Q) : Prop :=
  (st.1.2 = Z.of_nat (length st.1.1) - 1)%Z /\
  Forall good st.1.1 /\
  ((0 < i)%Z ->
   exists front lastS,
     st.1.1 = front ++ [lastS] /\
     (forall a, a ∈ lastS -> getHeight a == st.2) /\
     (Z.of_nat (length lastS) <= (i - 1) mod SLICE_SIZE + 1)%Z).

Lemma alter_last {A : Type} (f : A -> A) (front : list A) (x : A) :
  alter f (length front) (front ++ [x]) = front ++ [f x].
Proof.
  rewrite <- (Nat.add_0_r (length front)). rewrite alter_app_r. reflexivity.
Qed.

Lemma sliceStep_inv (i : Z) (li : @Layer Char) (st : list (list (@Layer Char)) * Z * Q) :
  (0 <= i)%Z -> Inv i st ->
  Inv (i + 1) (sliceStep st i li) /\
  concat (sliceStep st i li).1.1 = concat st.1.1 ++ [li].
Proof.
  intros Hi. destruct st as [[slices k] curr]. unfold Inv. cbn [fst snd].
  intros (Hk & Hgood & Hlast).
  unfold sliceStep.
  rewrite Z.rem_mod_nonneg by (unfold SLICE_SIZE; lia).
  destruct ((i mod SLICE_SIZE =? 0)%Z || negb (Qeq_bool (getHeight li) curr)) eqn:Hnew.
  - cbn [fst snd].
    replace (Z.to_nat (k + 1)) with (length slices) by lia.
    rewrite alter_last. cbn [app].
    split; [split; [| split] |].
    + rewrite length_app. cbn [length]. lia.
    + apply Forall_app. split; [exact Hgood |].
      apply Forall_singleton. unfold good. split; [discriminate |].
      split; [unfold SLICE_SIZE; cbn; lia |].
      intros a b Ha Hb. apply list_elem_of_singleton in Ha, Hb. subst. reflexivity.
    + intros _. exists slices, [li]. split; [reflexivity |]. split.
      * intros a Ha. apply list_elem_of_singleton in Ha. subst. reflexivity.
      * replace (i + 1 - 1)%Z with i by lia. cbn [length].
        pose proof (Z.mod_pos_bound i SLICE_SIZE ltac:(unfold SLICE_SIZE; lia)). lia.
    + rewrite concat_app. cbn. reflexivity.
  - apply orb_false_iff in Hnew. destruct Hnew as [Hmod Hheight].
    apply Z.eqb_neq in Hmod. apply negb_false_iff in Hheight.
    apply Qeq_bool_iff in Hheight.
    assert (Hpos : (0 < i)%Z).
    { destruct (Z.eq_dec i 0%Z) as [-> | Hne]; [| lia].
      exfalso. apply Hmod. reflexivity. }
    destruct (Hlast Hpos) as (front & lastS & -> & Hcurr & Hlen).
    rewrite length_app in Hk. cbn [length] in Hk.
    cbn [fst snd].
    replace (Z.to_nat k) with (length front) by lia.
    rewrite alter_last.
    assert (Hmod1 : ((i - 1) mod SLICE_SIZE = i mod SLICE_SIZE - 1)%Z).
    { unfold SLICE_SIZE in *.
      pose proof (Z.mod_pos_bound i 4%Z ltac:(lia)) as Hb.
      rewrite (Z.div_mod i 4%Z) at 1 by lia.
      replace (4 * (i / 4) + i mod 4 - 1)%Z with ((i mod 4 - 1) + (i / 4) * 4)%Z by lia.
      rewrite Z.mod_add by lia. apply Z.mod_small. lia. }
    apply Forall_app in Hgood. destruct Hgood as [Hfront HlastGood].
    apply Forall_singleton in HlastGood.
    split; [split; [| split] |].
    + rewrite length_app. cbn [length]. lia.
    + apply Forall_app. split; [exact Hfront |].
      apply Forall_singleton. unfold good. split.
      * destruct lastS; discriminate.
      * split.
        -- rewrite length_app. cbn [length].
           pose proof (Z.mod_pos_bound i SLICE_SIZE ltac:(unfold SLICE_SIZE; lia)).
           lia.
        -- assert (Hall : forall a, a ∈ lastS ++ [li] -> getHeight a == curr).
           { intros a Ha. apply elem_of_app in Ha. destruct Ha as [Ha | Ha].
             - apply Hcurr. exact Ha.
             - apply list_elem_of_singleton in Ha. subst. exact Hheight. }
           intros a c Ha Hc. rewrite (Hall a Ha), (Hall c Hc). reflexivity.
    + intros _. exists front, (lastS ++ [li]). split; [reflexivity |]. split.
      * intros a Ha. apply elem_of_app in Ha. destruct Ha as [Ha | Ha].
        -- apply Hcurr. exact Ha.
        -- apply list_elem_of_singleton in Ha. subst. exact Hheight.
      * rewrite length_app. cbn [length].
        replace (i + 1 - 1)%Z with i by lia. lia.
    + rewrite !concat_app. cbn. rewrite !app_nil_r, app_assoc. reflexivity.
Qed.

Lemma sliceLoop_inv (layers : list (@Layer Char)) :
  forall (i : Z) (st : list (list (@Layer Char)) * Z * Q),
    (0 <= i)%Z -> Inv i st ->
    Inv (i + Z.of_nat (length layers)) (sliceLoop i layers st) /\
    concat (sliceLoop i layers st).1.1 = concat st.1.1 ++ layers.
Proof.
  induction layers as [| li layers IH]; intros i st Hi Hinv.
  - cbn [sliceLoop length]. rewrite Z.add_0_r, app_nil_r. split; [exact Hinv | reflexivity].
  - cbn [sliceLoop length].
    destruct (sliceStep_inv i li st Hi Hinv) as [Hinv' Hcat'].
    destruct (IH (i + 1)%Z (sliceStep st i li) ltac:(lia) Hinv') as [Hinv'' Hcat''].
    split.
    + replace (i + Z.of_nat (S (length layers)))%Z
        with (i + 1 + Z.of_nat (length layers))%Z by lia.
      exact Hinv''.
    + rewrite Hcat'', Hcat', <- app_assoc. reflexivity.
Qed.

(** X18: the slices that [_sortLayers] builds split the list of visible
    tile layers into consecutive runs: put end to end they give the list
    back, none is empty, none has more than [SLICE_SIZE] layers, and the
    layers of one slice all have the same height. *)
Theorem tileLayerSlices_partition (visibleTileLayers : list (@Layer Char)) :
  let slices := tileLayerSlices visibleTileLayers in
  concat slices = visibleTileLayers /\
  Forall (fun s =>
            s <> [] /\ (Z.of_nat (length s) <= SLICE_SIZE)%Z /\
            forall a b, a ∈ s -> b ∈ s -> getHeight a == getHeight b) slices.
Proof.
  cbv zeta. unfold tileLayerSlices.
  destruct visibleTileLayers as [| first rest]; [split; [reflexivity | constructor] |].
  assert (Hinit : Inv 0%Z ([], (-1)%Z, getHeight first)).
  { unfold Inv. cbn. split; [reflexivity |]. split; [constructor | lia]. }
  destruct (sliceLoop_inv (first :: rest) 0%Z _ ltac:(lia) Hinit) as [Hinv Hcat].
  split; [exact Hcat |].
  destruct Hinv as (_ & Hgood & _). exact Hgood.
Qed.

End Slices.

(** *** Completion events *)

Lemma checked_completed (this : Completion) :
  _renderCompleted (_checkRendercompleted this).1 = true /\
  _terrainCompleted (_checkRendercompleted this).1 = true.
Proof.
  unfold _checkRendercompleted.
  destruct (_renderCompleted this), (_renderCompletedActivated this),
    (_terrainCompleted this), (_terrainCompletedActivated this); cbn; auto.
Qed.

Lemma completionFrames_second (this : Completion) (f0 f1 : FrameInput)
  (rest : list FrameInput) :
  _renderCompleted this = true -> _terrainCompleted this = true ->
  completionFrames this (f0 :: f1 :: rest) !! 1%nat
  = Some ((if negb (renderPending f1) && (renderPending f0 || reset f1)
           then [rendercompleted] else [])
          ++ (if negb (terrainPending f1) && (terrainPending f0 || reset f1)
              then [terraincompleted] else [])).
Proof.
  intros Hr Ht. destruct this as [rc ra tc ta]. cbn in Hr, Ht. subst rc tc.
  destruct f0 as [z0 r0 t0], f1 as [z1 r1 t1].
  destruct ra, ta, z0, r0, t0, z1, r1, t1; reflexivity.
Qed.

Lemma completionFrames_lookup_S (this : Completion) (f : FrameInput)
  (rest : list FrameInput) (i : nat) :
  completionFrames this (f :: rest) !! S i
  = completionFrames (_checkRendercompleted (duringFrame this f)).1 rest !! i.
Proof.
  cbn [completionFrames]. destruct (_checkRendercompleted (duringFrame this f)).
  reflexivity.
Qed.

(** X19: with [_checkRendercompleted] run after every frame, from the third
    frame on a frame dispatches [rendercompleted] exactly when nothing was
    left to render in it and either something was left in the frame before
    or one of the resetting setters was called in it; likewise
    [terraincompleted] for the terrain, and [rendercompleted] comes first
    when both are dispatched.  So each event is dispatched once when
    loading ends, and not again while nothing changes. *)
Theorem completed_on_rising_edge (this : Completion) (frames : list FrameInput)
  (k : nat) (f0 f1 : FrameInput)
  (Hk : is_Some (frames !! k))
  (H0 : frames !! S k = Some f0) (H1 : frames !! S (S k) = Some f1) :
  completionFrames this frames !! S (S k)
  = Some ((if negb (renderPending f1) && (renderPending f0 || reset f1)
           then [rendercompleted] else [])
          ++ (if negb (terrainPending f1) && (terrainPending f0 || reset f1)
              then [terraincompleted] else [])).
Proof.
  revert this frames Hk H0 H1.
  induction k as [| k IH]; intros this frames Hk H0 H1.
  - destruct frames as [| f [| g0 [| g1 rest]]]; try discriminate.
    cbn in H0, H1. injection H0 as ->. injection H1 as ->.
    rewrite completionFrames_lookup_S.
    destruct (checked_completed (duringFrame this f)) as [Hr Ht].
    apply completionFrames_second; assumption.
  - destruct frames as [| f frames]; [discriminate |].
    rewrite completionFrames_lookup_S. apply IH; assumption.
Qed.

Lemma completed_on_rising_edge_witness :
  completionFrames (mkCompletion false false false false)
    [mkFrameInput false true true; mkFrameInput false true true;
     mkFrameInput false false true; mkFrameInput false false false] !! 2%nat
  = Some [rendercompleted].
Proof.
  refine (completed_on_rising_edge (mkCompletion false false false false)
            [mkFrameInput false true true; mkFrameInput false true true;
             mkFrameInput false false true; mkFrameInput false false false]
            0 (mkFrameInput false true true) (mkFrameInput false false true) _ _ _).
  - eexists. reflexivity.
  - reflexivity.
  - reflexivity.
Defined.

(** *** The view extent *)

Section ViewExtent.

Let maxQ (a b : Q) : Q := if RgbTerrain.Qlt_bool a b then b else a.
Let minQ (a b : Q) : Q := if RgbTerrain.Qlt_bool b a then b else a.

Lemma fold_maxQ (l : list Q) :
  forall init,
    init <= foldl maxQ init l /\
    (forall v, v ∈ l -> v <= foldl maxQ init l) /\
    (foldl maxQ init l = init \/ foldl maxQ init l ∈ l).
Proof.
  induction l as [| a l IH]; intros init; cbn [foldl].
  - split; [apply Qle_refl |]. split; [| left; reflexivity].
    intros v Hv. apply elem_of_nil in Hv. contradiction.
  - destruct (IH (maxQ init a)) as (Hinit & Hall & Hin).
    assert (Hstep : init <= maxQ init a /\ a <= maxQ init a /\
                    (maxQ init a = init \/ maxQ init a = a)).
    { unfold maxQ. destruct (RgbTerrain.Qlt_bool init a) eqn:Hlt.
      - apply RgbTerrainSpec.Qlt_bool_iff in Hlt.
        split; [apply Qlt_le_weak; exact Hlt |].
        split; [apply Qle_refl | right; reflexivity].
      - apply RgbTerrainSpec.Qlt_bool_false in Hlt.
        split; [apply Qle_refl |]. split; [exact Hlt | left; reflexivity]. }
    destruct Hstep as (H1 & H2 & H3).
    split; [eapply Qle_trans; eassumption |]. split.
    + intros v Hv. apply elem_of_cons in Hv. destruct Hv as [-> | Hv].
      * eapply Qle_trans; eassumption.
      * apply Hall. exact Hv.
    + destruct Hin as [Heq | Hin].
      * rewrite Heq. destruct H3 as [-> | ->]; [left; reflexivity |].
        right. apply elem_of_cons. left. reflexivity.
      * right. apply elem_of_cons. right. exact Hin.
Qed.

Lemma fold_minQ (l : list Q) :
  forall init,
    foldl minQ init l <= init /\
    (forall v, v ∈ l -> foldl minQ init l <= v) /\
    (foldl minQ init l = init \/ foldl minQ init l ∈ l).
Proof.
  induction l as [| a l IH]; intros init; cbn [foldl].
  - split; [apply Qle_refl |]. split; [| left; reflexivity].
    intros v Hv. apply elem_of_nil in Hv. contradiction.
  - destruct (IH (minQ init a)) as (Hinit & Hall & Hin).
    assert (Hstep : minQ init a <= init /\ minQ init a <= a /\
                    (minQ init a = init \/ minQ init a = a)).
    { unfold minQ. destruct (RgbTerrain.Qlt_bool a init) eqn:Hlt.
      - apply RgbTerrainSpec.Qlt_bool_iff in Hlt.
        split; [apply Qlt_le_weak; exact Hlt |].
        split; [apply Qle_refl | right; reflexivity].
      - apply RgbTerrainSpec.Qlt_bool_false in Hlt.
        split; [apply Qle_refl |]. split; [exact Hlt | left; reflexivity]. }
    destruct Hstep as (H1 & H2 & H3).
    split; [eapply Qle_trans; eassumption |]. split.
    + intros v Hv. apply elem_of_cons in Hv. destruct Hv as [-> | Hv].
      * eapply Qle_trans; eassumption.
      * apply Hall. exact Hv.
    + destruct Hin as [Heq | Hin].
      * rewrite Heq. destruct H3 as [-> | ->]; [left; reflexivity |].
        right. apply elem_of_cons. left. reflexivity.
      * right. apply elem_of_cons. right. exact Hin.
Qed.

Lemma getExtent_folds (e0 e1 e2 e3 : EntityNode.LonLat) (_viewExtent : EntityNode.Extent) :
  getExtent [Some e0; Some e1; Some e2; Some e3] _viewExtent
  = EntityNode.mkExtent
      (EntityNode.mkLonLat
         (foldl minQ (EntityNode.lon e0) (EntityNode.lon <$> [e0; e1; e2; e3]))
         (foldl minQ (EntityNode.lat e2) (EntityNode.lat <$> [e0; e1; e2; e3])))
      (EntityNode.mkLonLat
         (foldl maxQ (EntityNode.lon e1) (EntityNode.lon <$> [e0; e1; e2; e3]))
         (foldl maxQ (EntityNode.lat e0) (EntityNode.lat <$> [e0; e1; e2; e3]))).
Proof. reflexivity. Qed.

Lemma coordinate_of_picked (f : EntityNode.LonLat -> Q) (picked : list EntityNode.LonLat)
  (init : EntityNode.LonLat) (m : Q) :
  init ∈ picked -> m = f init \/ m ∈ f <$> picked ->
  exists e, e ∈ picked /\ m = f e.
Proof.
  intros Hinit [-> | Hm].
  - exists init. split; [exact Hinit | reflexivity].
  - apply list_elem_of_fmap in Hm. destruct Hm as (e & -> & He).
    exists e. split; [exact He | reflexivity].
Qed.

(** X20: when all four corners of the viewport are picked, [getExtent] is
    their bounding box: it covers each of the four positions, each of its
    four bounds is the longitude or latitude of one of them, and its
    south-west corner is not north or east of its north-east corner.  When
    a corner is not picked it is the stored view extent. *)
Theorem getExtent_bounding_box (e0 e1 e2 e3 : EntityNode.LonLat)
  (_viewExtent : EntityNode.Extent) :
  let box := getExtent [Some e0; Some e1; Some e2; Some e3] _viewExtent in
  let picked := [e0; e1; e2; e3] in
  (forall e, e ∈ picked -> EntityNode.covers box e) /\
  (exists e, e ∈ picked /\ EntityNode.lon (EntityNode.southWest box) = EntityNode.lon e) /\
  (exists e, e ∈ picked /\ EntityNode.lat (EntityNode.southWest box) = EntityNode.lat e) /\
  (exists e, e ∈ picked /\ EntityNode.lon (EntityNode.northEast box) = EntityNode.lon e) /\
  (exists e, e ∈ picked /\ EntityNode.lat (EntityNode.northEast box) = EntityNode.lat e) /\
  EntityNode.lon (EntityNode.southWest box) <= EntityNode.lon (EntityNode.northEast box) /\
  EntityNode.lat (EntityNode.southWest box) <= EntityNode.lat (EntityNode.northEast box) /\
  (forall corners,
      (exists i, corners !! i = Some None) ->
      getExtent corners _viewExtent = _viewExtent).
Proof.
  cbv zeta. rewrite getExtent_folds.
  cbn [EntityNode.southWest EntityNode.northEast EntityNode.lon EntityNode.lat].
  set (picked := [e0; e1; e2; e3]).
  destruct (fold_minQ (EntityNode.lon <$> picked) (EntityNode.lon e0)) as (_ & HminLon & HinMinLon).
  destruct (fold_minQ (EntityNode.lat <$> picked) (EntityNode.lat e2)) as (_ & HminLat & HinMinLat).
  destruct (fold_maxQ (EntityNode.lon <$> picked) (EntityNode.lon e1)) as (_ & HmaxLon & HinMaxLon).
  destruct (fold_maxQ (EntityNode.lat <$> picked) (EntityNode.lat e0)) as (_ & HmaxLat & HinMaxLat).
  assert (Hlon : forall e, e ∈ picked -> EntityNode.lon e ∈ EntityNode.lon <$> picked)
    by (intros e He; apply list_elem_of_fmap; exists e; split; [reflexivity | exact He]).
  assert (Hlat : forall e, e ∈ picked -> EntityNode.lat e ∈ EntityNode.lat <$> picked)
    by (intros e He; apply list_elem_of_fmap; exists e; split; [reflexivity | exact He]).
  assert (H0 : e0 ∈ picked) by apply list_elem_of_here.
  assert (H1 : e1 ∈ picked) by (apply list_elem_of_further, list_elem_of_here).
  assert (H2 : e2 ∈ picked)
    by (apply list_elem_of_further, list_elem_of_further, list_elem_of_here).
  split; [| split; [| split; [| split; [| split; [| split; [| split]]]]]].
  - intros e He. unfold EntityNode.covers.
    cbn [EntityNode.southWest EntityNode.northEast EntityNode.lon EntityNode.lat].
    repeat split.
    + apply HminLon, Hlon, He.
    + apply HmaxLon, Hlon, He.
    + apply HminLat, Hlat, He.
    + apply HmaxLat, Hlat, He.
  - apply (coordinate_of_picked EntityNode.lon picked e0); assumption.
  - apply (coordinate_of_picked EntityNode.lat picked e2); assumption.
  - apply (coordinate_of_picked EntityNode.lon picked e1); assumption.
  - apply (coordinate_of_picked EntityNode.lat picked e0); assumption.
  - eapply Qle_trans; [apply HminLon | apply HmaxLon]; apply Hlon, H0.
  - eapply Qle_trans; [apply HminLat | apply HmaxLat]; apply Hlat, H0.
  - intros corners [i Hi]. unfold getExtent.
    destruct corners as [| [c0 |] [| [c1 |] [| [c2 |] [| [c3 |] [| c4 rest]]]]];
      try reflexivity.
    destruct i as [| [| [| [| i]]]]; cbn in Hi; discriminate.
Qed.

End ViewExtent.

End PlanetLayersMore.

Module PlanetMemoryMore.

Import Planet.

Local Open Scope Z_scope.

Lemma preDraw_below_limit (this : MemState) (camEye : Vec3.t) :
  _createdNodesCount this <= MAX_NODES ->
  exists l,
    effects (_globalPreDraw this camEye) = effects this ++ l /\
    Forall (fun e => e = CamCheckFly \/ e = DeleteIndexBuffers) l /\
    _createdNodesCount (_globalPreDraw this camEye) = _createdNodesCount this.
Proof.
  intros Hle. unfold _globalPreDraw, needsMemClear.
  cbn -[Vec3.distance Z.ltb MAX_NODES].
  destruct (Z.ltb_spec MAX_NODES (_createdNodesCount this)) as [Hlt | _]; [lia |].
  cbn -[Vec3.distance Z.ltb MAX_NODES].
  destruct (600 <? _indexesCacheToRemoveCounter this).
  - exists [CamCheckFly; DeleteIndexBuffers]. cbn -[Vec3.distance].
    rewrite <- app_assoc. split; [reflexivity |]. split; [| reflexivity].
    apply Forall_cons_2; [left; reflexivity |].
    apply Forall_cons_2; [right; reflexivity | apply Forall_nil_2].
  - exists [CamCheckFly]. cbn -[Vec3.distance]. split; [reflexivity |].
    split; [| reflexivity].
    apply Forall_cons_2; [left; reflexivity | apply Forall_nil_2].
Qed.

Lemma preDrawFrames_below_limit (frames : list (Z * Vec3.t)) :
  forall this,
    Forall (fun f => 0 <= f.1) frames ->
    _createdNodesCount this + foldr Z.add 0 (frames.*1) <= MAX_NODES ->
    exists l,
      effects (preDrawFrames this frames) = effects this ++ l /\
      Forall (fun e => e = CamCheckFly \/ e = DeleteIndexBuffers) l.
Proof.
  induction frames as [| [created camEye] frames IH]; intros this Hpos Hsum.
  - exists []. cbn. rewrite app_nil_r. split; [reflexivity | constructor].
  - apply Forall_cons in Hpos. destruct Hpos as [Hc Hpos]. cbn in Hc, Hsum.
    assert (Htail : 0 <= foldr Z.add 0 (frames.*1)).
    { clear -Hpos. induction frames as [| f frames IHf]; cbn; [lia |].
      apply Forall_cons in Hpos. destruct Hpos as [Hf Hpos].
      specialize (IHf Hpos). lia. }
    destruct (preDraw_below_limit (addCreatedNodes this created) camEye) as (l1 & He1 & Hl1 & Hn1).
    { cbn. lia. }
    destruct (IH (_globalPreDraw (addCreatedNodes this created) camEye) Hpos)
      as (l2 & He2 & Hl2).
    { rewrite Hn1. cbn. lia. }
    exists (l1 ++ l2). cbn [preDrawFrames]. rewrite He2, He1. cbn [addCreatedNodes effects].
    rewrite <- app_assoc. split; [reflexivity |].
    apply Forall_app. split; assumption.
Qed.

(** X21: after [memClear], the frames that follow free memory again only
    once more than [MAX_NODES] nodes have been created: as long as the nodes
    created since the clear number at most [MAX_NODES], every
    [_globalPreDraw] only lets the camera check its flight and, at most,
    deletes the index buffers; it neither clears the terrain cache nor
    calls [memClear], however far the camera travels. *)
Theorem no_clear_until_nodes_created (this : MemState) (frames : list (Z * Vec3.t))
  (Hcreated : Forall (fun f => 0 <= f.1) frames)
  (Hsum : foldr Z.add 0 (frames.*1) <= MAX_NODES) :
  exists l,
    effects (preDrawFrames (memClear this) frames) = effects (memClear this) ++ l /\
    Forall (fun e => e = CamCheckFly \/ e = DeleteIndexBuffers) l.
Proof.
  apply preDrawFrames_below_limit; [exact Hcreated |].
  cbn [memClear _createdNodesCount]. lia.
Qed.


Lemma no_clear_until_nodes_created_witness :
  exists l,
    effects (preDrawFrames
               (memClear (mkMem 5000 (Vec3.mk 0 0 0) 300 1000 0 None []))
               [(150, Vec3.mk 0 0 2000); (50, Vec3.mk 0 0 9000)])
    = effects (memClear (mkMem 5000 (Vec3.mk 0 0 0) 300 1000 0 None [])) ++ l /\
    Forall (fun e => e = CamCheckFly \/ e = DeleteIndexBuffers) l.
Proof.
  apply (no_clear_until_nodes_created
           (mkMem 5000 (Vec3.mk 0 0 0) 300 1000 0 None [])
           [(150, Vec3.mk 0 0 2000); (50, Vec3.mk 0 0 9000)]).
  - repeat (apply Forall_cons_2; [cbn; lia |]). apply Forall_nil_2.
  - unfold MAX_NODES. cbn. lia.
Defined.
End PlanetMemoryMore.

Module CameraMore.

Import Camera CameraSpec.

Local Open Scope R_scope.

Lemma setViewportSize_const (c : t) (w h : R) :
  _projSizeConst (setViewportSize c w h)
  = Rmin (Rmax w 512) (Rmax h 512) / (_viewAngle c * RADIANS).
Proof.
  unfold setViewportSize. rewrite refresh_ok. reflexivity.
Qed.

(** X22: the constant of the LOD metric after [setViewportSize], for a
    positive view angle: it is at least [512 / (viewAngle * RADIANS)], so it
    is positive; it is exactly that floor as soon as the width or the height
    is at most 512; it does not decrease when the width and the height
    grow; and it is the same for a viewport and the viewport turned by a
    quarter. *)
Theorem projSizeConst_floor (c : t) (w h w' h' : R) (Hangle : 0 < _viewAngle c) :
  let k := fun w h => _projSizeConst (setViewportSize c w h) in
  512 / (_viewAngle c * RADIANS) <= k w h /\
  0 < k w h /\
  (w <= 512 \/ h <= 512 -> k w h = 512 / (_viewAngle c * RADIANS)) /\
  (w <= w' -> h <= h' -> k w h <= k w' h') /\
  k w h = k h w.
Proof.
  cbv beta zeta. rewrite !setViewportSize_const.
  assert (HD : 0 < _viewAngle c * RADIANS).
  { unfold RADIANS. assert (HPI := PI_RGT_0). apply Rmult_lt_0_compat; lra. }
  assert (Hinv : 0 < / (_viewAngle c * RADIANS)) by (apply Rinv_0_lt_compat; exact HD).
  unfold Rdiv.
  assert (Hmono : forall a b, a <= b ->
            a * / (_viewAngle c * RADIANS) <= b * / (_viewAngle c * RADIANS)).
  { intros a b Hab. apply Rmult_le_compat_r; lra. }
  assert (Hfloor : forall u v, 512 <= Rmin (Rmax u 512) (Rmax v 512)).
  { intros u v. unfold Rmin, Rmax.
    repeat match goal with |- context [Rle_dec ?a ?b] => destruct (Rle_dec a b) end; lra. }
  split; [apply Hmono, Hfloor |].
  split; [apply Rmult_lt_0_compat; [specialize (Hfloor w h); lra | exact Hinv] |].
  split; [| split].
  - intros Hsmall. f_equal. unfold Rmin, Rmax.
    destruct (Rle_dec w 512), (Rle_dec h 512);
      repeat match goal with |- context [Rle_dec ?a ?b] => destruct (Rle_dec a b) end;
      destruct Hsmall; lra.
  - intros Hw Hh. apply Hmono. unfold Rmin, Rmax.
    destruct (Rle_dec w 512), (Rle_dec h 512), (Rle_dec w' 512), (Rle_dec h' 512);
      repeat match goal with |- context [Rle_dec ?a ?b] => destruct (Rle_dec a b) end; lra.
  - f_equal. apply Rmin_comm.
Qed.

Lemma projSizeConst_floor_witness :
  _projSizeConst (setViewportSize fresh1024x768 300 2000)
  = 512 / (_viewAngle fresh1024x768 * RADIANS).
Proof.
  refine (proj1 (proj2 (proj2 (projSizeConst_floor fresh1024x768 300 2000 300 2000 _))) _).
  - cbn. lra.
  - left. lra.
Defined.

End CameraMore.
